(** * Process tree, log aggregation and keymapping of npm-scripts-ui

    A shallow embedding of the process manager ([createProcManager] in
    the process-manager module) and of the keymapping trie
    ([src/utils/keymapping.ts], [src/hooks/use_action.ts]). *)

From Stdlib Require Import List ZArith String Ascii Bool Lia.
From Stdlib Require Import Permutation Sorted DecimalNat.
Import ListNotations.

(* ------------------------------------------------------------------ *)
(** ** Node data *)

Module Proc.

Inductive ProcStatus := waiting | running | killed | finished.

Definition ProcStatus_eqb (a b : ProcStatus) : bool :=
  match a, b with
  | waiting, waiting | running, running | killed, killed
  | finished, finished => true
  | _, _ => false
  end.

Lemma ProcStatus_eqb_spec a b : ProcStatus_eqb a b = true <-> a = b.
Proof. destruct a, b; simpl; split; congruence. Qed.

Inductive ProcNodeType := none | serial | parallel.

(** [exitCode?: number | null]: absent (undefined), [null], or a number. *)
Inductive ExitCode := ECUndefined | ECNull | ECNum (z : Z).

(** The fields of a [ProcNodeInternal] read or written by status
    aggregation, serial scheduling, kill and the exit callback.
    [procOwn] records whether the optional process-identity is present,
    [raw] whether it still holds a live process handle ([procOwn.$raw]). *)
Record SNode := mkSNode {
  name : string;
  type : ProcNodeType;
  status : ProcStatus;
  exitCode : ExitCode;
  procOwn : bool;
  raw : bool;
  ignored : bool
}.

Definition set_status (s : ProcStatus) (n : SNode) : SNode :=
  mkSNode (name n) (type n) s (exitCode n) (procOwn n) (raw n) (ignored n).
Definition set_exitCode (e : ExitCode) (n : SNode) : SNode :=
  mkSNode (name n) (type n) (status n) e (procOwn n) (raw n) (ignored n).
Definition set_raw (r : bool) (n : SNode) : SNode :=
  mkSNode (name n) (type n) (status n) (exitCode n) (procOwn n) r (ignored n).
Definition set_ignored (b : bool) (n : SNode) : SNode :=
  mkSNode (name n) (type n) (status n) (exitCode n) (procOwn n) (raw n) b.

(** [Math.max(...xs)]: [None] stands for [-Infinity], the value of
    [Math.max()] on no arguments. *)
Definition jsMax (xs : list Z) : option Z :=
  fold_left (fun acc x => match acc with
                          | None => Some x
                          | Some m => Some (Z.max m x)
                          end) xs None.

(** [Math.max(...statuses.map((s) => (s === t ? 0 : 1))) === 0] *)
Definition allIs (t : ProcStatus) (statuses : list ProcStatus) : bool :=
  match jsMax (map (fun s => if ProcStatus_eqb s t then 0%Z else 1%Z) statuses) with
  | Some m => Z.eqb m 0
  | None => false
  end.

(** JavaScript truthiness of an exit code, and [accum || n.exitCode]. *)
Definition truthyExit (e : ExitCode) : bool :=
  match e with
  | ECNum z => negb (Z.eqb z 0)
  | _ => false
  end.

Definition orExit (accum e : ExitCode) : ExitCode :=
  if truthyExit accum then accum else e.

(** The status/exit-code part of [$notifyUpdate]
    (lines 237-250): recomputed only when some child is not ignored. *)
Definition recomputeStatus (node : SNode) (children : list SNode) : SNode :=
  let chs := filter (fun c => negb (ignored c)) children in
  match chs with
  | [] => node
  | _ :: _ =>
    let statuses := map status chs in
    let allKilled := allIs killed statuses in
    let allFinished := allIs finished statuses in
    let allWaiting := allIs waiting statuses in
    let st := if procOwn node && allKilled then killed
              else if allFinished then finished
              else if allWaiting then waiting
              else running in
    let ec := fold_left (fun accum n => orExit accum (exitCode n)) chs ECNull in
    set_exitCode ec (set_status st node)
  end.

(** The precedence rule of the specification, written from its words. *)
Definition spec_status (hasProcOwn : bool) (statuses : list ProcStatus) : ProcStatus :=
  if hasProcOwn && forallb (fun s => ProcStatus_eqb s killed) statuses then killed
  else if forallb (fun s => ProcStatus_eqb s finished) statuses then finished
  else if forallb (fun s => ProcStatus_eqb s waiting) statuses then waiting
  else running.

(** "first non-null/non-undefined exit code, left-to-right", from the
    specification's words. *)
Fixpoint spec_firstDefinedExit (es : list ExitCode) : ExitCode :=
  match es with
  | [] => ECNull
  | ECNum z :: _ => ECNum z
  | _ :: rest => spec_firstDefinedExit rest
  end.

(** What [reduce] with [||] computes: the first exit code that is a
    non-zero number, and otherwise the last one. *)
Fixpoint firstTruthyOrLast (es : list ExitCode) : ExitCode :=
  match es with
  | [] => ECNull
  | [e] => e
  | e :: rest => if truthyExit e then e else firstTruthyOrLast rest
  end.

(** [array[i] = f(array[i])] for an index in range; nothing otherwise
    (every index written below is in range). *)
Fixpoint set_nth {A} (i : nat) (f : A -> A) (l : list A) : list A :=
  match l, i with
  | [], _ => []
  | x :: xs, O => f x :: xs
  | x :: xs, S i' => x :: set_nth i' f xs
  end.

(** The first assignment of [$startRunning(child)],
    [node.status = 'running'], as the status view of [killNode] and the
    exit callback below uses it. The rest of [$startRunning] (the sinks,
    the spawn, the child's own notify pass and the passes it sets off) is
    modelled with the node tree in [Tree.startRunning]. *)
Definition startRunning (c : SNode) : SNode := set_status running c.

(** [for (let i = 0; i + 1 < node.children.length; i += 1)] of
    [$checkSerial]; [n] bounds the number of iterations, [started]
    records the indices handed to [$startRunning], in order. *)
Fixpoint serialLoop (n i : nat) (chs : list SNode) (started : list nat)
  : list SNode * list nat :=
  match n with
  | O => (chs, started)
  | S n' =>
    if Nat.ltb (i + 1) (List.length chs) then
      match nth_error chs i, nth_error chs (i + 1) with
      | Some a, Some b =>
        if ProcStatus_eqb (status a) finished && ProcStatus_eqb (status b) waiting
        then serialLoop n' (S i) (set_nth (i + 1) startRunning chs) (started ++ [i + 1])
        else serialLoop n' (S i) chs started
      | _, _ => (chs, started)
      end
    else (chs, started)
  end.

Definition isSerial (t : ProcNodeType) : bool :=
  match t with serial => true | _ => false end.

(** [$checkSerial(node)] over [node.children] (all children, ignored
    ones included), in the status view of [startRunning]: a started child
    is marked running, and the passes its start sets off, which can
    re-enter this node's pass and start further children, are left out
    (they are in [Tree.checkSerial]). *)
Definition checkSerial (node : SNode) (chs : list SNode) : list SNode * list nat :=
  if ProcStatus_eqb (status node) running && isSerial (type node)
     && Nat.ltb 0 (List.length chs) then
    match chs with
    | c0 :: _ =>
      if ProcStatus_eqb (status c0) waiting then (set_nth 0 startRunning chs, [0])
      else serialLoop (List.length chs) 0 chs []
    | [] => (chs, [])
    end
  else (chs, []).

End Proc.

(* ------------------------------------------------------------------ *)
(** ** Accumulated logs: hierarchical merge and history eviction *)

Module Log.

Inductive LogToken := TStyle (bytes : list Z) | TPrint (byte : Z).

(** [LogLineMain]; [timestamp] is [Date.getTime()] of the commit time. *)
Record LogLineMain := mkMain {
  timestamp : option Z;
  read : bool;
  id : Z;
  content : list LogToken
}.

Record LogLine := mkLine { title : string; main : LogLineMain }.

(** [LogAccumulatedInternal] without [$unreadLines]: the unread set is
    written by merge, append and eviction but never read by them, so it
    does not influence [lines]. [$lastLineToTitle] is an association
    list read by [lookupTitle] and written by [setTitle]. *)
Record LogAccumulated := mkAcc {
  lineCount : Z;
  lines : list LogLine;
  lastLineToTitle : list (string * LogLine)
}.

Definition emptyLogAccumulated : LogAccumulated := mkAcc 0%Z [] [].

Definition set_lineCount (n : Z) (a : LogAccumulated) : LogAccumulated :=
  mkAcc n (lines a) (lastLineToTitle a).
Definition set_lines (ls : list LogLine) (a : LogAccumulated) : LogAccumulated :=
  mkAcc (lineCount a) ls (lastLineToTitle a).
Definition set_lastLineToTitle (m : list (string * LogLine)) (a : LogAccumulated)
  : LogAccumulated := mkAcc (lineCount a) (lines a) m.

Fixpoint lookupTitle (k : string) (m : list (string * LogLine)) : option LogLine :=
  match m with
  | [] => None
  | (k', v) :: m' => if String.eqb k k' then Some v else lookupTitle k m'
  end.

Fixpoint setTitle (k : string) (v : LogLine) (m : list (string * LogLine))
  : list (string * LogLine) :=
  match m with
  | [] => [(k, v)]
  | (k', v') :: m' => if String.eqb k k' then (k, v) :: m' else (k', v') :: setTitle k v m'
  end.

(** The fields of a node that the log part of [$notifyUpdate] reads or
    writes. *)
Record LNode := mkLNode {
  lname : string;
  lignored : bool;
  logAcc : LogAccumulated;
  logOmitted : bool
}.

(** Bytes of an ASCII string ([Buffer.from(s)]). *)
Definition bytesOf (s : string) : list Z :=
  map (fun a => Z.of_nat (nat_of_ascii a)) (list_ascii_of_string s).

Definition ESC : string := String (ascii_of_nat 27) EmptyString.
Definition RESET (isColorSupported : bool) : list Z :=
  if isColorSupported then bytesOf (ESC ++ "[0m") else [].
Definition YELLOW (isColorSupported : bool) : list Z :=
  if isColorSupported then bytesOf (ESC ++ "[33m") else [].

(** The synthetic line spliced in by eviction. *)
Definition markerLine (isColorSupported : bool) : LogLine :=
  mkLine "[NOTIOS]"
    (mkMain (Some 0%Z) true (-1)%Z
       ([TStyle (RESET isColorSupported ++ YELLOW isColorSupported)]
        ++ map TPrint (bytesOf "[NOTIOS] HISTORY DROPPED")
        ++ [TStyle (RESET isColorSupported)])).

(** [xs.slice(-k)] for [k >= 1]. *)
Definition lastn {A} (k : nat) (l : list A) : list A := skipn (List.length l - k) l.

(** The "Wiping out the history" block of [$notifyUpdate]. *)
Definition evictHistory (isColorSupported : bool)
    (historyAlwaysKeepHeadSize historyCacheSize : Z)
    (acc : LogAccumulated) (omitted : bool) : LogAccumulated * bool :=
  let ls := lines acc in
  let headSize := Z.max 0 historyAlwaysKeepHeadSize in
  let tailSize := Z.max 1 (historyCacheSize + 1)%Z in
  if Z.ltb (headSize + tailSize)%Z (Z.of_nat (List.length ls)) then
    let head := firstn (Z.to_nat headSize) ls in
    let tail := skipn (Z.to_nat headSize) ls in
    (set_lines (head ++ markerLine isColorSupported :: lastn (Z.to_nat tailSize) tail) acc,
     true)
  else (acc, omitted).

(** Decimal rendering of [titleCnt] in the template string. *)
Fixpoint uintToString (u : Decimal.uint) : string :=
  match u with
  | Decimal.Nil => EmptyString
  | Decimal.D0 u => String "0" (uintToString u)
  | Decimal.D1 u => String "1" (uintToString u)
  | Decimal.D2 u => String "2" (uintToString u)
  | Decimal.D3 u => String "3" (uintToString u)
  | Decimal.D4 u => String "4" (uintToString u)
  | Decimal.D5 u => String "5" (uintToString u)
  | Decimal.D6 u => String "6" (uintToString u)
  | Decimal.D7 u => String "7" (uintToString u)
  | Decimal.D8 u => String "8" (uintToString u)
  | Decimal.D9 u => String "9" (uintToString u)
  end.

Definition natToString (n : nat) : string := uintToString (Nat.to_uint n).

(** [title] after [titleCnt] rounds of the [while (knownTitle[title])]
    loop. *)
Definition titleCandidate (name : string) (titleCnt : nat) : string :=
  match titleCnt with
  | O => name
  | S _ => name ++ "(" ++ natToString titleCnt ++ ")"
  end.

(** The [while (knownTitle[title])] loop; [fuel] bounds the rounds and
    [length known + 1] rounds always suffice (see [freshTitle_new]). *)
Fixpoint freshTitleFrom (known : list string) (name : string) (titleCnt fuel : nat)
  : string :=
  let t := titleCandidate name titleCnt in
  match fuel with
  | O => t
  | S f => if existsb (String.eqb t) known
           then freshTitleFrom known name (S titleCnt) f else t
  end.

Definition freshTitle (known : list string) (name : string) : string :=
  freshTitleFrom known name 0 (S (List.length known)).

(** [realLen]: the trailing line is left out while it has no timestamp. *)
Definition realLen (childLines : list LogLine) : nat :=
  match rev childLines with
  | [] => 0
  | l :: _ => match timestamp (main l) with
              | Some _ => List.length childLines
              | None => List.length childLines - 1
              end
  end.

(** The backward scan [while (from >= 1 && childLines[from - 1].main.id
    !== -1 && childLines[from - 1].main.id !== lastLine.main.id) from -= 1].
    The [None] case is out of range and never reached ([from <= realLen]). *)
Fixpoint scanBack (childLines : list LogLine) (lastId : Z) (from : nat) : nat :=
  match from with
  | O => O
  | S f =>
    match nth_error childLines f with
    | Some l => if Z.eqb (id (main l)) (-1)%Z || Z.eqb (id (main l)) lastId
                then from else scanBack childLines lastId f
    | None => from
    end
  end.

(** One round of [for (const child of children)]: the state is
    [knownTitle] (as the list of known titles), the node's accumulator
    and [beingAdded]. *)
Definition mergeChild (st : list string * LogAccumulated * list LogLine) (child : LNode)
  : list string * LogAccumulated * list LogLine :=
  let '(known, acc, beingAdded) := st in
  let acc1 := set_lineCount (lineCount acc + lineCount (logAcc child))%Z acc in
  let title := freshTitle known (lname child) in
  let known' := title :: known in
  let childLines := lines (logAcc child) in
  let rl := realLen childLines in
  if Nat.ltb 0 rl then
    let from := match lookupTitle title (lastLineToTitle acc1) with
                | Some lastLine => scanBack childLines (id (main lastLine)) rl
                | None => 0
                end in
    let acc2 := match nth_error childLines (rl - 1) with
                | Some l => set_lastLineToTitle (setTitle title l (lastLineToTitle acc1)) acc1
                | None => acc1
                end in
    (known', acc2,
     beingAdded ++ map (fun e => mkLine title (main e))
                       (firstn (rl - from) (skipn from childLines)))
  else (known', acc1, beingAdded).

(** [beingAdded.sort((a, b) => a.main.timestamp!.getTime() -
    b.main.timestamp!.getTime())]: a stable insertion sort (every merged
    line has a timestamp). *)
Definition tsKey (l : LogLine) : Z :=
  match timestamp (main l) with Some t => t | None => 0%Z end.

Fixpoint insertByTs (x : LogLine) (l : list LogLine) : list LogLine :=
  match l with
  | [] => [x]
  | y :: ys => if Z.leb (tsKey x) (tsKey y) then x :: y :: ys else y :: insertByTs x ys
  end.

Fixpoint sortByTs (l : list LogLine) : list LogLine :=
  match l with
  | [] => []
  | x :: xs => insertByTs x (sortByTs xs)
  end.

(** The titles [knownTitle[title]] finds in the fresh object [{}]: the
    properties it inherits from [Object.prototype], all truthy (functions,
    and the prototype itself for [__proto__]). *)
Definition objectProtoNames : list string :=
  ["constructor"; "__defineGetter__"; "__defineSetter__"; "hasOwnProperty";
   "__lookupGetter__"; "__lookupSetter__"; "isPrototypeOf"; "propertyIsEnumerable";
   "toString"; "valueOf"; "__proto__"; "toLocaleString"]%string.

(** The merge block of [$notifyUpdate] (lines 253-299), run when some
    child is not ignored; [chs] are the non-ignored children. *)
Definition mergeLines (acc : LogAccumulated) (chs : list LNode) : LogAccumulated :=
  let '(_, acc1, beingAdded) :=
    fold_left mergeChild chs (objectProtoNames, set_lineCount 0%Z acc, []) in
  set_lines (lines acc1 ++ sortByTs beingAdded) acc1.

(** The log part of one [$notifyUpdate] pass on a node: merge of the
    non-ignored children's new lines, then eviction. The parent's pass,
    which runs in between, only reads this node. *)
Definition notifyLog (isColorSupported : bool) (historyAlwaysKeepHeadSize historyCacheSize : Z)
    (node : LNode) (children : list LNode) : LNode :=
  let chs := filter (fun c => negb (lignored c)) children in
  let acc1 := match chs with
              | [] => logAcc node
              | _ :: _ => mergeLines (logAcc node) chs
              end in
  let '(acc2, om) := evictHistory isColorSupported historyAlwaysKeepHeadSize
                       historyCacheSize acc1 (logOmitted node) in
  mkLNode (lname node) (lignored node) acc2 om.

(** The lines left by [evictHistory] (see [LogFacts.evictHistory_lines]). *)
Definition evictLines (isColorSupported : bool)
    (historyAlwaysKeepHeadSize historyCacheSize : Z) (ls : list LogLine) : list LogLine :=
  let headSize := Z.max 0 historyAlwaysKeepHeadSize in
  let tailSize := Z.max 1 (historyCacheSize + 1)%Z in
  if Z.ltb (headSize + tailSize)%Z (Z.of_nat (List.length ls)) then
    firstn (Z.to_nat headSize) ls
      ++ markerLine isColorSupported :: lastn (Z.to_nat tailSize) (skipn (Z.to_nat headSize) ls)
  else ls.

(** A child after its own eviction step. *)
Definition evictChild (isColorSupported : bool)
    (historyAlwaysKeepHeadSize historyCacheSize : Z) (c : LNode) : LNode :=
  let '(acc, om) := evictHistory isColorSupported historyAlwaysKeepHeadSize
                      historyCacheSize (logAcc c) (logOmitted c) in
  mkLNode (lname c) (lignored c) acc om.

(** A child as a second pass may see it: unchanged, or after its own
    eviction step. *)
Definition settledChild (isColorSupported : bool)
    (historyAlwaysKeepHeadSize historyCacheSize : Z) (ch ch' : LNode) : Prop :=
  ch' = ch \/ ch' = evictChild isColorSupported historyAlwaysKeepHeadSize historyCacheSize ch.

(** The titles given to [chs] by one merge pass that starts with the
    titles [known]. *)
Fixpoint titlesFrom (known : list string) (chs : list LNode) : list string :=
  match chs with
  | [] => []
  | c :: r => let t := freshTitle known (lname c) in t :: titlesFrom (t :: known) r
  end.

End Log.

(* ------------------------------------------------------------------ *)
(** ** Keymapping trie ([src/utils/keymapping.ts]) *)

Module Keymap.
Local Open Scope string_scope.

(** [NotiosConfigKeymapping]: a character with optional [ctrl], [meta]
    and [shift], or a special key with optional [ctrl] and [shift]; an
    absent modifier is [false]. *)
Inductive NotiosConfigKeymapping :=
| KChar (char : string) (ctrl meta shift : bool)
| KSpecial (special : string) (ctrl shift : bool).

(** [NotiosConfigKeymappingRoot]: [{type: 'seq', seq}] or one key. *)
Inductive NotiosConfigKeymappingRoot :=
| RootSeq (seq : list NotiosConfigKeymapping)
| RootOne (k : NotiosConfigKeymapping).

(** A keymapping configuration as [Object.entries] lists it: action
    names in order, each with its array of key sequences or with
    [null]/[undefined] ([None]). *)
Definition KeymapConfig := list (string * option (list NotiosConfigKeymappingRoot)).

Definition flag (b : bool) (c : string) : string := if b then c else "-".

Definition keymappingToString (k : NotiosConfigKeymapping) : string :=
  match k with
  | KChar char ctrl meta shift => char ++ flag ctrl "c" ++ flag meta "m" ++ flag shift "s"
  | KSpecial special ctrl shift => special ++ ";" ++ flag ctrl "c" ++ flag shift "s"
  end.

Definition keymappingToRepr (k : NotiosConfigKeymapping) : string :=
  match k with
  | KChar char ctrl meta shift =>
    (if ctrl then "C-" else EmptyString) ++ (if meta then "M-" else EmptyString)
    ++ (if shift then "S-" else EmptyString)
    ++ (if String.eqb char " " then "<SPACE>" else char)
  | KSpecial special ctrl shift =>
    (if ctrl then "C-" else EmptyString) ++ (if shift then "S-" else EmptyString) ++ special
  end.

Definition toSeq (r : NotiosConfigKeymappingRoot) : list NotiosConfigKeymapping :=
  match r with
  | RootSeq seq => seq
  | RootOne k => [k]
  end.

(** [KeymappingNode]: [children] as an association list (a [Map] whose
    [set] on a present key replaces the value in place) and [action?]. *)
#[warnings="-register-all"]
Inductive KeymappingNode :=
| mkKeymappingNode (children : list (string * KeymappingNode)) (action : option string).

Definition children (n : KeymappingNode) : list (string * KeymappingNode) :=
  match n with mkKeymappingNode c _ => c end.
Definition action (n : KeymappingNode) : option string :=
  match n with mkKeymappingNode _ a => a end.

Definition emptyNode : KeymappingNode := mkKeymappingNode [] None.

(** [Map.prototype.get] and [Map.prototype.set]. *)
Fixpoint mget (k : string) (m : list (string * KeymappingNode)) : option KeymappingNode :=
  match m with
  | [] => None
  | (k', v) :: m' => if String.eqb k k' then Some v else mget k m'
  end.

Fixpoint mset (k : string) (v : KeymappingNode) (m : list (string * KeymappingNode))
  : list (string * KeymappingNode) :=
  match m with
  | [] => [(k, v)]
  | (k', v') :: m' => if String.eqb k k' then (k, v) :: m' else (k', v') :: mset k v m'
  end.

(** The flattened [(action, seq)] pairs: entries whose value is [null] are
    dropped, the others give one pair per key sequence. *)
Definition flattenEntries (cfg : KeymapConfig) : list (string * list NotiosConfigKeymapping) :=
  flat_map (fun e => match snd e with
                     | None => []
                     | Some rs => map (fun r => (fst e, toSeq r)) rs
                     end) cfg.

(** [pairs.sort((a, b) => a[1].length - b[1].length)]: [Array.prototype.sort]
    is stable, so the result is the stable sort by length, here as an
    insertion sort. *)
Fixpoint insertByLen (x : string * list NotiosConfigKeymapping)
    (l : list (string * list NotiosConfigKeymapping)) : list (string * list NotiosConfigKeymapping) :=
  match l with
  | [] => [x]
  | y :: ys => if Nat.leb (List.length (snd x)) (List.length (snd y)) then x :: y :: ys
               else y :: insertByLen x ys
  end.

Fixpoint sortByLen (l : list (string * list NotiosConfigKeymapping))
  : list (string * list NotiosConfigKeymapping) :=
  match l with
  | [] => []
  | x :: xs => insertByLen x (sortByLen xs)
  end.

(** The walk of the inner [for (const one of seq)] loop and the final
    [cur.action = action]. The trie is updated in place in the source;
    a throw discards it, so only the error is kept here. [IErr] carries
    the [cur.action] found on the path. *)
Inductive InsertResult := IOk (n : KeymappingNode) | IErr (curAction : string).

Fixpoint insertSeq (act : string) (keys : list string) (cur : KeymappingNode) : InsertResult :=
  match keys with
  | [] => IOk (mkKeymappingNode (children cur) (Some act))
  | key :: keys' =>
    let child := match mget key (children cur) with
                 | Some c => c
                 | None => emptyNode
                 end in
    match action child with
    | Some other => IErr other
    | None =>
      match insertSeq act keys' child with
      | IOk child' => IOk (mkKeymappingNode (mset key child' (children cur)) (action cur))
      | IErr other => IErr other
      end
    end
  end.

(** The outcome of [constructKeymapping]: the trie, or one of its two
    errors ([Keymap for action "A" is zero-length ...] and
    [Keymap for action "A" [repr] including keymap for action "B"]). *)
Inductive KeymapResult :=
| KOk (trie : KeymappingNode)
| KErrZero (act : string)
| KErrConflict (act : string) (repr : string) (curAction : string).

Definition seqRepr (seq : list NotiosConfigKeymapping) : string :=
  String.concat " " (map keymappingToRepr seq).

Fixpoint buildTrie (ps : list (string * list NotiosConfigKeymapping)) (trie : KeymappingNode)
  : KeymapResult :=
  match ps with
  | [] => KOk trie
  | (act, seq) :: rest =>
    match seq with
    | [] => KErrZero act
    | _ :: _ =>
      match insertSeq act (map keymappingToString seq) trie with
      | IOk trie' => buildTrie rest trie'
      | IErr other => KErrConflict act (seqRepr seq) other
      end
    end
  end.

Definition constructKeymapping (cfg : KeymapConfig) : KeymapResult :=
  buildTrie (sortByLen (flattenEntries cfg)) emptyNode.

(** *** Key normalisation of [matchKeymapping] *)

(** Ink's [Key]: the modifiers and the flags of the special keys, read
    by name as [key[specialKeyName]]. *)
Record Key := mkKey {
  kctrl : bool;
  kmeta : bool;
  kshift : bool;
  pressed : string -> bool
}.

Definition escStr : string := String (ascii_of_nat 27) EmptyString.

Definition startsWith (p s : string) : bool := String.prefix p s.

Definition endsWith (p s : string) : bool :=
  Nat.leb (String.length p) (String.length s)
  && String.eqb (substring (String.length s - String.length p) (String.length p) s) p.

Definition stripPrefix (p s : string) : option string :=
  if String.prefix p s
  then Some (substring (String.length p) (String.length s - String.length p) s)
  else None.

(** [s] is one or more copies of [u] ([u] non-empty). *)
Fixpoint repeatsOf (u s : string) (fuel : nat) : bool :=
  match fuel with
  | O => false
  | S f => match stripPrefix u s with
           | Some EmptyString => true
           | Some r => repeatsOf u r f
           | None => false
           end
  end.

(** [/^\[X(?:\x1b\[X)+$/] for the letter [X]. *)
Definition wheelMatch (x : string) (input : string) : bool :=
  match stripPrefix ("[" ++ x) input with
  | Some r => repeatsOf (escStr ++ "[" ++ x) r (S (String.length r))
  | None => false
  end.

(** [String.prototype.toLowerCase] on ASCII input. *)
Fixpoint toLowerCase (s : string) : string :=
  match s with
  | EmptyString => EmptyString
  | String c s' =>
    let n := nat_of_ascii c in
    String (if Nat.leb 65 n && Nat.leb n 90 then ascii_of_nat (n + 32) else c) (toLowerCase s')
  end.

(** The [for (const specialKeyName of specialKeyNames)] loop; the list
    [specialKeyNames] comes from the configuration library. *)
Fixpoint specialToken (specialKeyNames : list string) (key : Key) : option string :=
  match specialKeyNames with
  | [] => None
  | n :: ns =>
    if pressed key n then
      Some (if String.eqb n "tab" then keymappingToString (KSpecial n false (kshift key))
            else if String.eqb n "delete" || String.eqb n "backspace" || String.eqb n "return"
            then keymappingToString (KSpecial n false false)
            else keymappingToString (KSpecial n (kctrl key) (kshift key)))
    else specialToken ns key
  end.

(** The token [k] computed by [matchKeymapping]. *)
Definition normalizeKey (specialKeyNames : list string) (input : string) (key : Key) : string :=
  let c2 := startsWith "[1;5" input || startsWith "[1;6" input in
  let s2 := startsWith "[1;2" input || startsWith "[1;6" input in
  if wheelMatch "B" input then keymappingToString (KSpecial "upWheel" false false)
  else if wheelMatch "A" input then keymappingToString (KSpecial "downWheel" false false)
  else if String.eqb input "[1~" then keymappingToString (KSpecial "home" c2 s2)
  else if String.eqb input "[4~" then keymappingToString (KSpecial "end" c2 s2)
  else if String.eqb input "[5;2~" then keymappingToString (KSpecial "pageUp" c2 true)
  else if String.eqb input "[6;2~" then keymappingToString (KSpecial "pageDown" c2 true)
  else if String.eqb input "[5;6~" then keymappingToString (KSpecial "pageUp" true true)
  else if String.eqb input "[6;6~" then keymappingToString (KSpecial "pageDown" true true)
  else if (c2 || s2) && endsWith "H" input then keymappingToString (KSpecial "home" c2 s2)
  else if (c2 || s2) && endsWith "F" input then keymappingToString (KSpecial "end" c2 s2)
  else if (c2 || s2) && endsWith "D" input then keymappingToString (KSpecial "leftArrow" c2 s2)
  else if (c2 || s2) && endsWith "B" input then keymappingToString (KSpecial "downArrow" c2 s2)
  else if (c2 || s2) && endsWith "C" input then keymappingToString (KSpecial "rightArrow" c2 s2)
  else if (c2 || s2) && endsWith "A" input then keymappingToString (KSpecial "upArrow" c2 s2)
  else match specialToken specialKeyNames key with
       | Some t => t
       | None => keymappingToString
                   (KChar (toLowerCase input) (kctrl key) (kmeta key) (kshift key))
       end.

(** [matchKeymapping trie input key]: [(next, matched)]. *)
Definition matchKeymapping (specialKeyNames : list string) (trie : KeymappingNode)
    (input : string) (key : Key) : option KeymappingNode * option string :=
  match mget (normalizeKey specialKeyNames input key) (children trie) with
  | None => (None, None)
  | Some next =>
    match action next with
    | Some a => (None, Some a)
    | None => (Some next, None)
    end
  end.

(** *** [useAction] ([src/hooks/use_action.ts]) *)

(** The trie built for a page: [{...keymappings[page], help: [?]}]; a
    present [help] key keeps its place and takes the new value. *)
Definition helpEntry : string * option (list NotiosConfigKeymappingRoot) :=
  ("help", Some [RootOne (KChar "?" false false false)]).

Definition withHelp (cfg : KeymapConfig) : KeymapConfig :=
  if existsb (fun e => String.eqb (fst e) "help") cfg
  then map (fun e => if String.eqb (fst e) "help" then helpEntry else e) cfg
  else (cfg ++ [helpEntry])%list.

(** One [useInput] callback: the new [cur] and the action whose
    implementation is called, if any. Each keystroke is taken to see the
    [cur] set by the previous one (the state update has been rendered). *)
Definition useActionStep (specialKeyNames : list string) (disabled : bool)
    (trie cur : KeymappingNode) (input : string) (key : Key)
  : KeymappingNode * option string :=
  if disabled then (cur, None)
  else
    let '(next, matched) := matchKeymapping specialKeyNames cur input key in
    (match next with Some n => n | None => trie end, matched).

(** A run of keystrokes from [cur]: the final position and the actions
    called, in order. *)
Fixpoint runKeys (specialKeyNames : list string) (trie cur : KeymappingNode)
    (inputs : list (string * Key)) : KeymappingNode * list string :=
  match inputs with
  | [] => (cur, [])
  | (input, key) :: rest =>
    let '(cur', matched) := useActionStep specialKeyNames false trie cur input key in
    let '(final, fired) := runKeys specialKeyNames trie cur' rest in
    (final, match matched with Some a => a :: fired | None => fired end)
  end.

(** *** Reading a trie *)

(** The action bound at the node reached by the tokens [p], if any. *)
Fixpoint boundAt (t : KeymappingNode) (p : list string) : option string :=
  match p with
  | [] => action t
  | k :: ks => match mget k (children t) with
               | Some c => boundAt c ks
               | None => None
               end
  end.

(** The normalised tokens of a flattened entry. *)
Definition keysOf (e : string * list NotiosConfigKeymapping) : list string :=
  map keymappingToString (snd e).

End Keymap.

(* ------------------------------------------------------------------ *)
(** ** Appending output, kill and the exit callback *)

Module Kill.
Import Proc Log.

(** An action of the ANSI decoder: a printable byte, a control
    character, or a style action (any other [actionType]). *)
Inductive AnsiAction (StyAction : Type) :=
| APrint (byte : Z)
| AControl (char : ascii)
| AStyle (a : StyAction).
Arguments APrint {StyAction} byte.
Arguments AControl {StyAction} char.
Arguments AStyle {StyAction} a.

(** The interface of the libraries [ansi-parser] ([decodeAnsiBytes]) and
    [./sty.js] ([applyActionToSty], [restoreSty]), which are not part of
    this module: the proofs hold for every implementation. *)
Class AnsiLib := {
  StyContext : Type;
  StyAction : Type;
  AnsiParser : Type;
  applyActionToSty : StyContext -> StyAction -> StyContext;
  restoreSty : StyContext -> list Z;
  decodeAnsiBytes : AnsiParser -> list Z -> AnsiParser * list (AnsiAction StyAction)
}.

Section Append.
Context {E : AnsiLib}.

(** [LogOwnInternal] *)
Record LogOwn := mkLogOwn { currentSty : StyContext; currentParser : AnsiParser }.

Definition set_timestamp (t : Z) (l : LogLine) : LogLine :=
  mkLine (title l) (mkMain (Some t) (read (main l)) (id (main l)) (content (main l))).

Definition push_content (tok : LogToken) (l : LogLine) : LogLine :=
  mkLine (title l) (mkMain (timestamp (main l)) (read (main l)) (id (main l))
                           (content (main l) ++ [tok])).

(** [f] applied to [lines[lines.length - 1]]. *)
Fixpoint updLast (f : LogLine -> LogLine) (ls : list LogLine) : list LogLine :=
  match ls with
  | [] => []
  | [x] => [f x]
  | x :: r => x :: updLast f r
  end.

Definition pendingLine (idv : Z) (c : list LogToken) : LogLine :=
  mkLine EmptyString (mkMain None false idv c).

(** [if (lines.length === 0) { ... lines.push(logLine) ... }].
    [$lastLineToTitle] holds values here; only the [id] of its lines is
    ever read, and ids are never written. *)
Definition ensureLine (acc : LogAccumulated) : LogAccumulated :=
  match lines acc with
  | [] => let l := pendingLine (lineCount acc) [] in
          mkAcc (lineCount acc) [l] (setTitle EmptyString l (lastLineToTitle acc))
  | _ :: _ => acc
  end.

(** [checkTimestamp(lastLine)] *)
Definition checkTimestamp (now : Z) (acc : LogAccumulated) : LogAccumulated :=
  match rev (lines acc) with
  | l :: _ =>
    match timestamp (main l) with
    | Some _ => acc
    | None => mkAcc (lineCount acc + 1)%Z (updLast (set_timestamp now) (lines acc))
                    (lastLineToTitle acc)
    end
  | [] => acc
  end.

Definition pushToken (tok : LogToken) (acc : LogAccumulated) : LogAccumulated :=
  set_lines (updLast (push_content tok) (lines acc)) acc.

(** One round of [for (const action of actions)] of [$appendLogToNode];
    [now] is [new Date()]. *)
Definition appendAction (now : Z) (st : LogAccumulated * StyContext)
    (a : AnsiAction StyAction) : LogAccumulated * StyContext :=
  let '(acc0, sty) := st in
  let acc := ensureLine acc0 in
  match a with
  | APrint b => (pushToken (TPrint b) (checkTimestamp now acc), sty)
  | AControl c =>
    if Ascii.eqb c (ascii_of_nat 9) then (pushToken (TPrint 32) (checkTimestamp now acc), sty)
    else if Ascii.eqb c (ascii_of_nat 10) then
      let acc1 := checkTimestamp now acc in
      let l := pendingLine (lineCount acc1) [TStyle (restoreSty sty)] in
      (mkAcc (lineCount acc1) (lines acc1 ++ [l]) (setTitle EmptyString l (lastLineToTitle acc1)),
       sty)
    else (acc, sty)
  | AStyle s =>
    let sty' := applyActionToSty sty s in
    (pushToken (TStyle (restoreSty sty')) acc, sty')
  end.

(** [$appendLogToNode(newLog, node)] on a node with a [logOwn]. *)
Definition appendLogToNode (now : Z) (newLog : list Z) (own : LogOwn) (acc : LogAccumulated)
  : LogOwn * LogAccumulated :=
  let '(parser, actions) := decodeAnsiBytes (currentParser own) newLog in
  let '(acc', sty) := fold_left (appendAction now) actions (acc, currentSty own) in
  (mkLogOwn sty parser, acc').

(** A node as [killNode] and the exit callback of [$startRunning] see it:
    the node, its children (the stdout and stderr sinks at indices 0
    and 1, as [$startRunning] prepends them) and the log of the stdout
    sink. *)
Record LeafView := mkLeaf {
  lnode : SNode;
  lchildren : list SNode;
  outOwn : LogOwn;
  outAcc : LogAccumulated
}.

(** [`\n${RESET}${YELLOW}[NOTIOS] MANUALLY KILLED${RESET}\n`] *)
Definition killMsg (isColorSupported : bool) : list Z :=
  [10%Z] ++ RESET isColorSupported ++ YELLOW isColorSupported
  ++ bytesOf "[NOTIOS] MANUALLY KILLED" ++ RESET isColorSupported ++ [10%Z].

(** The status part of [node.$notifyUpdate()]: recomputation, then
    [$checkSerial(node)] in the status view of [Proc.checkSerial]. The
    log merge, the parent's pass, eviction and the listeners write
    neither this node's status nor its children's; the passes set off by
    starting a child are left out (see [Tree] for them). *)
Definition notifyStatus (node : SNode) (chs : list SNode) : SNode * list SNode :=
  let node' := recomputeStatus node chs in
  (node', fst (checkSerial node' chs)).

(** The guards of [killNode]. *)
Definition killable (v : option LeafView) : bool :=
  match v with
  | Some l => procOwn (lnode l) && raw (lnode l) && ProcStatus_eqb (status (lnode l)) running
  | None => false
  end.

(** [killNode(node)]: the new view and whether [crossKill] was called. *)
Definition killNode (isColorSupported : bool) (now : Z) (v : option LeafView)
  : option LeafView * bool :=
  match v with
  | Some l =>
    if killable v then
      let n1 := set_status killed (set_raw false (lnode l)) in
      let chs1 := set_nth 1 (set_status killed) (set_nth 0 (set_status killed) (lchildren l)) in
      let '(own', acc') := appendLogToNode now (killMsg isColorSupported) (outOwn l) (outAcc l) in
      let '(n2, chs2) := notifyStatus n1 chs1 in
      (Some (mkLeaf n2 chs2 own' acc'), true)
    else (v, false)
  | None => (v, false)
  end.

(** The assignments of the [exit] callback to the two sinks. *)
Definition promote (c : SNode) : SNode :=
  if ProcStatus_eqb (status c) running then set_status finished c else c.

Definition exitSinks (code : ExitCode) (chs : list SNode) : list SNode :=
  set_nth 1 (set_exitCode code) (set_nth 0 (set_exitCode code)
    (set_nth 1 promote (set_nth 0 promote chs))).

(** [p.once('exit', ...)]: the sinks' assignments, then
    [nodeStdout.$notifyUpdate()] and [nodeStderr.$notifyUpdate()]; a sink
    has no children, so its own pass leaves its status alone and then
    runs the node's pass. *)
Definition onExit (code : ExitCode) (l : LeafView) : LeafView :=
  let chs1 := exitSinks code (lchildren l) in
  let '(n1, chs2) := notifyStatus (lnode l) chs1 in
  let '(n2, chs3) := notifyStatus n1 chs2 in
  mkLeaf n2 chs3 (outOwn l) (outAcc l).

End Append.

(** The bytes an action adds to the printed text of a log: a printable
    byte, a space for a tab, a line break for a newline, nothing else. *)
Definition actionText {StyAction : Type} (a : AnsiAction StyAction) : list Z :=
  match a with
  | APrint b => [b]
  | AControl c =>
    if Ascii.eqb c (ascii_of_nat 9) then [32%Z]
    else if Ascii.eqb c (ascii_of_nat 10) then [10%Z] else []
  | AStyle _ => []
  end.

(** The printable bytes of a line's content. *)
Definition printable (c : list LogToken) : list Z :=
  flat_map (fun t => match t with TPrint b => [b] | TStyle _ => [] end) c.

(** The printed text of a list of lines: their printable bytes joined
    by line breaks. *)
Definition logText (ls : list LogLine) : list Z :=
  match ls with
  | [] => []
  | l :: r => printable (content (main l))
              ++ flat_map (fun l' => 10%Z :: printable (content (main l'))) r
  end.

(** The children after the sinks are all killed or ignored. *)
Definition othersKilled (chs : list SNode) : bool :=
  forallb (fun c => ignored c || ProcStatus_eqb (status c) killed) (skipn 2 chs).

End Kill.

(* ================================================================== *)
(** * [markNodeAsRead] *)

Module Read.
Import Proc.

(** A node as [markNodeAsRead] sees it: its [$unreadLines] set, as the
    heap locations of the lines' [main] objects, and its children. A
    [main] object is shared by a child's line and the copies merged
    into its ancestors, so [read] lives in a heap [readFlags], indexed
    by location. *)
#[warnings="-register-all"]
Inductive RNode := mkRNode (unreadLines : list nat) (kids : list RNode).

(** The state read marking can touch: the [read] fields, the tree, and
    the calls of update listeners (per node or global) made so far, each
    recorded by the path of the node being notified. *)
Record RState := mkRState {
  readFlags : list bool;
  root : RNode;
  listenerCalls : list (list nat)
}.

(** [line.main.read = true] *)
Definition setRead (flags : list bool) (loc : nat) : list bool :=
  set_nth loc (fun _ => true) flags.

(** [internal(inode)]: mark the unread lines read, clear the set, then
    recurse into the children in order. *)
Fixpoint internal (t : RNode) (flags : list bool) : RNode * list bool :=
  match t with
  | mkRNode un kids =>
    let flags1 := fold_left setRead un flags in
    let fix go (ks : list RNode) (fl : list bool) : list RNode * list bool :=
      match ks with
      | [] => ([], fl)
      | k :: ks' =>
        let '(k', fl1) := internal k fl in
        let '(ks'', fl2) := go ks' fl1 in
        (k' :: ks'', fl2)
      end in
    let '(kids', fl) := go kids flags1 in
    (mkRNode [] kids', fl)
  end.

(** [internal] on the node at path [p] of the tree. *)
Fixpoint internalAt (p : list nat) (t : RNode) (flags : list bool) : option (RNode * list bool) :=
  match p with
  | [] => Some (internal t flags)
  | i :: p' =>
    match t with
    | mkRNode un kids =>
      match nth_error kids i with
      | None => None
      | Some k =>
        match internalAt p' k flags with
        | None => None
        | Some (k', fl) => Some (mkRNode un (set_nth i (fun _ => k') kids), fl)
        end
      end
    end
  end.

Section Mark.
(** [inode.$notifyUpdate()] for the node at a path: the notify pass,
    including the listeners it calls. *)
Variable notifyUpdate : list nat -> RState -> RState.

(** [markNodeAsRead(node)]; [None] is a null or undefined node. *)
Definition markNodeAsRead (enableUnreadMarker : bool) (node : option (list nat)) (st : RState)
  : RState :=
  if negb enableUnreadMarker then st
  else
    match node with
    | None => st
    | Some p =>
      match internalAt p (root st) (readFlags st) with
      | None => st
      | Some (t', fl) => notifyUpdate p (mkRState fl t' (listenerCalls st))
      end
    end.
End Mark.

End Read.

(* ------------------------------------------------------------------ *)
(** ** The node tree: scheduling, kill, exit and restart with their
    nested notify passes *)

Module Tree.
Import Proc.

(** A [ProcNodeInternal] in the node store: its status fields ([core]),
    the identities of its [children] and its [parent]. A node's identity
    is its index in the store, which is also its creation order; a token
    of [$tokenToNodeMap] stands for the identity of its node. The logs
    are left out: no status, child list or parent is computed from a log,
    and the log code writes none of them. The update listeners belong to
    the user interface and are not modelled. *)
Record Node := mkNode { core : SNode; children : list nat; parent : option nat }.

(** The node store, and the calls of [$startRunning] made by
    [$checkSerial]: the serial node, the child's index and the nodes as
    they were when the call was made (a record of the run, read by no
    function below). *)
Record Store := mkStore { nodes : list Node; starts : list (nat * nat * list Node) }.

Definition getNode (st : Store) (x : nat) : option Node := nth_error (nodes st) x.

Definition updNode (x : nat) (f : Node -> Node) (st : Store) : Store :=
  mkStore (set_nth x f (nodes st)) (starts st).

Definition setCore (f : SNode -> SNode) (m : Node) : Node :=
  mkNode (f (core m)) (children m) (parent m).

(** [$createNode(...)]: the new node gets the next identity. *)
Definition addNode (n : Node) (st : Store) : Store :=
  mkStore (nodes st ++ [n]) (starts st).

Definition recordStart (p i : nat) (st : Store) : Store :=
  mkStore (nodes st) (starts st ++ [(p, i, nodes st)]).

(** [ids.map((i) => node(i))]; [None] for an identity with no node. *)
Fixpoint getAll (st : Store) (ids : list nat) : option (list Node) :=
  match ids with
  | [] => Some []
  | i :: r => match getNode st i, getAll st r with
              | Some n, Some ns => Some (n :: ns)
              | _, _ => None
              end
  end.

(** Lines 237-250 of [$notifyUpdate] on node [x]. *)
Definition recomputeAt (x : nat) (st : Store) : option Store :=
  match getNode st x with
  | None => None
  | Some n =>
    match getAll st (children n) with
    | None => None
    | Some kids =>
      let c := recomputeStatus (core n) (map core kids) in
      Some (updNode x (setCore (fun _ => c)) st)
    end
  end.

(** The two sinks of [$startRunning]: [status: 'running'], [type: 'none'],
    no exit code, no process identity, no children, not ignored. *)
Definition sinkNode (nm : string) (y : nat) : Node :=
  mkNode (mkSNode nm none running ECUndefined false false false) [] (Some y).

(** [node.status = 'running'] *)
Definition setRunning (y : nat) (st : Store) : Store :=
  updNode y (setCore (set_status running)) st.

(** The rest of [$startRunning] on a node with a process identity, up to
    its notify pass: the sinks [<out>] and [<err>] are created with the
    node as parent and put in front of its children, and the process
    handle is stored. *)
Definition attachSinks (y : nat) (st : Store) : Store :=
  let o := List.length (nodes st) in
  updNode y (fun m => mkNode (set_raw true (core m)) (o :: S o :: children m) (parent m))
    (addNode (sinkNode "<err>" y) (addNode (sinkNode "<out>" y) st)).

(** [node.$notifyUpdate()], [$checkSerial(node)], its [for] loop from
    index [i], and [$startRunning(node)]. They call each other, so each
    takes a [fuel] bound on the depth of calls; [None] is an exhausted
    bound or a node missing from the store. The log merge, the eviction
    and the listeners of [$notifyUpdate] are left out (see [Node]); the
    parent's pass runs after [$checkSerial] as in the source. *)
Fixpoint notify (fuel : nat) (x : nat) (st : Store) {struct fuel} : option Store :=
  match fuel with
  | O => None
  | S f =>
    match recomputeAt x st with
    | None => None
    | Some st1 =>
      match checkSerial f x st1 with
      | None => None
      | Some st2 =>
        match getNode st2 x with
        | None => None
        | Some n => match parent n with
                    | Some p => notify f p st2
                    | None => Some st2
                    end
        end
      end
    end
  end
with checkSerial (fuel : nat) (x : nat) (st : Store) {struct fuel} : option Store :=
  match fuel with
  | O => None
  | S f =>
    match getNode st x with
    | None => None
    | Some n =>
      if ProcStatus_eqb (status (core n)) running && isSerial (type (core n))
         && Nat.ltb 0 (List.length (children n)) then
        match children n with
        | [] => Some st
        | c0 :: _ =>
          match getNode st c0 with
          | None => None
          | Some n0 =>
            if ProcStatus_eqb (status (core n0)) waiting
            then startRunning f c0 (recordStart x 0 st)
            else serialLoop f 0 x st
          end
        end
      else Some st
    end
  end
with serialLoop (fuel : nat) (i x : nat) (st : Store) {struct fuel} : option Store :=
  match fuel with
  | O => None
  | S f =>
    match getNode st x with
    | None => None
    | Some n =>
      if Nat.ltb (i + 1) (List.length (children n)) then
        match nth_error (children n) i, nth_error (children n) (i + 1) with
        | Some a, Some b =>
          match getNode st a, getNode st b with
          | Some na, Some nb =>
            if ProcStatus_eqb (status (core na)) finished
               && ProcStatus_eqb (status (core nb)) waiting
            then match startRunning f b (recordStart x (i + 1) st) with
                 | Some st1 => serialLoop f (S i) x st1
                 | None => None
                 end
            else serialLoop f (S i) x st
          | _, _ => None
          end
        | _, _ => None
        end
      else Some st
    end
  end
with startRunning (fuel : nat) (y : nat) (st : Store) {struct fuel} : option Store :=
  match fuel with
  | O => None
  | S f =>
    match getNode st y with
    | None => None
    | Some n =>
      let st1 := setRunning y st in
      if procOwn (core n) then notify f y (attachSinks y st1)
      else checkSerial f y st1
    end
  end.

(** [killNode(node)], with [None] for a [null] or [undefined] node; the
    result is [None] when it throws (fewer than two children).
    The kill message goes to a log, which is left out. *)
Definition killNode (fuel : nat) (v : option nat) (st : Store) : option Store :=
  match v with
  | None => Some st
  | Some x =>
    match getNode st x with
    | None => None
    | Some n =>
      if procOwn (core n) && raw (core n) && ProcStatus_eqb (status (core n)) running then
        let st1 := updNode x (setCore (fun c => set_status killed (set_raw false c))) st in
        match children n with
        | c0 :: c1 :: _ =>
          notify fuel x (updNode c1 (setCore (set_status killed))
                           (updNode c0 (setCore (set_status killed)) st1))
        | _ => None
        end
      else Some st
    end
  end.

(** The [exit] callback registered by [$startRunning(node)], with the
    node's sinks [o] ([nodeStdout]) and [e] ([nodeStderr]). *)
Definition exitCallback (fuel : nat) (code : ExitCode) (o e : nat) (st : Store) : option Store :=
  let st1 := updNode e (setCore (set_exitCode code))
               (updNode o (setCore (set_exitCode code))
                  (updNode e (setCore Kill.promote) (updNode o (setCore Kill.promote) st))) in
  match notify fuel o st1 with
  | None => None
  | Some st2 => notify fuel e st2
  end.

(** [CreateNodeParams] without the token. *)
Record NodeParams := mkParams {
  pname : string; ptype : ProcNodeType; pstatus : ProcStatus;
  pexitCode : ExitCode; pprocOwn : bool }.

(** [findNodeByToken(token)]: the root (identity 0) for [undefined]. *)
Definition findNodeByToken (st : Store) (token : option nat) : option nat :=
  match token with
  | None => Some 0
  | Some k => if Nat.ltb k (List.length (nodes st)) then Some k else None
  end.

(** [createNode({ parentToken, ...params })]: the store and the new
    node ([None] for [null]). *)
Definition createNode (fuel : nat) (parentToken : option nat) (ps : NodeParams) (st : Store)
  : option (Store * option nat) :=
  match findNodeByToken st parentToken with
  | None => Some (st, None)
  | Some p =>
    let x := List.length (nodes st) in
    let st1 := addNode (mkNode (mkSNode (pname ps) (ptype ps) (pstatus ps) (pexitCode ps)
                                        (pprocOwn ps) false false) [] (Some p)) st in
    let st2 := updNode p (fun m => mkNode (core m) (children m ++ [x]) (parent m)) st1 in
    if pprocOwn ps && ProcStatus_eqb (pstatus ps) running then
      match startRunning fuel x st2 with
      | Some st3 => Some (st3, Some x)
      | None => None
      end
    else Some (st2, Some x)
  end.

(** [restartNode(node)], with [None] for a [null] or [undefined] node;
    the result is [None] when it throws (fewer than two
    children). The restart message goes to a log, which is left out. *)
Definition restartNode (fuel : nat) (v : option nat) (st : Store) : option Store :=
  match v with
  | None => Some st
  | Some x =>
    match getNode st x with
    | None => None
    | Some n =>
      if procOwn (core n)
         && (ProcStatus_eqb (status (core n)) finished || ProcStatus_eqb (status (core n)) killed)
      then
        match children n with
        | c0 :: c1 :: _ =>
          startRunning fuel x (updNode c1 (setCore (set_ignored true))
                                 (updNode c0 (setCore (set_ignored true)) st))
        | _ => None
        end
      else Some st
    end
  end.

End Tree.

(* ================================================================== *)
(** * Facts *)

(* ================================================================== *)

Module ProcFacts.
Import Proc.

Lemma jsMax_cons_aux xs m :
  fold_left (fun acc x => match acc with
                          | None => Some x
                          | Some m => Some (Z.max m x)
                          end) xs (Some m) = Some (fold_left Z.max xs m).
Proof. revert m; induction xs as [|x xs IH]; intro m; simpl; auto. Qed.

Lemma jsMax_cons x xs : jsMax (x :: xs) = Some (fold_left Z.max xs x).
Proof. unfold jsMax; simpl; apply jsMax_cons_aux. Qed.

Lemma fold_max01 xs m :
  (m = 0 \/ m = 1)%Z -> Forall (fun x => x = 0 \/ x = 1)%Z xs ->
  Z.eqb (fold_left Z.max xs m) 0 = Z.eqb m 0 && forallb (fun x => Z.eqb x 0) xs.
Proof.
  revert m; induction xs as [|x xs IH]; intros m Hm Hxs; simpl.
  - now rewrite andb_true_r.
  - inversion Hxs as [|? ? Hx Hxs']; subst.
    rewrite IH by (auto; lia).
    destruct Hm, Hx; subst; reflexivity.
Qed.

Lemma allIs_forallb t sts :
  sts <> [] -> allIs t sts = forallb (fun s => ProcStatus_eqb s t) sts.
Proof.
  intro Hne; destruct sts as [|s sts]; [congruence|].
  unfold allIs; simpl map; rewrite jsMax_cons.
  rewrite fold_max01.
  - simpl. f_equal.
    + now destruct (ProcStatus_eqb s t).
    + induction sts as [|s' sts IH]; simpl; auto.
      rewrite IH; now destruct (ProcStatus_eqb s' t).
  - destruct (ProcStatus_eqb s t); auto.
  - rewrite Forall_forall; intros x Hx.
    apply in_map_iff in Hx as [s' [<- _]].
    destruct (ProcStatus_eqb s' t); auto.
Qed.

(** C1 *)
(** Claim C1: when a node has at least one non-ignored child, the notify
    pass sets its status by the precedence killed (with process-identity)
    / finished / waiting / running over the non-ignored children's
    statuses; with no non-ignored child the node is left unchanged. *)
Theorem recomputeStatus_precedence (node : SNode) (children : list SNode) :
  let chs := filter (fun c => negb (ignored c)) children in
  (chs = [] -> recomputeStatus node children = node) /\
  (chs <> [] ->
   status (recomputeStatus node children) = spec_status (procOwn node) (map status chs)).
Proof.
  cbv zeta; unfold recomputeStatus.
  destruct (filter (fun c => negb (ignored c)) children) as [|c cs] eqn:E.
  - split; [reflexivity | congruence].
  - split; [discriminate|intros _].
    simpl status.
    rewrite !allIs_forallb by discriminate.
    reflexivity.
Qed.

Lemma fold_orExit es acc :
  es <> [] ->
  fold_left orExit es acc = if truthyExit acc then acc else firstTruthyOrLast es.
Proof.
  revert acc; induction es as [|e es IH]; intros acc Hne; [congruence|].
  simpl fold_left.
  destruct es as [|e' es].
  - simpl. reflexivity.
  - rewrite IH by discriminate.
    unfold orExit at 1 2.
    destruct (truthyExit acc) eqn:Ha; [now rewrite Ha|].
    simpl firstTruthyOrLast. reflexivity.
Qed.

Lemma fold_orExit_map (chs : list SNode) :
  chs <> [] ->
  fold_left (fun accum n => orExit accum (exitCode n)) chs ECNull
  = firstTruthyOrLast (map exitCode chs).
Proof.
  intro Hne.
  assert (Hm : forall acc, fold_left (fun accum n => orExit accum (exitCode n)) chs acc
                          = fold_left orExit (map exitCode chs) acc).
  { clear Hne; induction chs as [|c chs IH]; intro acc; simpl; auto. }
  rewrite Hm, fold_orExit; [reflexivity|].
  destruct chs; simpl; congruence.
Qed.

(** Counterexample to C2: children with exit codes [0] then [1]. *)
Definition exNode : SNode := mkSNode "group" parallel running ECUndefined false false false.
Definition exLeaf (e : ExitCode) : SNode := mkSNode "task" none finished e false false false.

(** C2 (counterexample) *)
Lemma exitCode_zero_not_selected :
  exitCode (recomputeStatus exNode [exLeaf (ECNum 0); exLeaf (ECNum 1)]) = ECNum 1 /\
  spec_firstDefinedExit [ECNum 0; ECNum 1] = ECNum 0.
Proof. split; reflexivity. Qed.

(** C2 (amended) *)
(** Claim C2, amended: with at least one non-ignored child, the notify
    pass sets the exit code to the first non-ignored child exit code that
    is a non-zero number, scanning left to right, and to the last
    non-ignored child's exit code when there is none; with no non-ignored
    child the exit code is left unchanged. *)
Theorem recomputeStatus_exitCode (node : SNode) (children : list SNode) :
  let chs := filter (fun c => negb (ignored c)) children in
  exitCode (recomputeStatus node children)
  = match chs with
    | [] => exitCode node
    | _ :: _ => firstTruthyOrLast (map exitCode chs)
    end.
Proof.
  cbv zeta; unfold recomputeStatus.
  destruct (filter (fun c => negb (ignored c)) children) as [|c cs] eqn:E.
  - reflexivity.
  - unfold set_exitCode; cbn [exitCode].
    apply (fold_orExit_map (c :: cs)). discriminate.
Qed.

(** *** Serial scheduling *)

Lemma length_set_nth {A} i (f : A -> A) l : List.length (set_nth i f l) = List.length l.
Proof. revert i; induction l as [|x l IH]; intros [|i]; simpl; auto. Qed.

Lemma nth_error_set_nth {A} i j (f : A -> A) l :
  nth_error (set_nth i f l) j
  = if Nat.eqb i j then option_map f (nth_error l j) else nth_error l j.
Proof.
  revert i j; induction l as [|x l IH]; intros [|i] [|j]; simpl; auto;
    destruct (Nat.eqb _ _); reflexivity.
Qed.

End ProcFacts.

Module LogFacts.
Import Log.

(** *** Eviction *)

Lemma length_lastn {A} k (l : list A) :
  k <= List.length l -> List.length (lastn k l) = k.
Proof. intro H; unfold lastn; rewrite length_skipn; lia. Qed.

Lemma evictHistory_lines color hk hc acc om :
  lines (fst (evictHistory color hk hc acc om)) = evictLines color hk hc (lines acc).
Proof. unfold evictHistory, evictLines; cbv zeta; destruct (Z.ltb _ _); reflexivity. Qed.

Lemma evictHistory_other color hk hc acc om :
  lineCount (fst (evictHistory color hk hc acc om)) = lineCount acc /\
  lastLineToTitle (fst (evictHistory color hk hc acc om)) = lastLineToTitle acc.
Proof. unfold evictHistory; cbv zeta; destruct (Z.ltb _ _); split; reflexivity. Qed.

Lemma evict_window color hk hc (ls : list LogLine) :
  let headSize := Z.to_nat (Z.max 0 hk) in
  let tailSize := Z.to_nat (Z.max 1 (hc + 1)) in
  let ls' := if Z.ltb (Z.max 0 hk + Z.max 1 (hc + 1)) (Z.of_nat (List.length ls)) then
               firstn headSize ls ++ markerLine color :: lastn tailSize (skipn headSize ls)
             else ls in
  List.length ls' <= headSize + tailSize + 1 /\
  (List.length ls' = headSize + tailSize + 1 -> nth_error ls' headSize = Some (markerLine color)).
Proof.
  cbv zeta.
  destruct (Z.ltb (Z.max 0 hk + Z.max 1 (hc + 1)) (Z.of_nat (List.length ls))) eqn:Hlt.
  - apply Z.ltb_lt in Hlt.
    assert (Hh : List.length (firstn (Z.to_nat (Z.max 0 hk)) ls) = Z.to_nat (Z.max 0 hk))
      by (rewrite length_firstn; lia).
    assert (Ht : List.length (lastn (Z.to_nat (Z.max 1 (hc + 1)))
                                    (skipn (Z.to_nat (Z.max 0 hk)) ls))
                 = Z.to_nat (Z.max 1 (hc + 1)))
      by (apply length_lastn; rewrite length_skipn; lia).
    rewrite length_app; cbn [List.length]; rewrite Hh, Ht.
    split; [lia|intros _].
    rewrite nth_error_app2 by lia. rewrite Hh, Nat.sub_diag. reflexivity.
  - apply Z.ltb_ge in Hlt. split; lia.
Qed.

(** C4 *)
(** Claim C4: after a notify pass on a node, whatever its lines were
    before, it holds at most headSize + tailSize + 1 lines, and when it
    holds exactly that many the extra line, at position headSize, is the
    synthetic marker line (id -1). *)
Theorem notifyLog_window color hk hc (node : LNode) (children : list LNode) :
  let headSize := Z.to_nat (Z.max 0 hk) in
  let tailSize := Z.to_nat (Z.max 1 (hc + 1)) in
  let ls := lines (logAcc (notifyLog color hk hc node children)) in
  List.length ls <= headSize + tailSize + 1 /\
  (List.length ls = headSize + tailSize + 1 ->
   nth_error ls headSize = Some (markerLine color) /\ id (main (markerLine color)) = (-1)%Z).
Proof.
  cbv zeta. unfold notifyLog.
  match goal with |- context [evictHistory color hk hc ?a ?o] =>
    pose proof (evictHistory_lines color hk hc a o) as E;
    destruct (evictHistory color hk hc a o) as [acc2 om] eqn:Ev end.
  cbn [logAcc]. simpl fst in E. rewrite E. unfold evictLines.
  pose proof (evict_window color hk hc (lines (match filter (fun c => negb (lignored c)) children with
        | [] => logAcc node
        | _ :: _ => mergeLines (logAcc node) (filter (fun c => negb (lignored c)) children)
        end))) as W.
  cbv zeta in W. destruct W as [W1 W2].
  split; [exact W1|]. intro Heq; split; [now apply W2|reflexivity].
Qed.

(** *** Titles of one merge pass are pairwise distinct *)

Lemma list_ascii_of_string_app s1 s2 :
  list_ascii_of_string (s1 ++ s2) = list_ascii_of_string s1 ++ list_ascii_of_string s2.
Proof. induction s1 as [|a s1 IH]; simpl; f_equal; auto. Qed.

Lemma list_ascii_of_string_inj s1 s2 :
  list_ascii_of_string s1 = list_ascii_of_string s2 -> s1 = s2.
Proof.
  intro H. rewrite <- (string_of_list_ascii_of_string s1), <- (string_of_list_ascii_of_string s2), H.
  reflexivity.
Qed.

Lemma uintToString_inj u1 : forall u2, uintToString u1 = uintToString u2 -> u1 = u2.
Proof.
  induction u1; intros [] H; simpl in H; try discriminate; try reflexivity;
    injection H as H; f_equal; auto.
Qed.

Lemma natToString_inj n1 n2 : natToString n1 = natToString n2 -> n1 = n2.
Proof.
  unfold natToString; intro H. apply uintToString_inj in H.
  rewrite <- (DecimalNat.Unsigned.of_to n1), <- (DecimalNat.Unsigned.of_to n2), H.
  reflexivity.
Qed.

Lemma titleCandidate_inj name k1 k2 :
  titleCandidate name k1 = titleCandidate name k2 -> k1 = k2.
Proof.
  intro H; apply (f_equal list_ascii_of_string) in H.
  destruct k1 as [|k1], k2 as [|k2]; simpl titleCandidate in H; auto;
    rewrite ?list_ascii_of_string_app in H.
  - apply (f_equal (@List.length ascii)) in H. rewrite length_app in H. simpl in H. lia.
  - apply (f_equal (@List.length ascii)) in H. rewrite length_app in H. simpl in H. lia.
  - apply app_inv_head in H. simpl in H. injection H as H.
    rewrite !list_ascii_of_string_app in H.
    apply app_inv_tail in H. apply list_ascii_of_string_inj, natToString_inj in H.
    exact H.
Qed.

Lemma existsb_string_In t (known : list string) :
  existsb (String.eqb t) known = true <-> In t known.
Proof.
  rewrite existsb_exists; split.
  - intros [x [Hx E]]; apply String.eqb_eq in E; now subst.
  - intro H; exists t; split; auto; apply String.eqb_refl.
Qed.

Lemma freshTitleFrom_in known name fuel : forall cnt,
  In (freshTitleFrom known name cnt fuel) known ->
  incl (map (titleCandidate name) (seq cnt (S fuel))) known.
Proof.
  induction fuel as [|fuel IH]; intros cnt H; simpl in H.
  - intros t [<-|[]]; exact H.
  - destruct (existsb (String.eqb (titleCandidate name cnt)) known) eqn:E.
    + apply IH in H. apply existsb_string_In in E.
      intros t Ht. destruct Ht as [<-|Ht]; [exact E|]. apply H. exact Ht.
    + apply existsb_string_In in H. congruence.
Qed.

Lemma NoDup_titleCandidates name n : forall cnt,
  NoDup (map (titleCandidate name) (seq cnt n)).
Proof.
  induction n as [|n IH]; intro cnt; simpl; constructor; auto.
  intro Hin. apply in_map_iff in Hin as [k [Hk Hin]].
  apply titleCandidate_inj in Hk. apply in_seq in Hin. lia.
Qed.

Lemma freshTitle_new known name : ~ In (freshTitle known name) known.
Proof.
  unfold freshTitle. intro H.
  apply freshTitleFrom_in in H.
  apply NoDup_incl_length in H; [|apply NoDup_titleCandidates].
  rewrite length_map, length_seq in H. lia.
Qed.

Lemma titlesFrom_fresh chs : forall known t,
  In t (titlesFrom known chs) -> ~ In t known.
Proof.
  induction chs as [|c r IH]; intros known t H; simpl in H; [contradiction|].
  destruct H as [<-|H]; [apply freshTitle_new|].
  apply IH in H. intro H'; apply H; right; exact H'.
Qed.

Lemma titlesFrom_names chs chs' :
  Forall2 (fun a b => lname a = lname b) chs chs' ->
  forall known, titlesFrom known chs = titlesFrom known chs'.
Proof.
  induction 1 as [|a b r r' Hab _ IH]; intro known; simpl; auto.
  rewrite Hab, IH; reflexivity.
Qed.

(** *** One merge pass *)

Lemma lookup_setTitle_eq k v m : lookupTitle k (setTitle k v m) = Some v.
Proof.
  induction m as [|[k' v'] m IH]; simpl.
  - now rewrite String.eqb_refl.
  - destruct (String.eqb k k') eqn:E; simpl; rewrite ?String.eqb_refl, ?E; auto.
Qed.

Lemma lookup_setTitle_neq k k0 v m :
  k0 <> k -> lookupTitle k0 (setTitle k v m) = lookupTitle k0 m.
Proof.
  intro Hne; induction m as [|[k' v'] m IH]; simpl.
  - destruct (String.eqb k0 k) eqn:E; auto. apply String.eqb_eq in E; congruence.
  - destruct (String.eqb k k') eqn:E; simpl.
    + apply String.eqb_eq in E; subst k'.
      destruct (String.eqb k0 k) eqn:E'; auto. apply String.eqb_eq in E'; congruence.
    + destruct (String.eqb k0 k'); auto.
Qed.

Lemma Forall2_impl_in {A B} (P Q : A -> B -> Prop) l1 l2 :
  (forall a b, In b l2 -> P a b -> Q a b) -> Forall2 P l1 l2 -> Forall2 Q l1 l2.
Proof.
  intros H HF; induction HF; constructor.
  - apply H; [left; reflexivity|assumption].
  - apply IHHF; intros a b Hb; apply H; right; exact Hb.
Qed.

Lemma realLen_le ls : realLen ls <= List.length ls.
Proof. unfold realLen; destruct (rev ls) as [|l _]; [lia|]; destruct (timestamp (main l)); lia. Qed.

Lemma realLen_snoc ys z :
  realLen (ys ++ [z]) = match timestamp (main z) with
                        | Some _ => S (List.length ys)
                        | None => List.length ys
                        end.
Proof.
  unfold realLen; rewrite rev_unit, length_app; simpl.
  destruct (timestamp (main z)); lia.
Qed.

Lemma realLen_nth ls :
  0 < realLen ls -> exists x, nth_error ls (realLen ls - 1) = Some x.
Proof.
  intro H. pose proof (realLen_le ls).
  destruct (nth_error ls (realLen ls - 1)) as [x|] eqn:E; [now exists x|].
  apply nth_error_None in E; lia.
Qed.

Lemma fold_lines chs : forall known acc added,
  lines (snd (fst (fold_left mergeChild chs (known, acc, added)))) = lines acc.
Proof.
  induction chs as [|c r IH]; intros known acc added; cbn [fold_left]; [reflexivity|].
  cbv beta iota zeta delta [mergeChild].
  destruct (Nat.ltb 0 _); [destruct (nth_error (lines (logAcc c)) _)|]; rewrite IH; reflexivity.
Qed.

Lemma fold_lookup_other chs : forall known acc added t,
  ~ In t (titlesFrom known chs) ->
  lookupTitle t (lastLineToTitle (snd (fst (fold_left mergeChild chs (known, acc, added)))))
  = lookupTitle t (lastLineToTitle acc).
Proof.
  induction chs as [|c r IH]; intros known acc added t Hn; cbn [fold_left]; [reflexivity|].
  simpl titlesFrom in Hn.
  cbv beta iota zeta delta [mergeChild].
  destruct (Nat.ltb 0 _); [destruct (nth_error (lines (logAcc c)) _)|];
    rewrite IH by (intro H; apply Hn; right; exact H); cbn [lastLineToTitle set_lineCount
      set_lastLineToTitle]; try reflexivity.
  apply lookup_setTitle_neq. intro H; apply Hn; left; now symmetry.
Qed.

Lemma mergeChild_known known acc added c :
  fst (fst (mergeChild (known, acc, added) c)) = freshTitle known (lname c) :: known.
Proof.
  cbv beta iota zeta delta [mergeChild].
  destruct (Nat.ltb 0 _); [destruct (nth_error (lines (logAcc c)) _)|]; reflexivity.
Qed.

Lemma fold_pass1 chs : forall known acc added,
  let M := lastLineToTitle (snd (fst (fold_left mergeChild chs (known, acc, added)))) in
  Forall2 (fun c t => 0 < realLen (lines (logAcc c)) ->
                      lookupTitle t M
                      = nth_error (lines (logAcc c)) (realLen (lines (logAcc c)) - 1))
          chs (titlesFrom known chs).
Proof.
  induction chs as [|c r IH]; intros known acc added; cbv zeta; [constructor|].
  simpl titlesFrom. cbn [fold_left]. constructor.
  - intro Hpos.
    cbv beta iota zeta delta [mergeChild].
    rewrite (proj2 (Nat.ltb_lt _ _) Hpos).
    destruct (realLen_nth _ Hpos) as [x Hx]. rewrite Hx.
    rewrite fold_lookup_other
      by (intro H; apply titlesFrom_fresh in H; apply H; left; reflexivity).
    cbn [lastLineToTitle set_lastLineToTitle]. apply lookup_setTitle_eq.
  - rewrite (surjective_pairing (mergeChild (known, acc, added) c)),
      (surjective_pairing (fst (mergeChild (known, acc, added) c))), mergeChild_known.
    apply IH.
Qed.

Lemma fold_pass2 chs : forall known acc added,
  Forall2 (fun c t => 0 < realLen (lines (logAcc c)) ->
                      exists l x, lookupTitle t (lastLineToTitle acc) = Some l /\
                        nth_error (lines (logAcc c)) (realLen (lines (logAcc c)) - 1) = Some x /\
                        (id (main x) = (-1)%Z \/ id (main x) = id (main l)))
          chs (titlesFrom known chs) ->
  snd (fold_left mergeChild chs (known, acc, added)) = added.
Proof.
  induction chs as [|c r IH]; intros known acc added HF; cbn [fold_left]; [reflexivity|].
  simpl titlesFrom in HF. inversion HF as [|? ? ? ? Hc Hr]; subst.
  cbv beta iota zeta delta [mergeChild].
  destruct (Nat.ltb 0 (realLen (lines (logAcc c)))) eqn:Hpos.
  - apply Nat.ltb_lt in Hpos.
    destruct (Hc Hpos) as [l [x [Hl [Hx Hid]]]].
    cbn [lastLineToTitle set_lineCount]. rewrite Hl, Hx.
    destruct (realLen (lines (logAcc c))) as [|f] eqn:Erl; [lia|].
    cbn [scanBack]. replace (S f - 1) with f in Hx by lia. rewrite Hx.
    replace ((id (main x) =? -1)%Z || (id (main x) =? id (main l))%Z) with true
      by (destruct Hid as [E|E]; rewrite E; [now rewrite Z.eqb_refl
                                            | now rewrite Z.eqb_refl, orb_true_r]).
    rewrite Nat.sub_diag. cbn [firstn map]. rewrite app_nil_r.
    apply IH.
    eapply Forall2_impl_in; [|exact Hr].
    intros a b Hb P Ha. destruct (P Ha) as [l' [x' [H1 H2]]].
    exists l', x'; split; [|exact H2].
    cbn [lastLineToTitle set_lastLineToTitle set_lineCount].
    rewrite lookup_setTitle_neq; [exact H1|].
    intro E; subst b. apply titlesFrom_fresh in Hb. apply Hb. left; reflexivity.
  - apply IH.
    eapply Forall2_impl_in; [|exact Hr].
    intros a b Hb P Ha. exact (P Ha).
Qed.

(** *** Eviction is idempotent and keeps the last committed line or
    leaves the marker in its place *)

Lemma nth_error_snoc {A} (ys : list A) w : nth_error (ys ++ [w]) (List.length ys) = Some w.
Proof. rewrite nth_error_app2, Nat.sub_diag by lia. reflexivity. Qed.

Lemma nth_error_last_app {A} (l r : list A) w :
  nth_error ((l ++ [w]) ++ r) (List.length (l ++ [w]) - 1) = Some w.
Proof.
  rewrite nth_error_app1 by (rewrite length_app; simpl; lia).
  rewrite length_app; simpl. rewrite Nat.add_sub. apply nth_error_snoc.
Qed.

Lemma evictLines_idem color hk hc ls :
  evictLines color hk hc (evictLines color hk hc ls) = evictLines color hk hc ls.
Proof.
  unfold evictLines; cbv zeta.
  set (H := Z.max 0 hk). set (T := Z.max 1 (hc + 1)%Z).
  destruct (Z.ltb (H + T) (Z.of_nat (List.length ls))) eqn:E1; [|rewrite E1; reflexivity].
  apply Z.ltb_lt in E1.
  assert (HH : List.length (firstn (Z.to_nat H) ls) = Z.to_nat H)
    by (rewrite length_firstn; lia).
  assert (HT : List.length (lastn (Z.to_nat T) (skipn (Z.to_nat H) ls)) = Z.to_nat T)
    by (apply length_lastn; rewrite length_skipn; lia).
  set (A := firstn (Z.to_nat H) ls) in *.
  set (Y := lastn (Z.to_nat T) (skipn (Z.to_nat H) ls)) in *.
  replace (Z.ltb (H + T) (Z.of_nat (List.length (A ++ markerLine color :: Y)))) with true
    by (symmetry; apply Z.ltb_lt; rewrite length_app; simpl; lia).
  rewrite firstn_app, HH, Nat.sub_diag, firstn_0, app_nil_r, firstn_all2 by lia.
  rewrite skipn_app, HH, Nat.sub_diag, skipn_0, skipn_all2 by lia.
  cbn [app]. unfold lastn. cbn [List.length]. rewrite HT.
  replace (S (Z.to_nat T) - Z.to_nat T) with 1 by lia. reflexivity.
Qed.

Lemma evictHistory_idem color hk hc acc om acc' :
  lines acc' = lines (fst (evictHistory color hk hc acc om)) ->
  lines (fst (evictHistory color hk hc acc' (snd (evictHistory color hk hc acc om))))
    = lines acc' /\
  snd (evictHistory color hk hc acc' (snd (evictHistory color hk hc acc om)))
    = snd (evictHistory color hk hc acc om).
Proof.
  intro Hl. split.
  - rewrite evictHistory_lines, Hl, evictHistory_lines. apply evictLines_idem.
  - rewrite evictHistory_lines in Hl.
    unfold evictHistory; cbv zeta.
    destruct (Z.ltb _ (Z.of_nat (List.length (lines acc)))) eqn:E1; cbn [snd].
    + destruct (Z.ltb _ (Z.of_nat (List.length (lines acc')))); reflexivity.
    + assert (Hs : lines acc' = lines acc)
        by (rewrite Hl; unfold evictLines; cbv zeta; rewrite E1; reflexivity).
      rewrite Hs, E1. reflexivity.
Qed.

Lemma evict_settled color hk hc (ls ls' : list LogLine) :
  ls' = ls \/ ls' = evictLines color hk hc ls ->
  0 < realLen ls' ->
  0 < realLen ls /\
  forall x, nth_error ls (realLen ls - 1) = Some x ->
  exists y, nth_error ls' (realLen ls' - 1) = Some y /\
            (id (main y) = (-1)%Z \/ id (main y) = id (main x)).
Proof.
  intros [E|E] Hpos; subst ls'.
  { split; [exact Hpos|]. intros x Hx; exists x; auto. }
  unfold evictLines in *; cbv zeta in *.
  set (H := Z.max 0 hk) in *. set (T := Z.max 1 (hc + 1)%Z) in *.
  destruct (Z.ltb (H + T) (Z.of_nat (List.length ls))) eqn:E1.
  2:{ split; [exact Hpos|]. intros x Hx; exists x; auto. }
  apply Z.ltb_lt in E1.
  set (h := Z.to_nat H) in *. set (t := Z.to_nat T) in *.
  assert (Ht1 : 1 <= t) by (unfold t, T; lia).
  assert (Hht : h + t < List.length ls) by (unfold h, t, H, T in *; lia).
  set (X := skipn h ls) in *.
  assert (HX : List.length X = List.length ls - h) by (unfold X; apply length_skipn).
  assert (HB : List.length (lastn t X) = t) by (apply length_lastn; lia).
  assert (Hsplit : ls = (firstn h ls ++ firstn (List.length X - t) X) ++ lastn t X).
  { rewrite <- app_assoc. unfold lastn. rewrite firstn_skipn. unfold X.
    symmetry; apply firstn_skipn. }
  assert (HA : 1 <= List.length (firstn (List.length X - t) X))
    by (rewrite length_firstn; lia).
  destruct (lastn t X) as [|b0 bs] eqn:EB; [simpl in HB; lia|].
  destruct (exists_last (l := b0 :: bs) ltac:(discriminate)) as [B0 [z EB0]].
  rewrite EB0 in Hsplit |- *.
  set (A := firstn h ls ++ firstn (List.length X - t) X) in *.
  set (F := firstn h ls) in *.
  assert (Hl : ls = (A ++ B0) ++ [z]) by (rewrite <- app_assoc; exact Hsplit).
  assert (Hl' : F ++ markerLine color :: B0 ++ [z] = (F ++ markerLine color :: B0) ++ [z])
    by (rewrite <- app_assoc; reflexivity).
  rewrite Hl'. clear Hl' Hpos. rewrite Hl. clear Hsplit.
  rewrite !realLen_snoc.
  destruct (timestamp (main z)) eqn:Ez.
  - split; [lia|]. intros x Hx.
    replace (S (List.length (A ++ B0)) - 1) with (List.length (A ++ B0)) in Hx by lia.
    rewrite nth_error_snoc in Hx. injection Hx as <-.
    exists z. split; [|right; reflexivity].
    replace (S (List.length (F ++ markerLine color :: B0)) - 1)
      with (List.length (F ++ markerLine color :: B0)) by lia.
    apply nth_error_snoc.
  - assert (HAl : 1 <= List.length A) by (unfold A; rewrite length_app; lia).
    split; [rewrite length_app; lia|].
    destruct B0 as [|b B1] using rev_ind; intros x Hx.
    + exists (markerLine color). split; [|left; reflexivity].
      apply nth_error_last_app.
    + rewrite app_assoc, nth_error_last_app in Hx. injection Hx as <-.
      exists b. split; [|right; reflexivity].
      rewrite app_comm_cons, app_assoc. apply nth_error_last_app.
Qed.

(** *** A second pass adds nothing *)

Lemma evictChild_fields color hk hc c :
  lname (evictChild color hk hc c) = lname c /\
  lignored (evictChild color hk hc c) = lignored c /\
  lines (logAcc (evictChild color hk hc c)) = evictLines color hk hc (lines (logAcc c)).
Proof.
  unfold evictChild.
  rewrite (surjective_pairing (evictHistory color hk hc (logAcc c) (logOmitted c))).
  cbn [lname lignored logAcc]. split; [reflexivity|split; [reflexivity|]].
  apply evictHistory_lines.
Qed.

Lemma settledChild_fields color hk hc c c' :
  settledChild color hk hc c c' ->
  lname c' = lname c /\ lignored c' = lignored c /\
  (lines (logAcc c') = lines (logAcc c) \/
   lines (logAcc c') = evictLines color hk hc (lines (logAcc c))).
Proof.
  intros [E|E]; subst c'; [auto|].
  destruct (evictChild_fields color hk hc c) as [H1 [H2 H3]]; auto.
Qed.

Lemma filter_settled color hk hc children children' :
  Forall2 (settledChild color hk hc) children children' ->
  Forall2 (settledChild color hk hc)
    (filter (fun c => negb (lignored c)) children)
    (filter (fun c => negb (lignored c)) children').
Proof.
  induction 1 as [|a b r r' Hab _ IH]; simpl; [constructor|].
  destruct (settledChild_fields _ _ _ _ _ Hab) as [_ [Hi _]].
  rewrite Hi. destruct (negb (lignored a)); [constructor|]; assumption.
Qed.

Lemma pass_link color hk hc M chs chs' :
  Forall2 (settledChild color hk hc) chs chs' ->
  forall ts,
  Forall2 (fun c t => 0 < realLen (lines (logAcc c)) ->
                      lookupTitle t M
                      = nth_error (lines (logAcc c)) (realLen (lines (logAcc c)) - 1))
          chs ts ->
  Forall2 (fun c t => 0 < realLen (lines (logAcc c)) ->
                      exists l x, lookupTitle t M = Some l /\
                        nth_error (lines (logAcc c)) (realLen (lines (logAcc c)) - 1) = Some x /\
                        (id (main x) = (-1)%Z \/ id (main x) = id (main l)))
          chs' ts.
Proof.
  induction 1 as [|a b r r' Hab _ IH]; intros ts Hts; inversion Hts as [|? t ? ts' Ht Hr]; subst;
    constructor; [|apply IH; exact Hr].
  intro Hpos.
  destruct (settledChild_fields _ _ _ _ _ Hab) as [_ [_ Hl]].
  destruct (evict_settled color hk hc _ _ Hl Hpos) as [Hpos0 Hlast].
  destruct (realLen_nth _ Hpos0) as [x Hx].
  destruct (Hlast x Hx) as [y [Hy Hid]].
  exists x, y. rewrite (Ht Hpos0). auto.
Qed.

Lemma mergeLines_eq acc chs :
  mergeLines acc chs =
  let F := fold_left mergeChild chs (objectProtoNames, set_lineCount 0%Z acc, []) in
  set_lines (lines (snd (fst F)) ++ sortByTs (snd F)) (snd (fst F)).
Proof.
  unfold mergeLines; cbv zeta.
  destruct (fold_left mergeChild chs (objectProtoNames, set_lineCount 0%Z acc, [])) as [[k a] b].
  reflexivity.
Qed.

Lemma notifyLog_eq color hk hc node children :
  notifyLog color hk hc node children =
  let chs := filter (fun c => negb (lignored c)) children in
  let acc1 := match chs with
              | [] => logAcc node
              | _ :: _ => mergeLines (logAcc node) chs
              end in
  mkLNode (lname node) (lignored node)
    (fst (evictHistory color hk hc acc1 (logOmitted node)))
    (snd (evictHistory color hk hc acc1 (logOmitted node))).
Proof.
  unfold notifyLog; cbv zeta.
  destruct (evictHistory _ _ _ _ _); reflexivity.
Qed.

Lemma rerun_merge color hk hc acc om chs chs' :
  Forall2 (settledChild color hk hc) chs chs' ->
  let acc1 := match chs with [] => acc | _ :: _ => mergeLines acc chs end in
  let acc2 := fst (evictHistory color hk hc acc1 om) in
  lines (match chs' with [] => acc2 | _ :: _ => mergeLines acc2 chs' end) = lines acc2.
Proof.
  intro HF; cbv zeta.
  destruct HF as [|c c' r r' Hc Hr]; [reflexivity|].
  set (acc2 := fst (evictHistory color hk hc (mergeLines acc (c :: r)) om)).
  pose proof (fold_pass1 (c :: r) objectProtoNames (set_lineCount 0%Z acc) []) as H1;
    cbv zeta in H1.
  assert (HM : lastLineToTitle (set_lineCount 0%Z acc2)
               = lastLineToTitle (snd (fst (fold_left mergeChild (c :: r)
                                              (objectProtoNames, set_lineCount 0%Z acc, []))))).
  { cbn [lastLineToTitle set_lineCount]. unfold acc2.
    rewrite (proj2 (evictHistory_other _ _ _ _ _)), mergeLines_eq. reflexivity. }
  assert (HF2 : Forall2 (settledChild color hk hc) (c :: r) (c' :: r'))
    by (constructor; assumption).
  pose proof (pass_link _ _ _ _ _ _ HF2 _ H1) as H2.
  rewrite <- HM in H2.
  rewrite (titlesFrom_names (c :: r) (c' :: r')) in H2.
  2:{ eapply Forall2_impl_in; [|exact HF2].
      intros a b _ Hab. symmetry. apply (settledChild_fields _ _ _ _ _ Hab). }
  rewrite mergeLines_eq; cbv zeta. cbn [lines set_lines].
  rewrite fold_lines, (fold_pass2 _ _ _ _ H2). cbn [sortByTs lines set_lineCount].
  apply app_nil_r.
Qed.

(** C5: re-running the notify pass with nothing new leaves the node's
    visible lines, and its omitted flag, as they are. [node1] is the node
    after one pass over [children]; the second pass sees each child either
    unchanged or after its own eviction step, as a child's pass runs
    before its parent's. The merge finds no line after the last one it
    recorded for each child, and eviction of an evicted sequence is the
    identity, also when the line count equals the window bound. *)
Theorem notifyLog_rerun_idempotent color hk hc node children children' :
  Forall2 (settledChild color hk hc) children children' ->
  let node1 := notifyLog color hk hc node children in
  let node2 := notifyLog color hk hc node1 children' in
  lines (logAcc node2) = lines (logAcc node1) /\ logOmitted node2 = logOmitted node1.
Proof.
  intro HF; cbv zeta.
  pose proof (filter_settled _ _ _ _ _ HF) as HF'.
  rewrite !notifyLog_eq; cbv zeta; cbn [logAcc logOmitted].
  pose proof (rerun_merge color hk hc (logAcc node) (logOmitted node) _ _ HF') as Hl.
  cbv zeta in Hl.
  destruct (evictHistory_idem color hk hc _ (logOmitted node) _ Hl) as [E1 E2].
  rewrite E1, E2. split; [exact Hl|reflexivity].
Qed.

Definition exLine (ts : option Z) (i : Z) (c : string) : LogLine :=
  mkLine EmptyString (mkMain ts false i (map TPrint (bytesOf c))).

Definition exSink (name : string) (ls : list LogLine) : LNode :=
  mkLNode name false (mkAcc (Z.of_nat (List.length ls)) ls []) false.

Definition exChildren : list LNode :=
  [exSink "out" [exLine (Some 1%Z) 1 "a"; exLine (Some 3%Z) 2 "b"; exLine (Some 5%Z) 3 "c";
                 exLine None 4 EmptyString];
   exSink "err" [exLine (Some 2%Z) 1 "x"; exLine (Some 4%Z) 2 "y"]].

Definition exParent : LNode := exSink "job" [].

Lemma notifyLog_rerun_idempotent_witness :
  Forall2 (settledChild false 1 0) exChildren exChildren /\
  (let node1 := notifyLog false 1 0 exParent exChildren in
   let node2 := notifyLog false 1 0 node1 exChildren in
   lines (logAcc node2) = lines (logAcc node1) /\ logOmitted node2 = logOmitted node1).
Proof.
  assert (HF : Forall2 (settledChild false 1 0) exChildren exChildren)
    by (repeat (apply Forall2_cons; [left; reflexivity|]); apply Forall2_nil).
  split; [exact HF|]. exact (notifyLog_rerun_idempotent false 1 0 exParent _ _ HF).
Defined.

End LogFacts.

Module KeymapFacts.
Import Keymap.

(** *** Maps *)

Lemma mget_mset_eq k v m : mget k (mset k v m) = Some v.
Proof.
  induction m as [|[k' v'] m IH]; simpl.
  - now rewrite String.eqb_refl.
  - destruct (String.eqb k k') eqn:E; simpl; rewrite ?String.eqb_refl, ?E; auto.
Qed.

Lemma mget_mset_neq k k0 v m : k0 <> k -> mget k0 (mset k v m) = mget k0 m.
Proof.
  intro Hne; induction m as [|[k' v'] m IH]; simpl.
  - destruct (String.eqb k0 k) eqn:E; auto. apply String.eqb_eq in E; congruence.
  - destruct (String.eqb k k') eqn:E; simpl.
    + apply String.eqb_eq in E; subst k'.
      destruct (String.eqb k0 k) eqn:E'; auto. apply String.eqb_eq in E'; congruence.
    + destruct (String.eqb k0 k'); auto.
Qed.

Lemma boundAt_empty p : boundAt emptyNode p = None.
Proof. destruct p; reflexivity. Qed.

(** *** One insertion *)

Lemma insertSeq_ok act keys : forall cur cur',
  insertSeq act keys cur = IOk cur' ->
  boundAt cur' keys = Some act /\
  (forall p, p <> keys -> boundAt cur' p = boundAt cur p) /\
  (forall p r, keys = p ++ r -> p <> [] -> boundAt cur p = None).
Proof.
  induction keys as [|k ks IH]; intros cur cur' Hins; simpl in Hins.
  - injection Hins as <-. split; [reflexivity|]. split.
    + intros [|q qs] Hp; [congruence|]. destruct cur; reflexivity.
    + intros [|q qs] r Hpr Hp; [congruence|discriminate].
  - set (child := match mget k (children cur) with Some c => c | None => emptyNode end) in Hins.
    assert (Hchild : forall p, boundAt child p = boundAt cur (k :: p)).
    { intro p. unfold child; simpl. destruct (mget k (children cur)); [reflexivity|].
      apply boundAt_empty. }
    destruct (action child) as [o|] eqn:Ea; [discriminate|].
    destruct (insertSeq act ks child) as [c'|o] eqn:Ei; [|discriminate].
    injection Hins as <-.
    destruct (IH _ _ Ei) as [H1 [H2 H3]].
    split; [|split].
    + simpl. rewrite mget_mset_eq. exact H1.
    + intros [|q qs] Hp; [reflexivity|]. simpl.
      destruct (string_dec q k) as [->|Hq].
      * rewrite mget_mset_eq, H2 by congruence. rewrite Hchild. reflexivity.
      * rewrite mget_mset_neq by exact Hq. reflexivity.
    + intros [|q qs] r Hpr Hp; [congruence|]. injection Hpr as -> Hks.
      rewrite <- Hchild. destruct qs as [|q' qs'].
      * exact Ea.
      * apply (H3 (q' :: qs') r Hks). discriminate.
Qed.

Lemma insertSeq_err act keys : forall cur other,
  insertSeq act keys cur = IErr other ->
  exists p r, keys = p ++ r /\ p <> [] /\ boundAt cur p = Some other.
Proof.
  induction keys as [|k ks IH]; intros cur other Hins; simpl in Hins; [discriminate|].
  set (child := match mget k (children cur) with Some c => c | None => emptyNode end) in Hins.
  assert (Hchild : forall p, boundAt child p = boundAt cur (k :: p)).
  { intro p. unfold child; simpl. destruct (mget k (children cur)); [reflexivity|].
    apply boundAt_empty. }
  destruct (action child) as [o|] eqn:Ea.
  - injection Hins as <-. exists [k], ks. split; [reflexivity|]. split; [discriminate|].
    rewrite <- Hchild. exact Ea.
  - destruct (insertSeq act ks child) as [c'|o] eqn:Ei; [discriminate|].
    injection Hins as <-.
    destruct (IH _ _ Ei) as [p [r [Hks [Hp Hb]]]].
    exists (k :: p), r. split; [simpl; congruence|]. split; [discriminate|].
    rewrite <- Hchild. exact Hb.
Qed.

(** *** The trie built so far *)

(** [t] is the trie of the entries [done], inserted without conflict. *)
Definition TrieOf (t : KeymappingNode) (done : list (string * list NotiosConfigKeymapping)) : Prop :=
  (forall e, In e done -> snd e <> []) /\
  (forall p a, boundAt t p = Some a -> exists s, In (a, s) done /\ keysOf (a, s) = p) /\
  (forall e, In e done -> boundAt t (keysOf e) = Some (fst e)).

Lemma TrieOf_empty : TrieOf emptyNode [].
Proof.
  split; [intros e []|split].
  - intros p a H. rewrite boundAt_empty in H. discriminate.
  - intros e [].
Qed.

Lemma keysOf_nil e : snd e <> [] -> keysOf e <> [].
Proof. destruct e as [a [|k s]]; unfold keysOf; simpl; [congruence|discriminate]. Qed.

Lemma TrieOf_insert t done a s t' :
  TrieOf t done -> s <> [] ->
  insertSeq a (keysOf (a, s)) t = IOk t' ->
  TrieOf t' (done ++ [(a, s)]).
Proof.
  intros [H0 [HA HB]] Hs Hins.
  destruct (insertSeq_ok _ _ _ _ Hins) as [I1 [I2 I3]].
  split; [|split].
  - intros e He. apply in_app_or in He as [He|[<-|[]]]; [exact (H0 e He)|exact Hs].
  - intros p b Hb.
    destruct (list_eq_dec string_dec p (keysOf (a, s))) as [->|Hp].
    + rewrite I1 in Hb. injection Hb as <-. exists s. split; [|reflexivity].
      apply in_or_app; right; left; reflexivity.
    + rewrite I2 in Hb by exact Hp. destruct (HA p b Hb) as [s' [Hin Hk]].
      exists s'. split; [apply in_or_app; left; exact Hin|exact Hk].
  - intros e He. apply in_app_or in He as [He|[<-|[]]]; [|exact I1].
    destruct (list_eq_dec string_dec (keysOf e) (keysOf (a, s))) as [Hk|Hk].
    + exfalso. pose proof (HB e He) as Hb.
      rewrite (I3 (keysOf e) [] ltac:(rewrite app_nil_r; symmetry; exact Hk)
                 (keysOf_nil _ (H0 e He))) in Hb. discriminate.
    + rewrite I2 by exact Hk. exact (HB e He).
Qed.

(** *** The loop over the sorted entries *)

Lemma buildTrie_no_zero qs : forall t a,
  (forall e, In e qs -> snd e <> []) -> buildTrie qs t <> KErrZero a.
Proof.
  induction qs as [|[b s] qs IH]; intros t a Hne; simpl; [discriminate|].
  destruct s as [|k s]; [exfalso; apply (Hne (b, [])); [left|]; reflexivity|].
  destruct (insertSeq _ _ _); [|discriminate].
  apply IH. intros e He; apply Hne; right; exact He.
Qed.

Lemma buildTrie_ok qs : forall t done t',
  TrieOf t done -> (forall e, In e qs -> snd e <> []) ->
  buildTrie qs t = KOk t' ->
  forall q1 x q2 y r, qs = q1 ++ x :: q2 -> In y (done ++ q1) -> keysOf x <> keysOf y ++ r.
Proof.
  induction qs as [|[a s] qs IH]; intros t done t' Ht Hne Hb q1 x q2 y r Hq Hy;
    [destruct q1; discriminate|].
  assert (Hs : s <> []) by (apply (Hne (a, s)); left; reflexivity).
  simpl in Hb. destruct s as [|k s0]; [congruence|].
  destruct (insertSeq a (map keymappingToString (k :: s0)) t) as [t1|o] eqn:Ei; [|discriminate].
  destruct q1 as [|e q1].
  - injection Hq as <- _. rewrite app_nil_r in Hy. intro Hk.
    destruct (insertSeq_ok _ _ _ _ Ei) as [_ [_ I3]].
    destruct Ht as [H0 [HA HB]].
    pose proof (HB y Hy) as Hby.
    rewrite (I3 (keysOf y) r Hk (keysOf_nil _ (H0 y Hy))) in Hby. discriminate.
  - injection Hq as <- Hq.
    refine (IH t1 (done ++ [(a, k :: s0)]) t' _ _ Hb q1 x q2 y r Hq _).
    + apply (TrieOf_insert t); [exact Ht|discriminate|exact Ei].
    + intros e' He'; apply Hne; right; exact He'.
    + rewrite <- app_assoc. exact Hy.
Qed.

Lemma buildTrie_conflict qs : forall t done act rep other,
  TrieOf t done ->
  buildTrie qs t = KErrConflict act rep other ->
  exists d1 y d2 x rest r,
    done ++ qs = d1 ++ y :: d2 ++ x :: rest /\ fst y = other /\ fst x = act /\
    rep = seqRepr (snd x) /\ keysOf x = keysOf y ++ r.
Proof.
  induction qs as [|[a s] qs IH]; intros t done act rep other Ht Hb; simpl in Hb;
    [discriminate|].
  destruct s as [|k s0]; [discriminate|].
  destruct (insertSeq a (map keymappingToString (k :: s0)) t) as [t1|o] eqn:Ei.
  - destruct (IH t1 (done ++ [(a, k :: s0)]) act rep other) as
        [d1 [y [d2 [x [rest [r [E H]]]]]]];
      [apply (TrieOf_insert t); [exact Ht|discriminate|exact Ei]|exact Hb|].
    exists d1, y, d2, x, rest, r. split; [|exact H].
    rewrite <- E, <- app_assoc. reflexivity.
  - injection Hb as <- <- <-.
    destruct (insertSeq_err _ _ _ _ Ei) as [p [r [Hk [Hp Hbd]]]].
    destruct Ht as [_ [HA _]].
    destruct (HA p o Hbd) as [s' [Hin Hks]].
    destruct (in_split _ _ Hin) as [d1 [d2 Hd]].
    exists d1, (o, s'), d2, (a, k :: s0), qs, r.
    split; [rewrite Hd, <- app_assoc; reflexivity|].
    split; [reflexivity|]. split; [reflexivity|]. split; [reflexivity|].
    unfold keysOf at 1; cbn [snd]. rewrite Hks. exact Hk.
Qed.

(** *** The stable sort *)

Lemma insertByLen_perm x l : Permutation (insertByLen x l) (x :: l).
Proof.
  induction l as [|y ys IH]; simpl; [reflexivity|].
  destruct (Nat.leb _ _); [reflexivity|].
  rewrite IH. apply perm_swap.
Qed.

Lemma sortByLen_perm l : Permutation (sortByLen l) l.
Proof.
  induction l as [|x xs IH]; simpl; [reflexivity|].
  rewrite insertByLen_perm, IH. reflexivity.
Qed.

Definition lenLe (p q : string * list NotiosConfigKeymapping) : Prop :=
  List.length (snd p) <= List.length (snd q).

Lemma insertByLen_sorted x l :
  StronglySorted lenLe l -> StronglySorted lenLe (insertByLen x l).
Proof.
  induction l as [|y ys IH]; intro Hs; simpl.
  - repeat constructor.
  - inversion Hs as [|? ? Hys Hy]; subst.
    destruct (Nat.leb (List.length (snd x)) (List.length (snd y))) eqn:E.
    + apply Nat.leb_le in E. constructor; [exact Hs|]. constructor; [exact E|].
      eapply Forall_impl; [|exact Hy]. unfold lenLe; intros a Ha; lia.
    + apply Nat.leb_gt in E. constructor; [apply IH, Hys|].
      eapply Permutation_Forall; [symmetry; apply insertByLen_perm|].
      constructor; [unfold lenLe; lia|exact Hy].
Qed.

Lemma sortByLen_sorted l : StronglySorted lenLe (sortByLen l).
Proof.
  induction l as [|x xs IH]; simpl; [constructor|].
  apply insertByLen_sorted, IH.
Qed.

Lemma prefix_same_length (k1 k2 r : list string) :
  k1 = k2 ++ r -> List.length k1 <= List.length k2 -> k2 = k1 ++ [].
Proof.
  intros -> Hl. rewrite length_app in Hl.
  destruct r; [now rewrite !app_nil_r|simpl in Hl; lia].
Qed.

Lemma StronglySorted_mid {A} (R : A -> A -> Prop) l1 a l2 b :
  StronglySorted R (l1 ++ a :: l2) -> In b l2 -> R a b.
Proof.
  induction l1 as [|c l1 IH]; simpl; intros Hs Hb.
  - apply StronglySorted_inv in Hs as [_ HF]. rewrite Forall_forall in HF. exact (HF b Hb).
  - apply StronglySorted_inv in Hs as [Hs _]. exact (IH Hs Hb).
Qed.

Lemma length_keysOf e : List.length (keysOf e) = List.length (snd e).
Proof. unfold keysOf; apply length_map. Qed.

(** The stable sort puts the first entry with an empty sequence in front. *)
Lemma sortByLen_first_empty p1 a p2 :
  Forall (fun e => snd e <> []) p1 ->
  exists rest, sortByLen (p1 ++ (a, []) :: p2) = (a, []) :: rest.
Proof.
  induction p1 as [|x p1 IH]; intro Hf; cbn [app sortByLen].
  - destruct (sortByLen p2) as [|y ys]; cbn [insertByLen]; [eexists; reflexivity|].
    eexists; reflexivity.
  - inversion Hf as [|? ? Hx Hf']; subst.
    destruct (IH Hf') as [rest Hr]. rewrite Hr. cbn [insertByLen snd].
    destruct (snd x) as [|k ks] eqn:Ex; [congruence|].
    cbn [List.length Nat.leb]. eexists; reflexivity.
Qed.

(** *** Examples *)

Definition gKey : NotiosConfigKeymapping := KChar "g" false false false.
Definition xKey : NotiosConfigKeymapping := KChar "x" false false false.

(** [g] to [A], [g g] to [B], and an empty sequence to [Z]. *)
Definition exCfgZero : KeymapConfig :=
  [("A", Some [RootOne gKey]); ("B", Some [RootSeq [gKey; gKey]]); ("Z", Some [RootSeq []])]%string.

Definition exCfgPrefix : KeymapConfig :=
  [("A", Some [RootOne gKey]); ("B", Some [RootSeq [gKey; gKey]]); ("C", Some [RootOne xKey])]%string.

(** C6 (counterexample): a configuration with [g] bound to [A] and [g g]
    bound to [B] whose construction fails with the zero-length error of a
    third action [Z], which names neither [A] nor [B]: the entries are
    sorted by length, so the empty sequence is met first. *)
Lemma prefix_conflict_reported_as_zero_length :
  In ("A", [gKey])%string (flattenEntries exCfgZero) /\
  In ("B", [gKey; gKey])%string (flattenEntries exCfgZero) /\
  keysOf ("B", [gKey; gKey])%string = keysOf ("A", [gKey])%string ++ ["g---"%string] /\
  constructKeymapping exCfgZero = KErrZero "Z".
Proof.
  split; [simpl; auto|]. split; [simpl; auto|]. split; reflexivity.
Qed.

(** C6 (amended): with [g] bound to [a] and [g g] bound to [b] as the only
    entries, construction fails naming [b] (the sequence being inserted,
    shown as [g g]) and [a] (the action found on its path), in either
    order of the entries. In general, when no sequence is empty and two
    entries of the flattened configuration (at distinct positions) have
    normalised sequences one a prefix of (or equal to) the other,
    construction fails with a conflict error; and a conflict error always
    names the action [act] of an entry being inserted and the action
    [other] of another entry whose sequence is a prefix of (or equal to)
    it, with [rep] the representation of the former. A configuration
    with an empty sequence fails instead with the zero-length error
    naming the action of the first flattened entry whose sequence is
    empty, whatever prefix-related sequences it also has. *)
Theorem constructKeymapping_conflict :
  (forall a b : string,
     constructKeymapping [(a, Some [RootOne gKey]); (b, Some [RootSeq [gKey; gKey]])]
       = KErrConflict b "g g" a /\
     constructKeymapping [(b, Some [RootSeq [gKey; gKey]]); (a, Some [RootOne gKey])]
       = KErrConflict b "g g" a) /\
  forall cfg : KeymapConfig,
  let ps := flattenEntries cfg in
  ((forall e, In e ps -> snd e <> []) ->
   forall e1 e2 rest r, Permutation ps (e1 :: e2 :: rest) -> keysOf e2 = keysOf e1 ++ r ->
   exists act rep other, constructKeymapping cfg = KErrConflict act rep other) /\
  (forall act rep other, constructKeymapping cfg = KErrConflict act rep other ->
   exists s t rest r, Permutation ps ((other, s) :: (act, t) :: rest) /\
     keysOf (act, t) = keysOf (other, s) ++ r /\ rep = seqRepr t) /\
  (forall p1 a p2, ps = p1 ++ (a, []) :: p2 -> Forall (fun e => snd e <> []) p1 ->
   constructKeymapping cfg = KErrZero a).
Proof.
  split; [intros a b; split; reflexivity|].
  intro cfg; cbv zeta. unfold constructKeymapping.
  pose proof (sortByLen_perm (flattenEntries cfg)) as Hp.
  split; [|split]; cycle 2.
  { intros p1 a p2 Hps Hf. rewrite Hps.
    destruct (sortByLen_first_empty p1 a p2 Hf) as [rest Hr]. rewrite Hr. reflexivity. }
  all: set (qs := sortByLen (flattenEntries cfg)) in *.
  - intros Hne e1 e2 rest r Hperm Hk.
    assert (Hne' : forall e, In e qs -> snd e <> [])
      by (intros e He; apply Hne; exact (Permutation_in _ Hp He)).
    destruct (buildTrie qs emptyNode) as [t|a|act rep other] eqn:Eb.
    + exfalso.
      assert (Hq : Permutation (e1 :: e2 :: rest) qs)
        by (symmetry; transitivity (flattenEntries cfg); assumption).
      destruct (in_split e1 qs (Permutation_in _ Hq (or_introl eq_refl))) as [u1 [u2 Hu]].
      rewrite Hu in Hq. apply Permutation_cons_app_inv in Hq.
      assert (Hin2 : In e2 (u1 ++ u2)) by exact (Permutation_in _ Hq (or_introl eq_refl)).
      apply in_app_or in Hin2 as [Hin2|Hin2].
      * destruct (in_split _ _ Hin2) as [v1 [v2 Hv]]. subst u1.
        assert (Hs : lenLe e2 e1).
        { apply (StronglySorted_mid lenLe v1 e2 (v2 ++ e1 :: u2)).
          - rewrite <- app_assoc in Hu. cbn [app] in Hu. rewrite <- Hu. apply sortByLen_sorted.
          - apply in_or_app; right; left; reflexivity. }
        unfold lenLe in Hs. rewrite <- !length_keysOf in Hs.
        apply (buildTrie_ok qs emptyNode [] t TrieOf_empty Hne' Eb
                 (v1 ++ e2 :: v2) e1 u2 e2 [] Hu); [apply in_elt|].
        exact (prefix_same_length _ _ _ Hk Hs).
      * destruct (in_split _ _ Hin2) as [v1 [v2 Hv]]. subst u2.
        apply (buildTrie_ok qs emptyNode [] t TrieOf_empty Hne' Eb
                 (u1 ++ e1 :: v1) e2 v2 e1 r); [|apply in_elt|exact Hk].
        rewrite Hu, <- app_assoc. reflexivity.
    + exfalso. exact (buildTrie_no_zero qs emptyNode a Hne' Eb).
    + exists act, rep, other. reflexivity.
  - intros act rep other Eb.
    destruct (buildTrie_conflict qs emptyNode [] act rep other TrieOf_empty Eb)
      as [d1 [[ya s] [d2 [[xa t] [rest [r [Hq [Hy [Hx [Hr Hk]]]]]]]]]].
    cbn [fst snd] in Hy, Hx, Hr. subst ya xa.
    exists s, t, (d1 ++ d2 ++ rest), r. split; [|split; assumption].
    symmetry. transitivity qs; [|exact Hp]. cbn [app] in Hq. rewrite Hq.
    rewrite <- Permutation_middle. apply perm_skip.
    rewrite (app_assoc d1 d2 ((act, t) :: rest)), (app_assoc d1 d2 rest).
    apply Permutation_middle.
Qed.

Lemma constructKeymapping_conflict_witness :
  (forall e, In e (flattenEntries exCfgPrefix) -> snd e <> []) /\
  Permutation (flattenEntries exCfgPrefix)
    [("A", [gKey]); ("B", [gKey; gKey]); ("C", [xKey])]%string /\
  (exists act rep other, constructKeymapping exCfgPrefix = KErrConflict act rep other) /\
  constructKeymapping exCfgZero = KErrZero "Z"%string.
Proof.
  assert (H1 : forall e, In e (flattenEntries exCfgPrefix) -> snd e <> []).
  { intros e He. simpl in He. destruct He as [<-|[<-|[<-|[]]]]; discriminate. }
  assert (H2 : Permutation (flattenEntries exCfgPrefix)
                 [("A", [gKey]); ("B", [gKey; gKey]); ("C", [xKey])]%string)
    by apply Permutation_refl.
  split; [exact H1|]. split; [exact H2|]. split.
  - exact (proj1 (proj2 constructKeymapping_conflict exCfgPrefix) H1 _ _ _ ["g---"%string] H2
             eq_refl).
  - refine (proj2 (proj2 (proj2 constructKeymapping_conflict exCfgZero))
              [("A", [gKey]); ("B", [gKey; gKey])]%string "Z"%string [] eq_refl _).
    repeat constructor; discriminate.
Defined.

(** *** Matching keystrokes *)

Definition plainKey : Key := mkKey false false false (fun _ => false).

Lemma specialToken_unpressed names key :
  (forall n, pressed key n = false) -> specialToken names key = None.
Proof. intro H; induction names as [|n ns IH]; simpl; [reflexivity|]. now rewrite H. Qed.

Lemma normalizeKey_unpressed names input key :
  (forall n, pressed key n = false) -> normalizeKey names input key = normalizeKey [] input key.
Proof. intro H. unfold normalizeKey. rewrite specialToken_unpressed by exact H. reflexivity. Qed.

Lemma runKeys_unpressed names t ins : forall cur,
  (forall i k, In (i, k) ins -> forall n, pressed k n = false) ->
  runKeys names t cur ins = runKeys [] t cur ins.
Proof.
  induction ins as [|[i k] ins IH]; intros cur H; simpl; [reflexivity|].
  unfold useActionStep, matchKeymapping.
  rewrite normalizeKey_unpressed by (apply (H i k); left; reflexivity).
  destruct (mget _ _) as [n|]; [destruct (action n)|];
    rewrite IH by (intros i' k' Hin; apply (H i' k'); right; exact Hin); reflexivity.
Qed.

Definition exTopCfg : KeymapConfig := [("top", Some [RootSeq [gKey; gKey]])]%string.
Definition exTopQuitCfg : KeymapConfig :=
  [("top", Some [RootSeq [gKey; gKey]]); ("quit", Some [RootOne xKey])]%string.

(** C7: on each keystroke (matching enabled), a token with no child at
    the current position sends the position back to the root and fires
    nothing; a child with a bound action fires that action once and sends
    the position back to the root; any other child becomes the position.
    With [g g] bound to [top] (and [?] to [help]), [g] then [x] ends at
    the root with nothing fired, [g] then [g] fires [top] once and ends at
    the root; with [x] also bound to [quit], [g] then [x] still fires
    nothing: the failing [x] is not matched again from the root. This
    holds whatever the list of special key names. *)
Theorem useAction_matching :
  (forall names trie cur input key,
     useActionStep names false trie cur input key =
     match mget (normalizeKey names input key) (children cur) with
     | None => (trie, None)
     | Some n => match action n with
                 | Some a => (trie, Some a)
                 | None => (n, None)
                 end
     end) /\
  (forall names, exists t,
     constructKeymapping (withHelp exTopCfg) = KOk t /\
     runKeys names t t [("g", plainKey); ("x", plainKey)]%string = (t, []) /\
     runKeys names t t [("g", plainKey); ("g", plainKey)]%string = (t, ["top"%string])) /\
  (forall names, exists t,
     constructKeymapping (withHelp exTopQuitCfg) = KOk t /\
     runKeys names t t [("g", plainKey); ("x", plainKey)]%string = (t, [])).
Proof.
  split; [|split].
  - intros names trie cur input key. unfold useActionStep, matchKeymapping.
    destruct (mget _ _) as [n|]; [destruct (action n)|]; reflexivity.
  - intro names. eexists. split; [vm_compute; reflexivity|].
    split; rewrite runKeys_unpressed
      by (intros i k Hin n; simpl in Hin; destruct Hin as [E|[E|[]]]; injection E as _ <-;
          reflexivity); vm_compute; reflexivity.
  - intro names. eexists. split; [vm_compute; reflexivity|].
    rewrite runKeys_unpressed
      by (intros i k Hin n; simpl in Hin; destruct Hin as [E|[E|[]]]; injection E as _ <-;
          reflexivity).
    vm_compute; reflexivity.
Qed.

End KeymapFacts.

Module KillFacts.
Import Proc Log Kill ProcFacts.

(** *** Serial scheduling only starts waiting children *)

Definition startedFrom (c c' : SNode) : Prop :=
  c' = c \/ (status c = waiting /\ c' = startRunning c).

Lemma Forall2_refl_startedFrom l : Forall2 startedFrom l l.
Proof. induction l; constructor; [left; reflexivity|assumption]. Qed.

Lemma Forall2_set_nth_start orig cur : Forall2 startedFrom orig cur ->
  forall k b, nth_error cur k = Some b -> status b = waiting ->
  Forall2 startedFrom orig (set_nth k startRunning cur).
Proof.
  induction 1 as [|a b0 orig cur Hab Hr IH]; intros k b Hk Hb; [destruct k; constructor|].
  destruct k as [|k]; simpl in Hk |- *.
  - injection Hk as <-. constructor; [|exact Hr].
    destruct Hab as [->|[_ ->]]; [right; split; [exact Hb|reflexivity]|].
    unfold startRunning, set_status in Hb; simpl in Hb; discriminate.
  - constructor; [exact Hab|]. exact (IH k b Hk Hb).
Qed.

Lemma serialLoop_rel n : forall i orig cur started,
  Forall2 startedFrom orig cur -> Forall2 startedFrom orig (fst (serialLoop n i cur started)).
Proof.
  induction n as [|n IH]; intros i orig cur started H; simpl; [exact H|].
  destruct (Nat.ltb (i + 1) (List.length cur)); [|exact H].
  destruct (nth_error cur i) as [a|]; [|exact H].
  destruct (nth_error cur (i + 1)) as [b|] eqn:Eb; [|exact H].
  destruct (ProcStatus_eqb (status a) finished && ProcStatus_eqb (status b) waiting) eqn:E.
  - apply IH. apply andb_true_iff in E as [_ E]. apply ProcStatus_eqb_spec in E.
    exact (Forall2_set_nth_start _ _ H _ _ Eb E).
  - apply IH; exact H.
Qed.

Lemma checkSerial_rel node chs : Forall2 startedFrom chs (fst (checkSerial node chs)).
Proof.
  unfold checkSerial.
  destruct (_ && _ && _); [|apply Forall2_refl_startedFrom].
  destruct chs as [|c0 r]; [constructor|].
  destruct (ProcStatus_eqb (status c0) waiting) eqn:E.
  - apply ProcStatus_eqb_spec in E.
    exact (Forall2_set_nth_start (c0 :: r) (c0 :: r) (Forall2_refl_startedFrom _) 0 c0 eq_refl E).
  - apply serialLoop_rel, Forall2_refl_startedFrom.
Qed.

Lemma forallb_killed_filter rest :
  forallb (fun s => ProcStatus_eqb s killed) (map status (filter (fun c => negb (ignored c)) rest))
  = forallb (fun c => ignored c || ProcStatus_eqb (status c) killed) rest.
Proof.
  induction rest as [|c r IH]; simpl; [reflexivity|].
  destruct (ignored c); simpl; rewrite IH; reflexivity.
Qed.

(** *** The appended kill message *)

Section AppendFacts.
Context {E : AnsiLib}.

Definition nl : ascii := ascii_of_nat 10.

Definition commitLine (now : Z) (l : LogLine) : LogLine :=
  match timestamp (main l) with Some _ => l | None => set_timestamp now l end.

Lemma updLast_snoc f pre x : updLast f (pre ++ [x]) = pre ++ [f x].
Proof.
  induction pre as [|a pre IH]; [reflexivity|].
  destruct pre as [|b pre']; [reflexivity|].
  change (a :: updLast f ((b :: pre') ++ [x]) = a :: (b :: pre') ++ [f x]).
  rewrite IH. reflexivity.
Qed.

Lemma ensureLine_snoc acc pre l : lines acc = pre ++ [l] -> ensureLine acc = acc.
Proof. intro H; unfold ensureLine; rewrite H; destruct pre; reflexivity. Qed.

Lemma checkTimestamp_snoc now acc pre l :
  lines acc = pre ++ [l] -> lines (checkTimestamp now acc) = pre ++ [commitLine now l].
Proof.
  intro H. unfold checkTimestamp, commitLine. rewrite H, rev_unit.
  destruct (timestamp (main l)); cbn [lines]; [rewrite H; reflexivity|apply updLast_snoc].
Qed.

Lemma printable_push_style c b : printable (c ++ [TStyle b]) = printable c.
Proof. unfold printable; rewrite flat_map_app; simpl; apply app_nil_r. Qed.

Lemma printable_push_print c b : printable (c ++ [TPrint b]) = printable c ++ [b].
Proof. unfold printable; rewrite flat_map_app; reflexivity. Qed.

Lemma step_style now st pre l a :
  lines (fst st) = pre ++ [l] ->
  lines (fst (appendAction now st (AStyle a)))
  = pre ++ [push_content (TStyle (restoreSty (applyActionToSty (snd st) a))) l].
Proof.
  destruct st as [acc sty]; cbn [fst snd]; intro H.
  cbv beta iota zeta delta [appendAction]. rewrite (ensureLine_snoc _ _ _ H).
  unfold pushToken; cbn [fst lines set_lines]. rewrite H. apply updLast_snoc.
Qed.

Lemma step_print now st pre l b :
  lines (fst st) = pre ++ [l] ->
  lines (fst (appendAction now st (APrint b))) = pre ++ [push_content (TPrint b) (commitLine now l)].
Proof.
  destruct st as [acc sty]; cbn [fst snd]; intro H.
  cbv beta iota zeta delta [appendAction]. rewrite (ensureLine_snoc _ _ _ H).
  unfold pushToken; cbn [fst lines set_lines]. rewrite (checkTimestamp_snoc _ _ _ _ H).
  apply updLast_snoc.
Qed.

Lemma step_newline now st :
  lines (fst (appendAction now st (AControl nl)))
  = lines (checkTimestamp now (ensureLine (fst st)))
    ++ [pendingLine (lineCount (checkTimestamp now (ensureLine (fst st))))
                    [TStyle (restoreSty (snd st))]].
Proof. destruct st as [acc sty]. reflexivity. Qed.

Lemma fold_styles now sas : forall st pre l,
  lines (fst st) = pre ++ [l] ->
  exists l', lines (fst (fold_left (appendAction now) (map AStyle sas) st)) = pre ++ [l'] /\
             printable (content (main l')) = printable (content (main l)) /\
             timestamp (main l') = timestamp (main l).
Proof.
  induction sas as [|a sas IH]; intros st pre l H; [exists l; auto|].
  cbn [map fold_left].
  destruct (IH _ _ _ (step_style now st pre l a H)) as [l' [H1 [H2 H3]]].
  exists l'. split; [exact H1|]. cbn [main content timestamp push_content] in H2, H3.
  rewrite printable_push_style in H2. auto.
Qed.

Lemma fold_prints now bs : forall st pre l,
  lines (fst st) = pre ++ [l] ->
  exists l', lines (fst (fold_left (appendAction now) (map APrint bs) st)) = pre ++ [l'] /\
             printable (content (main l')) = printable (content (main l)) ++ bs /\
             (bs <> [] \/ timestamp (main l) <> None -> timestamp (main l') <> None).
Proof.
  induction bs as [|b bs IH]; intros st pre l H.
  { exists l. rewrite app_nil_r. split; [exact H|]. split; [reflexivity|].
    intros [Hb|Ht]; [congruence|exact Ht]. }
  cbn [map fold_left].
  destruct (IH _ _ _ (step_print now st pre l b H)) as [l' [H1 [H2 H3]]].
  exists l'. split; [exact H1|]. split.
  - rewrite H2. cbn [main content push_content].
    rewrite printable_push_print, <- app_assoc.
    unfold commitLine; destruct (timestamp (main l)); reflexivity.
  - intros _. apply H3. right. cbn [main timestamp push_content].
    unfold commitLine; destruct (timestamp (main l)) eqn:Et; rewrite ?Et; discriminate.
Qed.

Lemma ensure_commit_prefix now acc :
  removelast (lines (checkTimestamp now (ensureLine acc))) = removelast (lines acc) /\
  List.length (lines (checkTimestamp now (ensureLine acc))) = Nat.max 1 (List.length (lines acc)).
Proof.
  destruct (lines acc) as [|x r] eqn:El.
  - unfold ensureLine; rewrite El. split; reflexivity.
  - destruct (exists_last (l := x :: r) ltac:(discriminate)) as [r' [y Ey]].
    rewrite Ey in El |- *.
    rewrite (checkTimestamp_snoc now _ r' y) by (rewrite (ensureLine_snoc _ _ _ El); exact El).
    rewrite !removelast_last, !length_app. split; [reflexivity|]. cbn [List.length]. rewrite Nat.add_1_r. reflexivity.
Qed.

Lemma append_kill_message now own acc msg p' sa1 sa2 txt :
  decodeAnsiBytes (currentParser own) msg
  = (p', AControl nl :: map AStyle sa1 ++ map APrint txt ++ map AStyle sa2 ++ [AControl nl]) ->
  txt <> [] ->
  exists pre L P, lines (snd (appendLogToNode now msg own acc)) = pre ++ [L; P] /\
    removelast pre = removelast (lines acc) /\
    List.length pre = Nat.max 1 (List.length (lines acc)) /\
    timestamp (main L) <> None /\ printable (content (main L)) = txt /\
    timestamp (main P) = None.
Proof.
  intros Hdec Htxt. unfold appendLogToNode. rewrite Hdec.
  set (f := appendAction now).
  set (s1 := f (acc, currentSty own) (AControl nl)).
  assert (Hs1 := step_newline now (acc, currentSty own)). fold f in Hs1. fold s1 in Hs1.
  cbn [fst snd] in Hs1.
  set (pre := lines (checkTimestamp now (ensureLine acc))) in Hs1.
  set (N0 := pendingLine _ _) in Hs1.
  cbn [fold_left]. fold s1. rewrite !fold_left_app.
  destruct (fold_styles now sa1 s1 pre N0 Hs1) as [N1 [E1 [P1 T1]]].
  set (s2 := fold_left f (map AStyle sa1) s1) in E1 |- *.
  destruct (fold_prints now txt s2 pre N1 E1) as [N2 [E2 [P2 T2]]].
  set (s2' := fold_left f (map APrint txt) s2) in E2 |- *.
  destruct (fold_styles now sa2 s2' pre N2 E2) as [N3 [E3 [P3 T3]]].
  set (s3 := fold_left f (map AStyle sa2) s2') in E3 |- *.
  cbn [fold_left].
  rewrite (surjective_pairing (f s3 (AControl nl))); cbn [snd].
  exists pre, N3, (pendingLine (lineCount (checkTimestamp now (ensureLine (fst s3))))
                    [TStyle (restoreSty (snd s3))]).
  unfold f; rewrite step_newline.
  assert (Hc : lines (checkTimestamp now (ensureLine (fst s3))) = pre ++ [commitLine now N3]).
  { rewrite (ensureLine_snoc (fst s3) pre N3 E3). exact (checkTimestamp_snoc now (fst s3) pre N3 E3). }
  rewrite Hc.
  assert (HT3 : timestamp (main N3) <> None) by (rewrite T3; apply T2; left; exact Htxt).
  replace (commitLine now N3) with N3
    by (unfold commitLine; destruct (timestamp (main N3)); [reflexivity|congruence]).
  destruct (ensure_commit_prefix now acc) as [R1 R2].
  split; [rewrite <- app_assoc; reflexivity|].
  split; [exact R1|]. split; [exact R2|]. split; [exact HT3|]. split; [|reflexivity].
  rewrite P3, P2, P1. reflexivity.
Qed.

End AppendFacts.

(** *** killNode and the exit callback *)

Section KillSteps.
Context {E : AnsiLib}.

Lemma killNode_inert isColorSupported now v :
  killable v = false -> killNode isColorSupported now v = (v, false).
Proof. intro H; unfold killNode; destruct v as [l|]; [rewrite H|]; reflexivity. Qed.

Lemma killNode_unfold isColorSupported now l :
  killable (Some l) = true ->
  let n1 := set_status killed (set_raw false (lnode l)) in
  let chs1 := set_nth 1 (set_status killed) (set_nth 0 (set_status killed) (lchildren l)) in
  let ap := appendLogToNode now (killMsg isColorSupported) (outOwn l) (outAcc l) in
  killNode isColorSupported now (Some l)
  = (Some (mkLeaf (fst (notifyStatus n1 chs1)) (snd (notifyStatus n1 chs1)) (fst ap) (snd ap)), true).
Proof.
  intros H n1 chs1 ap. unfold killNode. rewrite H. fold n1 chs1 ap.
  destruct ap, (notifyStatus n1 chs1); reflexivity.
Qed.

Lemma killable_procOwn l : killable (Some l) = true -> procOwn (lnode l) = true.
Proof. unfold killable; intro H; apply andb_true_iff in H as [H _]; apply andb_true_iff in H; tauto. Qed.

End KillSteps.

Lemma kill_recompute n c0 c1 rest :
  procOwn n = true -> ignored c0 = false -> ignored c1 = false ->
  status (recomputeStatus (set_status killed (set_raw false n))
            (set_status killed c0 :: set_status killed c1 :: rest))
  = (if othersKilled (c0 :: c1 :: rest) then killed else running) /\
  raw (recomputeStatus (set_status killed (set_raw false n))
         (set_status killed c0 :: set_status killed c1 :: rest)) = false.
Proof.
  intros Hp H0 H1. unfold recomputeStatus. cbn [filter ignored set_status]. rewrite H0, H1.
  cbn [negb map]. rewrite !allIs_forallb by discriminate.
  cbn [map status set_status forallb ProcStatus_eqb andb].
  rewrite forallb_killed_filter. unfold othersKilled; cbn [skipn procOwn set_raw set_status].
  rewrite Hp. destruct (forallb _ rest); simpl; auto.
Qed.

Lemma sinks_after_checkSerial node c0 c1 rest :
  status c0 = killed -> status c1 = killed ->
  exists c0' c1' rest', fst (checkSerial node (c0 :: c1 :: rest)) = c0' :: c1' :: rest' /\
                        status c0' = killed /\ status c1' = killed.
Proof.
  intros H0 H1. pose proof (checkSerial_rel node (c0 :: c1 :: rest)) as HF.
  destruct (fst (checkSerial node (c0 :: c1 :: rest))) as [|a [|b r]];
    [inversion HF|inversion HF as [|? ? ? ? _ HF1]; inversion HF1|].
  inversion HF as [|? ? ? ? Ha HF1]; subst. inversion HF1 as [|? ? ? ? Hb _]; subst.
  exists a, b, r. split; [reflexivity|].
  destruct Ha as [<-|[Hw _]]; [|congruence]. destruct Hb as [<-|[Hw _]]; [|congruence].
  auto.
Qed.

Definition toyDecode (b : Z) : AnsiAction unit := if Z.eqb b 10 then AControl nl else APrint b.

#[local] Instance toyAnsi : AnsiLib := {|
  StyContext := unit;
  StyAction := unit;
  AnsiParser := unit;
  applyActionToSty := fun s _ => s;
  restoreSty := fun _ => [];
  decodeAnsiBytes := fun p bs => (p, map toyDecode bs)
|}.

Definition exSinkNode (nm : string) : SNode := mkSNode nm none running ECUndefined false false false.

Definition exLeafNode : SNode := mkSNode "job"%string none running ECUndefined true true false.

(** A running leaf whose process registered a nested child that is still running. *)
Definition exLeafNested : LeafView :=
  mkLeaf exLeafNode
    [exSinkNode "stdout"%string; exSinkNode "stderr"%string;
     mkSNode "nested"%string none running ECUndefined false false false]
    (mkLogOwn tt tt) emptyLogAccumulated.

(** A running leaf with only its two sinks. *)
Definition exLeafSinks : LeafView :=
  mkLeaf exLeafNode [exSinkNode "stdout"%string; exSinkNode "stderr"%string]
    (mkLogOwn tt tt) emptyLogAccumulated.

(** C8 (counterexample): the three guards hold on [exLeafNested], yet after
    [killNode] the leaf's status is ['running'], not ['killed']: the notify
    pass recomputes it from the non-ignored children, and the nested child
    is still running. *)
Lemma kill_running_nested_child_stays_running :
  killable (Some exLeafNested) = true /\
  exists l', killNode false 0%Z (Some exLeafNested) = (Some l', true) /\
             status (lnode l') = running.
Proof. split; [reflexivity|]. eexists; split; [reflexivity|reflexivity]. Qed.

(** C8 (amended): [killNode] returns its input unchanged, without calling
    [crossKill], unless the node has a process identity, a live handle and
    status ['running']. When these hold, the first two children are
    non-ignored sinks, and the decoder reads the kill message as a
    newline, style actions, the bytes of [[NOTIOS] MANUALLY KILLED], style
    actions and a newline:
    - the handle is dropped;
    - both sinks end ['killed'];
    - the node ends ['killed'] when every other child is killed or
      ignored, and ['running'] otherwise;
    - the stdout sink's lines end with a committed line, whose printable
      content is exactly [[NOTIOS] MANUALLY KILLED], followed by a
      pending line. The lines before it are the old ones, the last one
      committed (or one pending line pushed and committed when there
      were none). *)
Theorem killNode_spec {E : AnsiLib} (isColorSupported : bool) (now : Z) (v : option LeafView) :
  (killable v = false -> killNode isColorSupported now v = (v, false)) /\
  (forall l c0 c1 rest,
     v = Some l -> killable v = true ->
     lchildren l = c0 :: c1 :: rest -> ignored c0 = false -> ignored c1 = false ->
     (exists p' sa1 sa2, decodeAnsiBytes (currentParser (outOwn l)) (killMsg isColorSupported)
        = (p', AControl nl :: map AStyle sa1 ++ map APrint (bytesOf "[NOTIOS] MANUALLY KILLED")
               ++ map AStyle sa2 ++ [AControl nl])) ->
     exists l', killNode isColorSupported now v = (Some l', true) /\
       raw (lnode l') = false /\
       status (lnode l') = (if othersKilled (lchildren l) then killed else running) /\
       (exists c0' c1' rest', lchildren l' = c0' :: c1' :: rest' /\
                              status c0' = killed /\ status c1' = killed) /\
       exists pre L P, lines (outAcc l') = pre ++ [L; P] /\
         removelast pre = removelast (lines (outAcc l)) /\
         List.length pre = Nat.max 1 (List.length (lines (outAcc l))) /\
         timestamp (main L) <> None /\
         printable (content (main L)) = bytesOf "[NOTIOS] MANUALLY KILLED" /\
         timestamp (main P) = None).
Proof.
  split; [apply killNode_inert|].
  intros l c0 c1 rest -> Hk Hch Hi0 Hi1 [p' [sa1 [sa2 Hdec]]].
  rewrite (killNode_unfold isColorSupported now l Hk). eexists; split; [reflexivity|].
  pose proof (killable_procOwn l Hk) as Hp.
  cbn [lnode lchildren outAcc]. rewrite Hch. cbn [set_nth].
  destruct (kill_recompute (lnode l) c0 c1 rest Hp Hi0 Hi1) as [Hs Hr].
  unfold notifyStatus; cbn [fst snd].
  split; [exact Hr|]. split; [exact Hs|]. split.
  - apply sinks_after_checkSerial; reflexivity.
  - apply (append_kill_message now (outOwn l) (outAcc l) _ p' sa1 sa2 _ Hdec). discriminate.
Qed.

(** A witness of C8: on the leaf with only its two sinks, the kill sets
    the leaf's status to ['killed']. *)
Lemma killNode_spec_witness :
  exists l', killNode false 0%Z (Some exLeafSinks) = (Some l', true) /\ status (lnode l') = killed.
Proof.
  destruct (proj2 (killNode_spec false 0%Z (Some exLeafSinks)) exLeafSinks
              (exSinkNode "stdout"%string) (exSinkNode "stderr"%string) []
              eq_refl eq_refl eq_refl eq_refl eq_refl
              (ex_intro _ tt (ex_intro _ [] (ex_intro _ [] eq_refl))))
    as [l' [H1 [_ [H2 _]]]].
  exists l'. split; [exact H1|]. rewrite H2. reflexivity.
Defined.

End KillFacts.

Module ReadFacts.
Import Read.

(** C10: with [enableUnreadMarker] false, [markNodeAsRead] returns the
    state unchanged for every argument, null included: no [read] flag,
    no unread set and no other part of the tree changes, and the notify
    pass, with the listeners it would call, does not run. *)
Theorem markNodeAsRead_disabled (notifyUpdate : list nat -> RState -> RState)
    (node : option (list nat)) (st : RState) :
  markNodeAsRead notifyUpdate false node st = st.
Proof. reflexivity. Qed.

End ReadFacts.

(* ================================================================== *)
(** * Further properties of the keymapping trie *)

Module KeymapExtra.
Import Keymap KeymapFacts.

(** *** Construction, read back *)

Lemma buildTrie_trie qs : forall t done t',
  TrieOf t done -> buildTrie qs t = KOk t' -> TrieOf t' (done ++ qs).
Proof.
  induction qs as [|[a s] qs IH]; intros t done t' Ht Hb; simpl in Hb.
  - injection Hb as <-. rewrite app_nil_r. exact Ht.
  - destruct s as [|k s0]; [discriminate|].
    destruct (insertSeq a (map keymappingToString (k :: s0)) t) as [t1|o] eqn:Ei; [|discriminate].
    replace (done ++ (a, k :: s0) :: qs) with ((done ++ [(a, k :: s0)]) ++ qs)
      by (rewrite <- app_assoc; reflexivity).
    apply (IH t1); [|exact Hb]. apply (TrieOf_insert t); [exact Ht|discriminate|exact Ei].
Qed.

Lemma TrieOf_perm t l l' : TrieOf t l -> Permutation l l' -> TrieOf t l'.
Proof.
  intros [H0 [HA HB]] Hp. split; [|split].
  - intros e He. apply H0. apply (Permutation_in _ (Permutation_sym Hp) He).
  - intros p a Hb. destruct (HA p a Hb) as [s [Hs Hk]].
    exists s. split; [exact (Permutation_in _ Hp Hs)|exact Hk].
  - intros e He. apply HB. apply (Permutation_in _ (Permutation_sym Hp) He).
Qed.

Lemma ck_trie cfg t :
  constructKeymapping cfg = KOk t -> TrieOf t (flattenEntries cfg).
Proof.
  intro H. apply (TrieOf_perm t (sortByLen (flattenEntries cfg))); [|apply sortByLen_perm].
  exact (buildTrie_trie _ emptyNode [] t TrieOf_empty H).
Qed.

(** A successful construction leaves no two entries with one token
    sequence a prefix of (or equal to) the other. *)
Lemma ck_prefix_free cfg t :
  constructKeymapping cfg = KOk t ->
  forall e1 e2 rest r, Permutation (flattenEntries cfg) (e1 :: e2 :: rest) ->
  keysOf e2 <> keysOf e1 ++ r.
Proof.
  intros Eb e1 e2 rest r Hperm Hk.
  pose proof (sortByLen_perm (flattenEntries cfg)) as Hp.
  unfold constructKeymapping in Eb.
  set (qs := sortByLen (flattenEntries cfg)) in *.
  assert (Hne' : forall e, In e qs -> snd e <> [])
    by (exact (proj1 (buildTrie_trie _ emptyNode [] t TrieOf_empty Eb))).
  assert (Hq : Permutation (e1 :: e2 :: rest) qs)
    by (symmetry; transitivity (flattenEntries cfg); assumption).
  destruct (in_split e1 qs (Permutation_in _ Hq (or_introl eq_refl))) as [u1 [u2 Hu]].
  rewrite Hu in Hq. apply Permutation_cons_app_inv in Hq.
  assert (Hin2 : In e2 (u1 ++ u2)) by exact (Permutation_in _ Hq (or_introl eq_refl)).
  apply in_app_or in Hin2 as [Hin2|Hin2].
  - destruct (in_split _ _ Hin2) as [v1 [v2 Hv]]. subst u1.
    assert (Hs : lenLe e2 e1).
    { apply (StronglySorted_mid lenLe v1 e2 (v2 ++ e1 :: u2)).
      - rewrite <- app_assoc in Hu. cbn [app] in Hu. rewrite <- Hu. apply sortByLen_sorted.
      - apply in_or_app; right; left; reflexivity. }
    unfold lenLe in Hs. rewrite <- !length_keysOf in Hs.
    apply (buildTrie_ok qs emptyNode [] t TrieOf_empty Hne' Eb
             (v1 ++ e2 :: v2) e1 u2 e2 [] Hu); [apply in_elt|].
    exact (prefix_same_length _ _ _ Hk Hs).
  - destruct (in_split _ _ Hin2) as [v1 [v2 Hv]]. subst u2.
    apply (buildTrie_ok qs emptyNode [] t TrieOf_empty Hne' Eb
             (u1 ++ e1 :: v1) e2 v2 e1 r); [|apply in_elt|exact Hk].
    rewrite Hu, <- app_assoc. reflexivity.
Qed.

Lemma two_in_perm {A} (l : list A) x y :
  In x l -> In y l -> x <> y -> exists rest, Permutation l (x :: y :: rest).
Proof.
  intros Hx Hy Hne. destruct (in_split _ _ Hx) as [l1 [l2 ->]].
  assert (Hy' : In y (l1 ++ l2)).
  { apply in_app_or in Hy as [H|[H|H]]; apply in_or_app; auto. congruence. }
  destruct (in_split _ _ Hy') as [m1 [m2 Hm]].
  exists (m1 ++ m2). rewrite <- Permutation_middle. apply perm_skip.
  rewrite Hm. symmetry. apply Permutation_middle.
Qed.

(** *** Typing a bound sequence *)

Lemma runKeys_path names t evs : forall cur ks a,
  map (fun ev => normalizeKey names (fst ev) (snd ev)) evs = ks -> ks <> [] ->
  boundAt cur ks = Some a ->
  (forall p r, ks = p ++ r -> p <> [] -> r <> [] -> boundAt cur p = None) ->
  runKeys names t cur evs = (t, [a]).
Proof.
  induction evs as [|[i k] evs IH]; intros cur ks a Hks Hne Hb Hpre; [exfalso; apply Hne; rewrite <- Hks; reflexivity|].
  cbn [map fst snd] in Hks. subst ks.
  cbn [runKeys useActionStep]. unfold matchKeymapping.
  cbn [boundAt] in Hb.
  destruct (mget (normalizeKey names i k) (children cur)) as [c|] eqn:Ec; [|discriminate].
  destruct evs as [|ev evs'].
  - cbn [map boundAt] in Hb. rewrite Hb. reflexivity.
  - assert (Hc : action c = None).
    { specialize (Hpre [normalizeKey names i k] (map (fun ev => normalizeKey names (fst ev) (snd ev))
                                                   (ev :: evs')) eq_refl ltac:(discriminate)
                                                   ltac:(discriminate)).
      cbn [boundAt] in Hpre. rewrite Ec in Hpre. exact Hpre. }
    rewrite Hc.
    rewrite (IH c _ a eq_refl ltac:(discriminate) Hb).
    + reflexivity.
    + intros p r Hp Hp0 Hr. specialize (Hpre (normalizeKey names i k :: p) r).
      cbn [boundAt] in Hpre. rewrite Ec in Hpre. apply Hpre; [rewrite Hp; reflexivity|discriminate|exact Hr].
Qed.

(** Along a bound path, every proper prefix of the keystrokes calls no
    action. *)
Lemma runKeys_path_prefix names t evs1 : forall evs2 cur ks a,
  map (fun ev => normalizeKey names (fst ev) (snd ev)) (evs1 ++ evs2) = ks -> evs2 <> [] ->
  boundAt cur ks = Some a ->
  (forall p r, ks = p ++ r -> p <> [] -> r <> [] -> boundAt cur p = None) ->
  snd (runKeys names t cur evs1) = [].
Proof.
  induction evs1 as [|[i k] evs1 IH]; intros evs2 cur ks a Hks Hne Hb Hpre; [reflexivity|].
  cbn [app map fst snd] in Hks. subst ks.
  cbn [runKeys useActionStep]. unfold matchKeymapping.
  cbn [boundAt] in Hb.
  destruct (mget (normalizeKey names i k) (children cur)) as [c|] eqn:Ec; [|discriminate].
  assert (Hc : action c = None).
  { assert (Hr : map (fun ev => normalizeKey names (fst ev) (snd ev)) (evs1 ++ evs2) <> []).
    { destruct evs1, evs2; cbn; congruence. }
    specialize (Hpre [normalizeKey names i k] _ eq_refl ltac:(discriminate) Hr).
    cbn [boundAt] in Hpre. rewrite Ec in Hpre. exact Hpre. }
  rewrite Hc.
  destruct (runKeys names t c evs1) as [fin fired] eqn:Er.
  cbn [snd]. change fired with (snd (fin, fired)). rewrite <- Er.
  apply (IH evs2 c _ a eq_refl Hne Hb).
  intros p r Hp Hp0 Hr. specialize (Hpre (normalizeKey names i k :: p) r).
  cbn [boundAt] in Hpre. rewrite Ec in Hpre. apply Hpre; [rewrite Hp; reflexivity|discriminate|exact Hr].
Qed.

(** *** Token strings *)

Lemma str_length_app (s1 s2 : string) :
  String.length (s1 ++ s2) = String.length s1 + String.length s2.
Proof. induction s1 as [|c s1 IH]; simpl; [reflexivity|rewrite IH; reflexivity]. Qed.

Lemma flag_length b c : String.length c = 1 -> String.length (flag b c) = 1.
Proof. destruct b; simpl; auto. Qed.

(** A special key's token never equals the token of a one-character key. *)
Lemma special_char_ne nm b1 b2 ch c m s :
  String.length ch = 1 ->
  keymappingToString (KSpecial nm b1 b2) <> keymappingToString (KChar ch c m s).
Proof.
  intros Hch H. destruct ch as [|x [|y ch]]; [discriminate| |discriminate].
  destruct nm as [|z [|w nm]].
  - destruct b1, b2, c, m, s; discriminate.
  - destruct b1, b2, c, m, s; discriminate.
  - apply (f_equal String.length) in H. cbn [keymappingToString] in H.
    rewrite !str_length_app in H. cbn in H.
    destruct b1, b2, c, m, s; simpl in H; lia.
Qed.

(** The first character of [toLowerCase s] is never an upper-case ASCII
    letter. *)
Lemma toLowerCase_head x s :
  exists y r, toLowerCase (String x s) = String y r /\
              ~ (65 <= nat_of_ascii y <= 90).
Proof.
  cbn [toLowerCase]. eexists _, _; split; [reflexivity|].
  destruct (Nat.leb 65 (nat_of_ascii x) && Nat.leb (nat_of_ascii x) 90) eqn:E.
  - apply andb_true_iff in E as [E1 E2]. apply Nat.leb_le in E1, E2.
    rewrite nat_ascii_embedding by lia. lia.
  - intros [H1 H2]. apply Nat.leb_le in H1, H2. rewrite H1, H2 in E. discriminate.
Qed.

Lemma specialToken_special names key t :
  specialToken names key = Some t -> exists nm b1 b2, t = keymappingToString (KSpecial nm b1 b2).
Proof.
  induction names as [|n ns IH]; cbn [specialToken]; [discriminate|].
  destruct (pressed key n); [|exact IH].
  intro H; injection H as <-.
  clear IH.
  destruct (String.eqb n "tab"); [exists n, false, (kshift key); reflexivity|].
  destruct (_ || _); [exists n, false, false|exists n, (kctrl key), (kshift key)]; reflexivity.
Qed.

(** Every token [normalizeKey] produces is a special key's token, or the
    token of the lower-cased input with the key's modifiers. *)
Lemma normalizeKey_cases names input key :
  (exists nm b1 b2, normalizeKey names input key = keymappingToString (KSpecial nm b1 b2)) \/
  normalizeKey names input key
  = keymappingToString (KChar (toLowerCase input) (kctrl key) (kmeta key) (kshift key)).
Proof.
  unfold normalizeKey.
  repeat match goal with
         | |- context [if ?b then _ else _] => destruct b
         end; try (left; eauto; fail).
  destruct (specialToken names key) as [t|] eqn:E; [left; exact (specialToken_special _ _ _ E)|].
  right; reflexivity.
Qed.

(** Keys as the configuration writes them: a character is one
    character, and a special key's name has no [;]. *)
Fixpoint noSemicolon (s : string) : bool :=
  match s with
  | EmptyString => true
  | String c s' => negb (Ascii.eqb c ";"%char) && noSemicolon s'
  end.

Definition validKey (k : NotiosConfigKeymapping) : bool :=
  match k with
  | KChar ch _ _ _ => Nat.eqb (String.length ch) 1
  | KSpecial nm _ _ => noSemicolon nm
  end.

Lemma semicolon_split s1 s2 a b :
  noSemicolon s1 = true -> noSemicolon s2 = true ->
  (s1 ++ String ";" a = s2 ++ String ";" b)%string -> s1 = s2 /\ a = b.
Proof.
  revert s2; induction s1 as [|x s1 IH]; intros [|y s2] H1 H2 H; simpl in *.
  - injection H; auto.
  - injection H as Hy _. subst y. discriminate.
  - injection H as Hx _. subst x. discriminate.
  - injection H as -> H. apply andb_true_iff in H1 as [_ H1], H2 as [_ H2].
    destruct (IH s2 H1 H2 H) as [-> ->]; auto.
Qed.

(** *** Examples *)

Definition kG : NotiosConfigKeymapping := KChar "g" false false false.
Definition kX : NotiosConfigKeymapping := KChar "x" false false false.

(** [g] to [A], [x x] to [B], [x g] to [C]. *)
Definition exCfgOk : KeymapConfig :=
  [("A", Some [RootOne kG]); ("B", Some [RootSeq [kX; kX]]); ("C", Some [RootSeq [kX; kG]])]%string.

Definition exTrieOk : KeymappingNode :=
  match constructKeymapping exCfgOk with KOk t => t | _ => emptyNode end.

(** A key event with no modifier and no special key. *)
Definition bareKey : Key := mkKey false false false (fun _ => false).

(** *** The help entry added by [useAction] *)

Lemma flatten_filter (P : string -> bool) cfg :
  filter (fun e => P (fst e)) (flattenEntries cfg) = flattenEntries (filter (fun e => P (fst e)) cfg).
Proof.
  induction cfg as [|[k v] cfg IH]; [reflexivity|].
  unfold flattenEntries in *. cbn [flat_map filter fst snd]. rewrite filter_app, IH.
  destruct (P k) eqn:E; cbn [flat_map fst snd]; [f_equal|].
  - destruct v as [rs|]; [|reflexivity].
    induction rs as [|r rs IHr]; cbn [map filter fst]; [reflexivity|]. rewrite E, IHr. reflexivity.
  - destruct v as [rs|]; [|reflexivity].
    induction rs as [|r rs IHr]; cbn [map filter fst]; [reflexivity|]. rewrite E. exact IHr.
Qed.

Lemma filter_none {A} (f : A -> bool) l : existsb f l = false -> filter f l = [].
Proof.
  induction l as [|x l IH]; [reflexivity|]. cbn [existsb filter].
  destruct (f x); [discriminate|exact IH].
Qed.

Lemma filter_help_single (cfg : KeymapConfig) :
  NoDup (map fst cfg) -> existsb (fun e => String.eqb (fst e) "help") cfg = true ->
  exists e, filter (fun e => String.eqb (fst e) "help") cfg = [e].
Proof.
  induction cfg as [|e r IH]; [discriminate|].
  intros Hnd Hex. cbn [map] in Hnd. apply NoDup_cons_iff in Hnd as [Hn Hnd].
  cbn [filter existsb] in *.
  destruct (String.eqb (fst e) "help") eqn:E.
  - exists e. f_equal. apply filter_none.
    apply String.eqb_eq in E.
    destruct (existsb _ r) eqn:Er; [exfalso|reflexivity].
    apply existsb_exists in Er as [x [Hx Hxe]]. apply String.eqb_eq in Hxe.
    apply Hn. rewrite E, <- Hxe. apply in_map, Hx.
  - apply IH; assumption.
Qed.

Lemma filter_map_help (P : string -> bool) (cfg : KeymapConfig) :
  P "help"%string = false ->
  filter (fun e => P (fst e)) (map (fun e => if String.eqb (fst e) "help" then helpEntry else e) cfg)
  = filter (fun e => P (fst e)) cfg.
Proof.
  intro Hp. induction cfg as [|e r IH]; [reflexivity|]. cbn [map filter].
  destruct (String.eqb (fst e) "help") eqn:E; cbn [fst helpEntry].
  - apply String.eqb_eq in E. rewrite Hp, E, Hp. exact IH.
  - destruct (P (fst e)); [f_equal|]; exact IH.
Qed.

Lemma filter_map_help_is (cfg : KeymapConfig) :
  filter (fun e => String.eqb (fst e) "help")
    (map (fun e => if String.eqb (fst e) "help" then helpEntry else e) cfg)
  = map (fun _ => helpEntry) (filter (fun e => String.eqb (fst e) "help") cfg).
Proof.
  induction cfg as [|e r IH]; [reflexivity|]. cbn [map filter].
  destruct (String.eqb (fst e) "help") eqn:E; cbn [fst helpEntry].
  - cbn [map]. rewrite IH. reflexivity.
  - rewrite E. exact IH.
Qed.

(** *** Theorems *)

(** X1: a keymap built without error binds each flattened entry's key
    sequence (as tokens) to its action, and every key sequence it binds is
    that of a configured entry. *)
Theorem constructKeymapping_bindings cfg t :
  constructKeymapping cfg = KOk t ->
  (forall e, In e (flattenEntries cfg) -> boundAt t (keysOf e) = Some (fst e)) /\
  (forall p a, boundAt t p = Some a ->
     exists s, In (a, s) (flattenEntries cfg) /\ keysOf (a, s) = p).
Proof.
  intro H. destruct (ck_trie cfg t H) as [_ [HA HB]]. split; [exact HB|exact HA].
Qed.

Lemma constructKeymapping_bindings_witness :
  constructKeymapping exCfgOk = KOk exTrieOk /\
  boundAt exTrieOk (keysOf ("C", [kX; kG])%string) = Some "C"%string.
Proof.
  assert (H : constructKeymapping exCfgOk = KOk exTrieOk) by (vm_compute; reflexivity).
  split; [exact H|].
  exact (proj1 (constructKeymapping_bindings exCfgOk exTrieOk H) ("C", [kX; kG])%string
           ltac:(simpl; auto)).
Defined.

(** X2: construction succeeds exactly when no flattened entry has an
    empty key sequence and no entry's sequence extends (or equals) another
    entry's sequence. *)
Theorem constructKeymapping_ok_iff cfg :
  (exists t, constructKeymapping cfg = KOk t) <->
  (forall e, In e (flattenEntries cfg) -> snd e <> []) /\
  (forall e1 e2 rest r, Permutation (flattenEntries cfg) (e1 :: e2 :: rest) ->
     keysOf e2 <> keysOf e1 ++ r).
Proof.
  split.
  - intros [t H]. split; [exact (proj1 (ck_trie cfg t H))|exact (ck_prefix_free cfg t H)].
  - intros [Hne Hpf].
    destruct (constructKeymapping cfg) as [t|a|act rep other] eqn:E; [eauto|exfalso|exfalso].
    + unfold constructKeymapping in E.
      refine (buildTrie_no_zero _ emptyNode a _ E).
      intros e He; apply Hne; exact (Permutation_in _ (sortByLen_perm _) He).
    + unfold constructKeymapping in E.
      destruct (buildTrie_conflict _ emptyNode [] act rep other TrieOf_empty E)
        as [d1 [y [d2 [x [rest [r [Hq [_ [_ [_ Hk]]]]]]]]]].
      apply (Hpf y x (d1 ++ d2 ++ rest) r); [|exact Hk].
      transitivity (sortByLen (flattenEntries cfg)); [symmetry; apply sortByLen_perm|].
      cbn [app] in Hq. rewrite Hq. rewrite <- Permutation_middle. apply perm_skip.
      rewrite (app_assoc d1 d2 (x :: rest)), (app_assoc d1 d2 rest).
      symmetry; apply Permutation_middle.
Qed.

(** X3: in a keymap built without error, typing the keys of a configured
    sequence from the root calls that entry's action once, at the last
    key, and returns to the root: the whole run calls exactly [a], and
    every proper prefix of the keystrokes calls nothing. *)
Theorem typing_bound_sequence names cfg t a seq evs :
  constructKeymapping cfg = KOk t -> In (a, seq) (flattenEntries cfg) ->
  map (fun ev => normalizeKey names (fst ev) (snd ev)) evs = map keymappingToString seq ->
  runKeys names t t evs = (t, [a]) /\
  (forall evs1 evs2, evs = evs1 ++ evs2 -> evs2 <> [] -> snd (runKeys names t t evs1) = []).
Proof.
  intros H Hin Hev. destruct (ck_trie cfg t H) as [H0 [HA HB]].
  assert (Hpf : forall p r, keysOf (a, seq) = p ++ r -> p <> [] -> r <> [] -> boundAt t p = None).
  { intros p r Hp Hp0 Hr. destruct (boundAt t p) as [b|] eqn:Eb; [exfalso|reflexivity].
    destruct (HA p b Eb) as [s [Hs Hk]].
    assert (Hne : (b, s) <> (a, seq)).
    { intro E. rewrite E in Hk. rewrite <- Hk in Hp.
      apply (f_equal (@List.length _)) in Hp. rewrite length_app in Hp.
      destruct r; [congruence|simpl in Hp; lia]. }
    destruct (two_in_perm _ _ _ Hs Hin Hne) as [rest Hperm].
    apply (ck_prefix_free cfg t H _ _ rest r Hperm). rewrite Hk. exact Hp. }
  split.
  - apply (runKeys_path names t evs t (keysOf (a, seq)) a Hev).
    + apply keysOf_nil, (H0 _ Hin).
    + exact (HB _ Hin).
    + exact Hpf.
  - intros evs1 evs2 -> Hne.
    exact (runKeys_path_prefix names t evs1 evs2 t (keysOf (a, seq)) a Hev Hne (HB _ Hin) Hpf).
Qed.

Lemma typing_bound_sequence_witness :
  runKeys [] exTrieOk exTrieOk [("x", bareKey); ("g", bareKey)]%string = (exTrieOk, ["C"%string]) /\
  snd (runKeys [] exTrieOk exTrieOk [("x", bareKey)]%string) = [].
Proof.
  destruct (typing_bound_sequence [] exCfgOk exTrieOk "C" [kX; kG]
              [("x", bareKey); ("g", bareKey)]%string) as [H1 H2];
    [vm_compute; reflexivity|simpl; auto|vm_compute; reflexivity|].
  split; [exact H1|].
  exact (H2 [("x", bareKey)]%string [("g", bareKey)]%string eq_refl ltac:(discriminate)).
Defined.

(** X4: two keys as the configuration writes them (a character key is one
    character, a special key's name has no [;]) with the same token are
    the same key. *)
Theorem keymappingToString_inj k1 k2 :
  validKey k1 = true -> validKey k2 = true ->
  keymappingToString k1 = keymappingToString k2 -> k1 = k2.
Proof.
  intros V1 V2 H.
  destruct k1 as [c1 a1 b1 d1|n1 a1 b1], k2 as [c2 a2 b2 d2|n2 a2 b2]; cbn [validKey] in V1, V2.
  - apply Nat.eqb_eq in V1, V2.
    destruct c1 as [|x1 [|y1 r1]]; simpl in V1; try discriminate.
    destruct c2 as [|x2 [|y2 r2]]; simpl in V2; try discriminate.
    cbn [keymappingToString] in H. simpl in H. injection H as -> H.
    destruct a1, b1, d1, a2, b2, d2; try discriminate; reflexivity.
  - exfalso. apply Nat.eqb_eq in V1.
    exact (special_char_ne n2 a2 b2 c1 a1 b1 d1 V1 (eq_sym H)).
  - exfalso. apply Nat.eqb_eq in V2.
    exact (special_char_ne n1 a1 b1 c2 a2 b2 d2 V2 H).
  - cbn [keymappingToString] in H.
    destruct (semicolon_split n1 n2 _ _ V1 V2 H) as [-> Hf].
    destruct a1, b1, a2, b2; try discriminate; reflexivity.
Qed.

Lemma keymappingToString_inj_witness :
  KSpecial "pageUp" true false = KSpecial "pageUp" true false.
Proof.
  apply keymappingToString_inj; reflexivity.
Defined.

(** X5: no keystroke is normalised to the token of a character key whose
    character is an upper-case ASCII letter, so such a binding never
    matches. *)
Theorem normalizeKey_never_uppercase names input key c ctrl meta shift :
  65 <= nat_of_ascii c <= 90 ->
  normalizeKey names input key <> keymappingToString (KChar (String c EmptyString) ctrl meta shift).
Proof.
  intros Hc H. destruct (normalizeKey_cases names input key) as [[nm [b1 [b2 E]]]|E];
    rewrite E in H.
  - exact (special_char_ne nm b1 b2 (String c EmptyString) ctrl meta shift eq_refl H).
  - destruct input as [|x s].
    + apply (f_equal String.length) in H. cbn [keymappingToString toLowerCase] in H.
      rewrite !str_length_app, !flag_length in H by reflexivity. simpl in H. lia.
    + destruct (toLowerCase_head x s) as [y [r [Ey Hy]]].
      cbn [keymappingToString] in H. rewrite Ey in H. simpl in H.
      injection H as Hyc _. subst y. exact (Hy Hc).
Qed.

Lemma normalizeKey_never_uppercase_witness :
  normalizeKey [] "G" (mkKey false false true (fun _ => false))
  <> keymappingToString (KChar "G" false false true).
Proof.
  apply normalizeKey_never_uppercase. split; apply Nat.leb_le; reflexivity.
Defined.

(** X6: with distinct action names, the trie [useAction] builds for a
    page binds [help] to [?] only, and every other action's sequences are
    those configured, in the same order. *)
Theorem withHelp_entries cfg :
  NoDup (map fst cfg) ->
  filter (fun e => String.eqb (fst e) "help") (flattenEntries (withHelp cfg))
  = [("help", [KChar "?" false false false])]%string /\
  filter (fun e => negb (String.eqb (fst e) "help")) (flattenEntries (withHelp cfg))
  = filter (fun e => negb (String.eqb (fst e) "help")) (flattenEntries cfg).
Proof.
  intro Hnd.
  rewrite !(flatten_filter (fun k => String.eqb k "help")),
          !(flatten_filter (fun k => negb (String.eqb k "help"))).
  unfold withHelp. destruct (existsb _ cfg) eqn:Ex.
  - split.
    + rewrite filter_map_help_is.
      destruct (filter_help_single cfg Hnd Ex) as [e He]. rewrite He. reflexivity.
    + rewrite (filter_map_help (fun k => negb (String.eqb k "help"))) by reflexivity.
      reflexivity.
  - rewrite !filter_app. split.
    + rewrite (filter_none _ _ Ex). reflexivity.
    + cbn [filter helpEntry fst]. rewrite app_nil_r. reflexivity.
Qed.

Lemma withHelp_entries_witness :
  filter (fun e => String.eqb (fst e) "help")
    (flattenEntries (withHelp [("help", Some [RootOne kX]); ("A", Some [RootOne kG])]%string))
  = [("help", [KChar "?" false false false])]%string.
Proof.
  apply withHelp_entries. vm_compute.
  constructor; [intros [H|[]]; discriminate|constructor; [intros []|constructor]].
Defined.

End KeymapExtra.

(* ------------------------------------------------------------------ *)
(** ** Appending output, restart and exit: further properties *)

Module KillExtra.
Import Proc Log Kill ProcFacts KillFacts.

Definition isStamped (l : LogLine) : bool :=
  match timestamp (main l) with Some _ => true | None => false end.

(** The number of committed (timestamped) lines. *)
Definition stampedCount (ls : list LogLine) : nat := List.length (filter isStamped ls).

Section AppendMore.
Context {E : AnsiLib}.

Lemma ensureLine_idem acc : ensureLine (ensureLine acc) = ensureLine acc.
Proof. unfold ensureLine; destruct (lines acc) eqn:El; cbn [lines]; [reflexivity|rewrite El; reflexivity]. Qed.

Lemma appendAction_ensure now acc sty a :
  appendAction now (acc, sty) a = appendAction now (ensureLine acc, sty) a.
Proof. cbv beta iota zeta delta [appendAction]. rewrite ensureLine_idem. reflexivity. Qed.

Lemma ensureLine_shape acc :
  exists x, lines (ensureLine acc) = removelast (lines acc) ++ [x] /\
    lineCount (ensureLine acc) = lineCount acc /\
    stampedCount (lines (ensureLine acc)) = stampedCount (lines acc) /\
    (Forall (fun l => isStamped l = true) (removelast (lines acc)) ->
     Forall (fun l => isStamped l = true) (removelast (lines (ensureLine acc)))) /\
    logText (lines (ensureLine acc)) = logText (lines acc).
Proof.
  destruct (lines acc) as [|y r] eqn:El.
  - exists (pendingLine (lineCount acc) []). unfold ensureLine. rewrite El. cbn.
    repeat split; constructor.
  - destruct (exists_last (l := y :: r) ltac:(discriminate)) as [r' [z Ez]].
    exists z. rewrite (ensureLine_snoc acc r' z) by (rewrite El; exact Ez).
    rewrite El, Ez, removelast_last. repeat split; auto.
Qed.

Lemma stampedCount_snoc pre x :
  stampedCount (pre ++ [x]) = stampedCount pre + (if isStamped x then 1 else 0).
Proof.
  unfold stampedCount. rewrite filter_app, length_app. cbn [filter].
  destruct (isStamped x); reflexivity.
Qed.

Lemma logText_snoc pre x :
  logText (pre ++ [x]) = logText pre ++ (match pre with [] => [] | _ => [10%Z] end)
                          ++ printable (content (main x)).
Proof.
  destruct pre as [|y r]; [cbn; apply app_nil_r|]. cbn [app logText].
  rewrite flat_map_app, !app_assoc. cbn [flat_map]. rewrite app_nil_r. reflexivity.
Qed.

Lemma checkTimestamp_count now acc pre x :
  lines acc = pre ++ [x] ->
  lineCount (checkTimestamp now acc) = (lineCount acc + if isStamped x then 0 else 1)%Z.
Proof.
  intro H. unfold checkTimestamp, isStamped. rewrite H, rev_unit.
  destruct (timestamp (main x)); cbn [lineCount]; lia.
Qed.

Lemma commitLine_stamped now x : isStamped (commitLine now x) = true.
Proof. unfold commitLine, isStamped. destruct (timestamp (main x)) eqn:Et; [rewrite Et|]; reflexivity. Qed.

Lemma commitLine_content now x : content (main (commitLine now x)) = content (main x).
Proof. unfold commitLine. destruct (timestamp (main x)); reflexivity. Qed.

Lemma push_stamped t x : isStamped (push_content t x) = isStamped x.
Proof. reflexivity. Qed.

(** One action, on an accumulator whose lines are [pre ++ [x]]: what the
    four properties below need. *)
Lemma step_props now acc sty a pre x :
  lines acc = pre ++ [x] ->
  let acc' := fst (appendAction now (acc, sty) a) in
  (exists y suf, lines acc' = pre ++ y :: suf) /\
  (Z.of_nat (stampedCount (lines acc')) - lineCount acc'
   = Z.of_nat (stampedCount (lines acc)) - lineCount acc)%Z /\
  (Forall (fun l => isStamped l = true) pre ->
   Forall (fun l => isStamped l = true) (removelast (lines acc'))) /\
  logText (lines acc') = logText (lines acc) ++ actionText a.
Proof.
  intro H. cbv zeta.
  assert (Hc := checkTimestamp_count now acc pre x H).
  assert (Hl := checkTimestamp_snoc now acc pre x H).
  assert (He := ensureLine_snoc acc pre x H).
  destruct a as [b|c|s].
  - (* print *)
    cbv beta iota zeta delta [appendAction]. rewrite He. cbn [fst actionText].
    unfold pushToken. cbn [lines lineCount set_lines]. rewrite Hl, updLast_snoc, Hc.
    split; [eauto|]. split.
    + rewrite H, !stampedCount_snoc, push_stamped, commitLine_stamped.
      destruct (isStamped x); lia.
    + split.
      * intro Hf. rewrite removelast_last. exact Hf.
      * rewrite H, !logText_snoc. cbn [push_content main content].
        rewrite printable_push_print, commitLine_content, !app_assoc. reflexivity.
  - cbv beta iota zeta delta [appendAction]. rewrite He.
    destruct (Ascii.eqb c (ascii_of_nat 9)) eqn:Et; [|destruct (Ascii.eqb c (ascii_of_nat 10)) eqn:En];
      cbn [fst actionText]; rewrite ?Et, ?En.
    + (* tab *)
      unfold pushToken. cbn [lines lineCount set_lines]. rewrite Hl, updLast_snoc, Hc.
      split; [eauto|]. split.
      * rewrite H, !stampedCount_snoc, push_stamped, commitLine_stamped.
        destruct (isStamped x); lia.
      * split; [intro Hf; rewrite removelast_last; exact Hf|].
        rewrite H, !logText_snoc. cbn [push_content main content].
        rewrite printable_push_print, commitLine_content, !app_assoc. reflexivity.
    + (* newline *)
      cbn [lines lineCount]. rewrite Hl, Hc, <- app_assoc.
      split; [do 2 eexists; reflexivity|]. split.
      * rewrite app_assoc, H, !stampedCount_snoc, commitLine_stamped. cbn [pendingLine isStamped main timestamp].
        destruct (isStamped x); lia.
      * split.
        -- intro Hf. rewrite app_assoc, removelast_last. apply Forall_app. split; [exact Hf|].
           constructor; [apply commitLine_stamped|constructor].
        -- rewrite app_assoc, H, !logText_snoc. cbn [pendingLine main content printable flat_map].
           rewrite commitLine_content.
           destruct pre; cbn [app]; rewrite ?app_nil_r, <- ?app_assoc; reflexivity.
    + (* other control *)
      split; [rewrite H; eauto|]. split; [reflexivity|].
      split; [intro Hf; rewrite H, removelast_last; exact Hf|]. rewrite app_nil_r. reflexivity.
  - (* style *)
    cbv beta iota zeta delta [appendAction]. rewrite He. cbn [fst actionText].
    unfold pushToken. cbn [lines lineCount set_lines]. rewrite H, updLast_snoc.
    split; [eauto|]. split.
    + rewrite !stampedCount_snoc, push_stamped. lia.
    + split; [intro Hf; rewrite removelast_last; exact Hf|].
      rewrite !logText_snoc. cbn [push_content main content].
      rewrite printable_push_style, app_nil_r. reflexivity.
Qed.

Lemma fold_props now acts : forall acc sty,
  let acc' := fst (fold_left (appendAction now) acts (acc, sty)) in
  (lines acc' = lines acc \/ exists y suf, lines acc' = removelast (lines acc) ++ y :: suf) /\
  (Z.of_nat (stampedCount (lines acc')) - lineCount acc'
   = Z.of_nat (stampedCount (lines acc)) - lineCount acc)%Z /\
  (Forall (fun l => isStamped l = true) (removelast (lines acc)) ->
   Forall (fun l => isStamped l = true) (removelast (lines acc'))) /\
  logText (lines acc') = logText (lines acc) ++ flat_map actionText acts.
Proof.
  induction acts as [|a acts IH]; intros acc sty; cbv zeta.
  - cbn [fold_left flat_map]. rewrite app_nil_r. auto.
  - cbn [fold_left flat_map]. rewrite appendAction_ensure.
    destruct (ensureLine_shape acc) as [x [Hx [Hc [Hs [Hf Ht]]]]].
    destruct (step_props now (ensureLine acc) sty a _ x Hx) as [[y [suf P1]] [P2 [P3 P4]]].
    destruct (appendAction now (ensureLine acc, sty) a) as [acc1 sty1] eqn:Ea.
    cbn [fst] in P1, P2, P3, P4.
    destruct (IH acc1 sty1) as [Q1 [Q2 [Q3 Q4]]]. cbv zeta in Q1, Q2, Q3, Q4.
    split; [right|split; [|split]].
    + destruct Q1 as [Q1|[y' [suf' Q1]]]; [rewrite Q1; eauto|].
      rewrite Q1, P1, removelast_app by discriminate.
      destruct (removelast (y :: suf) ++ y' :: suf') as [|z w] eqn:Ez;
        [exfalso; exact (app_cons_not_nil _ _ _ (eq_sym Ez))|].
      rewrite <- app_assoc, Ez. eauto.
    + rewrite Q2, P2, Hc, Hs. reflexivity.
    + intro H0. apply Q3, P3, H0.
    + rewrite Q4, P4, Ht, app_assoc. reflexivity.
Qed.

Lemma appendLogToNode_snd now bs own acc :
  snd (appendLogToNode now bs own acc)
  = fst (fold_left (appendAction now) (snd (decodeAnsiBytes (currentParser own) bs))
                   (acc, currentSty own)).
Proof.
  unfold appendLogToNode. destruct (decodeAnsiBytes (currentParser own) bs) as [p acts].
  cbn [snd]. destruct (fold_left (appendAction now) acts (acc, currentSty own)); reflexivity.
Qed.

(** X7: appending output never changes a line before the last one, and
    raises [lineCount] by exactly the number of lines it commits (gives a
    timestamp). *)
Theorem appendLogToNode_committed now bs own acc :
  let acc' := snd (appendLogToNode now bs own acc) in
  (exists suf, lines acc' = removelast (lines acc) ++ suf) /\
  (lineCount acc' - lineCount acc
   = Z.of_nat (stampedCount (lines acc')) - Z.of_nat (stampedCount (lines acc)))%Z.
Proof.
  cbv zeta. rewrite appendLogToNode_snd.
  destruct (fold_props now (snd (decodeAnsiBytes (currentParser own) bs)) acc (currentSty own))
    as [Q1 [Q2 _]].
  split; [|lia].
  destruct Q1 as [Q1|[y [suf Q1]]]; rewrite Q1; [|eauto].
  destruct (lines acc) as [|z r] eqn:El; [exists []; reflexivity|].
  destruct (exists_last (l := z :: r) ltac:(discriminate)) as [r' [w Ew]].
  rewrite Ew, removelast_last. eauto.
Qed.

(** X8: if every line but the last is committed, this stays so after
    appending output. *)
Theorem appendLogToNode_committed_prefix now bs own acc :
  Forall (fun l => isStamped l = true) (removelast (lines acc)) ->
  Forall (fun l => isStamped l = true) (removelast (lines (snd (appendLogToNode now bs own acc)))).
Proof.
  rewrite appendLogToNode_snd.
  apply (fold_props now (snd (decodeAnsiBytes (currentParser own) bs)) acc (currentSty own)).
Qed.

(** X9: the printed text of the log (printable bytes, lines joined by
    line breaks) grows by exactly the text of the decoded actions: each
    printable byte, a space per tab, a line break per newline. *)
Theorem appendLogToNode_text now bs own acc :
  logText (lines (snd (appendLogToNode now bs own acc)))
  = logText (lines acc) ++ flat_map actionText (snd (decodeAnsiBytes (currentParser own) bs)).
Proof.
  rewrite appendLogToNode_snd.
  apply (fold_props now (snd (decodeAnsiBytes (currentParser own) bs)) acc (currentSty own)).
Qed.

End AppendMore.

Lemma appendLogToNode_committed_prefix_witness :
  Forall (fun l => isStamped l = true)
    (removelast (lines (snd (@appendLogToNode toyAnsi 5%Z [104; 105; 10; 33]%Z (@mkLogOwn toyAnsi tt tt)
                               emptyLogAccumulated)))).
Proof.
  apply (appendLogToNode_committed_prefix (E := toyAnsi)). constructor.
Defined.

(** *** Restart and exit *)

Lemma filter_all_ignored rest :
  Forall (fun c => ignored c = true) rest -> filter (fun c => negb (ignored c)) rest = [].
Proof. induction 1 as [|c r Hc _ IH]; [reflexivity|]. cbn [filter]. rewrite Hc. exact IH. Qed.

Lemma exit_recompute n p0 p1 rest code :
  status p0 = finished -> status p1 = finished -> ignored p0 = false -> ignored p1 = false ->
  exitCode p0 = code -> exitCode p1 = code -> Forall (fun c => ignored c = true) rest ->
  recomputeStatus n (p0 :: p1 :: rest) = set_exitCode code (set_status finished n).
Proof.
  intros S0 S1 I0 I1 E0 E1 Hr. unfold recomputeStatus. cbn [filter].
  rewrite I0, I1, (filter_all_ignored rest Hr). cbn [negb map fold_left].
  rewrite S0, S1, E0, E1. cbv [allIs jsMax fold_left map ProcStatus_eqb].
  rewrite andb_false_r. cbn [Z.max Z.eqb].
  unfold orExit. cbn [truthyExit]. destruct (truthyExit code); reflexivity.
Qed.

Lemma promote_sink c :
  status c = running \/ status c = finished ->
  status (promote c) = finished /\ ignored (promote c) = ignored c.
Proof.
  unfold promote. intros [H|H]; rewrite H; cbn [ProcStatus_eqb]; auto.
Qed.

Section RestartExit.
Context {E : AnsiLib}.

(** X11: when a process exits while both sinks are live (running or
    finished) and every other child is ignored, the two notify passes of
    the exit callback leave the node ['finished'] with the exit code of
    the process. *)
Theorem onExit_finished (code : ExitCode) (l : LeafView) c0 c1 rest :
  lchildren l = c0 :: c1 :: rest ->
  ignored c0 = false -> ignored c1 = false ->
  status c0 = running \/ status c0 = finished ->
  status c1 = running \/ status c1 = finished ->
  Forall (fun c => ignored c = true) rest ->
  status (lnode (onExit code l)) = finished /\ exitCode (lnode (onExit code l)) = code.
Proof.
  intros Hch I0 I1 S0 S1 Hr.
  destruct (promote_sink c0 S0) as [P0 J0], (promote_sink c1 S1) as [P1 J1].
  unfold onExit. rewrite Hch. cbn [exitSinks set_nth].
  set (p0 := set_exitCode code (promote c0)). set (p1 := set_exitCode code (promote c1)).
  assert (Hrec : forall n, recomputeStatus n (p0 :: p1 :: rest)
                           = set_exitCode code (set_status finished n))
    by (intro n; apply exit_recompute; cbn [p0 p1 set_exitCode status ignored exitCode];
        rewrite ?P0, ?P1, ?J0, ?J1; auto).
  unfold notifyStatus. rewrite Hrec.
  unfold checkSerial at 1. cbn [status set_exitCode set_status ProcStatus_eqb andb fst].
  rewrite !Hrec. split; reflexivity.
Qed.

End RestartExit.

Lemma onExit_finished_witness :
  status (lnode (@onExit toyAnsi (ECNum 3) exLeafSinks)) = finished /\
  exitCode (lnode (@onExit toyAnsi (ECNum 3) exLeafSinks)) = ECNum 3.
Proof.
  apply (onExit_finished (E := toyAnsi) (ECNum 3) exLeafSinks
           (exSinkNode "stdout") (exSinkNode "stderr") []);
    [reflexivity|reflexivity|reflexivity|left; reflexivity|left; reflexivity|constructor].
Defined.

End KillExtra.

(* ------------------------------------------------------------------ *)
(** ** Merge and eviction: further properties *)

Module LogExtra.
Import Log LogFacts.

Definition sumLineCounts (chs : list LNode) : Z :=
  fold_right Z.add 0%Z (map (fun c => lineCount (logAcc c)) chs).

Lemma fold_lineCount chs : forall known acc added,
  lineCount (snd (fst (fold_left mergeChild chs (known, acc, added))))
  = (lineCount acc + sumLineCounts chs)%Z.
Proof.
  induction chs as [|c r IH]; intros known acc added; cbn [fold_left]; [cbn; lia|].
  cbv beta iota zeta delta [mergeChild].
  destruct (Nat.ltb 0 _); [destruct (nth_error (lines (logAcc c)) _)|];
    rewrite IH; cbn [lineCount set_lineCount set_lastLineToTitle sumLineCounts map fold_right];
    unfold sumLineCounts; cbn [map fold_right]; lia.
Qed.

Lemma In_firstn_skipn {A} (x : A) n m l : In x (firstn n (skipn m l)) -> In x l.
Proof.
  intro H. rewrite <- (firstn_skipn m l). apply in_or_app; right.
  rewrite <- (firstn_skipn n (skipn m l)). apply in_or_app; left; exact H.
Qed.

Lemma fold_added chs : forall known acc added x,
  In x (snd (fold_left mergeChild chs (known, acc, added))) ->
  In x added \/
  exists c y, In c chs /\ In y (lines (logAcc c)) /\ main x = main y /\
              In (title x) (titlesFrom known chs).
Proof.
  induction chs as [|c r IH]; intros known acc added x H; cbn [fold_left] in H; [auto|].
  cbv beta iota zeta delta [mergeChild] in H.
  set (t := freshTitle known (lname c)) in H.
  destruct (Nat.ltb 0 _);
    [destruct (nth_error (lines (logAcc c)) _)|];
    (apply IH in H; destruct H as [H|[c' [y [Hc [Hy [Hm Ht]]]]]];
     [|right; exists c', y; split; [right; exact Hc|]; split; [exact Hy|]; split; [exact Hm|];
       right; exact Ht]);
    try (left; exact H);
    (apply in_app_or in H; destruct H as [H|H]; [left; exact H|right];
     apply in_map_iff in H; destruct H as [e [<- He]];
     exists c, e; split; [left; reflexivity|]; split; [exact (In_firstn_skipn _ _ _ _ He)|];
     split; [reflexivity|left; reflexivity]).
Qed.

Lemma insertByTs_perm x l : Permutation (insertByTs x l) (x :: l).
Proof.
  induction l as [|y ys IH]; simpl; [reflexivity|].
  destruct (Z.leb _ _); [reflexivity|]. rewrite IH. apply perm_swap.
Qed.

Lemma sortByTs_perm l : Permutation (sortByTs l) l.
Proof. induction l as [|x xs IH]; simpl; [reflexivity|]. rewrite insertByTs_perm, IH. reflexivity. Qed.

Definition tsLe (a b : LogLine) : Prop := (tsKey a <= tsKey b)%Z.

Lemma insertByTs_sorted x l : Sorted tsLe l -> Sorted tsLe (insertByTs x l).
Proof.
  induction 1 as [|y ys Hs IH Hhd]; simpl; [repeat constructor|].
  destruct (Z.leb (tsKey x) (tsKey y)) eqn:E.
  - apply Z.leb_le in E. constructor; [constructor; assumption|constructor; exact E].
  - apply Z.leb_gt in E. constructor; [exact IH|].
    destruct ys as [|z zs]; simpl; [constructor; unfold tsLe; lia|].
    inversion Hhd as [|? ? Hyz]; subst.
    destruct (Z.leb (tsKey x) (tsKey z)); constructor; unfold tsLe in *; lia.
Qed.

Lemma sortByTs_sorted l : Sorted tsLe (sortByTs l).
Proof. induction l as [|x xs IH]; simpl; [constructor|]. apply insertByTs_sorted, IH. Qed.

(** X12: after a notify pass with at least one non-ignored child, the
    node's [lineCount] is the sum of the non-ignored children's
    [lineCount]s; with none, it is unchanged. *)
Theorem notifyLog_lineCount color hk hc (node : LNode) (children : list LNode) :
  lineCount (logAcc (notifyLog color hk hc node children))
  = match filter (fun c => negb (lignored c)) children with
    | [] => lineCount (logAcc node)
    | chs => sumLineCounts chs
    end.
Proof.
  unfold notifyLog.
  match goal with |- context [evictHistory color hk hc ?a ?o] =>
    pose proof (proj1 (evictHistory_other color hk hc a o)) as E;
    destruct (evictHistory color hk hc a o) as [acc2 om] eqn:Ev end.
  cbn [logAcc]. simpl fst in E. rewrite E.
  destruct (filter _ children) as [|c r]; [reflexivity|].
  rewrite mergeLines_eq. cbv zeta. cbn [lineCount set_lines].
  rewrite fold_lineCount. cbn [lineCount set_lineCount]. lia.
Qed.

(** X13: a merge keeps the node's existing lines and appends a block
    sorted by timestamp, each of whose lines carries the [main] object
    of a line of one of the merged children, under a title given in this
    pass. *)
Theorem mergeLines_appended acc chs :
  exists added, lines (mergeLines acc chs) = lines acc ++ added /\
    Sorted tsLe added /\
    forall x, In x added ->
      exists c y, In c chs /\ In y (lines (logAcc c)) /\ main x = main y /\
                  In (title x) (titlesFrom objectProtoNames chs).
Proof.
  rewrite mergeLines_eq. cbv zeta.
  exists (sortByTs (snd (fold_left mergeChild chs (objectProtoNames, set_lineCount 0%Z acc, [])))).
  split; [cbn [lines set_lines]; rewrite fold_lines; reflexivity|].
  split; [apply sortByTs_sorted|].
  intros x Hx. apply (Permutation_in _ (sortByTs_perm _)) in Hx.
  destruct (fold_added chs objectProtoNames (set_lineCount 0%Z acc) [] x Hx) as [Hin|H];
    [exact (False_ind _ Hin)|exact H].
Qed.

Lemma freshTitleFrom_candidate known name fuel : forall cnt,
  exists k, freshTitleFrom known name cnt fuel = titleCandidate name k.
Proof.
  induction fuel as [|f IH]; intro cnt; cbn [freshTitleFrom]; [eauto|].
  destruct (existsb _ known); [apply IH|eauto].
Qed.

Lemma fold_known chs : forall known acc added,
  fst (fst (fold_left mergeChild chs (known, acc, added))) = rev (titlesFrom known chs) ++ known.
Proof.
  induction chs as [|c r IH]; intros known acc added; [reflexivity|].
  cbn [fold_left titlesFrom rev].
  pose proof (mergeChild_known known acc added c) as Hk.
  destruct (mergeChild (known, acc, added) c) as [[k a] b]. cbn [fst] in Hk. subst k.
  rewrite IH, <- app_assoc. reflexivity.
Qed.

(** X14: the titles one merge pass gives the children are pairwise
    distinct and distinct from the titles already known; the title of a
    child is its name or its name followed by [(k)]; and the pass records
    exactly these titles as known. *)
Theorem merge_titles known chs acc added :
  NoDup (titlesFrom known chs) /\
  (forall t, In t (titlesFrom known chs) -> ~ In t known) /\
  Forall2 (fun c t => exists k, t = titleCandidate (lname c) k) chs (titlesFrom known chs) /\
  fst (fst (fold_left mergeChild chs (known, acc, added))) = rev (titlesFrom known chs) ++ known.
Proof.
  split; [|split; [apply titlesFrom_fresh|split; [|apply fold_known]]].
  - revert known. induction chs as [|c r IH]; intro known; cbn [titlesFrom]; constructor.
    + intro H. apply (titlesFrom_fresh r _ _ H). left; reflexivity.
    + apply IH.
  - revert known. induction chs as [|c r IH]; intro known; cbn [titlesFrom]; constructor.
    + apply freshTitleFrom_candidate.
    + apply IH.
Qed.

(** X15: eviction never changes the first [headSize] lines nor the last
    [tailSize] lines; it changes nothing (lines, [logOmitted]) when there
    are at most [headSize + tailSize] lines, and sets [logOmitted] when
    it drops lines. *)
Theorem evictHistory_keeps color hk hc acc om :
  let h := Z.to_nat (Z.max 0 hk) in
  let t := Z.to_nat (Z.max 1 (hc + 1)) in
  let r := evictHistory color hk hc acc om in
  firstn h (lines (fst r)) = firstn h (lines acc) /\
  lastn t (lines (fst r)) = lastn t (lines acc) /\
  (List.length (lines acc) <= h + t -> r = (acc, om)) /\
  (h + t < List.length (lines acc) -> snd r = true).
Proof.
  cbv zeta. unfold evictHistory. cbv zeta.
  set (ls := lines acc). set (h := Z.to_nat (Z.max 0 hk)). set (t := Z.to_nat (Z.max 1 (hc + 1))).
  destruct (Z.ltb (Z.max 0 hk + Z.max 1 (hc + 1)) (Z.of_nat (List.length ls))) eqn:Hlt.
  - apply Z.ltb_lt in Hlt.
    assert (Hh : List.length (firstn h ls) = h) by (rewrite length_firstn; lia).
    assert (Ht : List.length (lastn t (skipn h ls)) = t)
      by (apply length_lastn; rewrite length_skipn; lia).
    assert (Hl : lastn t (skipn h ls) = lastn t ls).
    { unfold lastn. rewrite skipn_skipn, length_skipn. f_equal. lia. }
    cbn [fst snd lines set_lines]. rewrite Hl in Ht |- *.
    split; [|split; [|split; [lia|reflexivity]]].
    + rewrite firstn_app, Hh, Nat.sub_diag, app_nil_r. apply firstn_all2. lia.
    + unfold lastn at 1. rewrite length_app, Hh. cbn [List.length]. rewrite Ht.
      rewrite skipn_app, Hh. replace (h + S t - t - h) with 1 by lia.
      rewrite skipn_all2 by lia. reflexivity.
  - apply Z.ltb_ge in Hlt. cbn [fst snd]. split; [reflexivity|split; [reflexivity|]].
    split; [reflexivity|lia].
Qed.

End LogExtra.

(* ------------------------------------------------------------------ *)
(** ** Read marking: further properties *)

Module ReadExtra.
Import Proc ProcFacts Read.

(** The locations in the unread sets of a subtree, in the order
    [internal] visits them. *)
Fixpoint allUnread (t : RNode) : list nat :=
  match t with
  | mkRNode un kids =>
    un ++ (fix go (ks : list RNode) : list nat :=
             match ks with [] => [] | k :: ks' => allUnread k ++ go ks' end) kids
  end.

(** A subtree with every unread set emptied. *)
Fixpoint clearAll (t : RNode) : RNode :=
  match t with mkRNode _ kids => mkRNode [] (map clearAll kids) end.

(** The node at a path. *)
Fixpoint subtreeAt (p : list nat) (t : RNode) : option RNode :=
  match p with
  | [] => Some t
  | i :: p' => match t with
               | mkRNode _ kids => match nth_error kids i with
                                   | Some k => subtreeAt p' k
                                   | None => None
                                   end
               end
  end.

(** [f] applied to the node at a path, the rest of the tree unchanged. *)
Fixpoint updateAt (p : list nat) (f : RNode -> RNode) (t : RNode) : RNode :=
  match p with
  | [] => f t
  | i :: p' => match t with mkRNode un kids => mkRNode un (set_nth i (updateAt p' f) kids) end
  end.

Lemma RNode_ind' (P : RNode -> Prop)
  (H : forall un kids, Forall P kids -> P (mkRNode un kids)) : forall t, P t.
Proof.
  exact (fix F t := match t with
                    | mkRNode un kids =>
                      H un kids ((fix G ks := match ks return Forall P ks with
                                              | [] => Forall_nil P
                                              | k :: r => Forall_cons k (F k) (G r)
                                              end) kids)
                    end).
Qed.

Lemma internal_eq t : forall flags,
  internal t flags = (clearAll t, fold_left setRead (allUnread t) flags).
Proof.
  induction t as [un kids HF] using RNode_ind'. intro flags.
  cbn [internal allUnread clearAll]. rewrite fold_left_app.
  generalize (fold_left setRead un flags) as fl. clear flags un.
  induction HF as [|k ks Hk _ IH]; intro fl; [reflexivity|].
  cbn [map fold_left]. rewrite Hk. cbn beta iota. rewrite fold_left_app.
  specialize (IH (fold_left setRead (allUnread k) fl)).
  match type of IH with
  | (let '(_, _) := ?e in _) = _ => destruct e as [ks' fl2] eqn:Eg
  end.
  injection IH as -> ->. reflexivity.
Qed.

Lemma set_nth_const {A} i (f : A -> A) (l : list A) k :
  nth_error l i = Some k -> set_nth i (fun _ => f k) l = set_nth i f l.
Proof.
  revert i; induction l as [|x l IH]; intros [|i] H; cbn in H |- *; try discriminate.
  - injection H as ->. reflexivity.
  - rewrite (IH i H). reflexivity.
Qed.

Lemma internalAt_eq p : forall t flags s,
  subtreeAt p t = Some s ->
  internalAt p t flags = Some (updateAt p clearAll t, fold_left setRead (allUnread s) flags).
Proof.
  induction p as [|i p IH]; intros [un kids] flags s H; cbn [subtreeAt] in H.
  - injection H as <-. cbn [internalAt updateAt]. rewrite internal_eq. reflexivity.
  - cbn [internalAt updateAt]. destruct (nth_error kids i) as [k|] eqn:Ek; [|discriminate].
    rewrite (IH k flags s H). rewrite (set_nth_const i (updateAt p clearAll) kids k Ek).
    reflexivity.
Qed.

Lemma subtreeAt_updateAt p : forall t s f,
  subtreeAt p t = Some s -> subtreeAt p (updateAt p f t) = Some (f s).
Proof.
  induction p as [|i p IH]; intros [un kids] s f H; cbn [subtreeAt updateAt] in H |- *.
  - injection H as <-. reflexivity.
  - rewrite nth_error_set_nth, Nat.eqb_refl.
    destruct (nth_error kids i) as [k|]; [|discriminate]. cbn [option_map]. apply IH, H.
Qed.

Lemma allUnread_clearAll t : allUnread (clearAll t) = [].
Proof.
  induction t as [un kids HF] using RNode_ind'. cbn [clearAll allUnread app].
  induction HF as [|k ks Hk _ IH]; [reflexivity|]. cbn [map]. rewrite Hk. exact IH.
Qed.

Lemma setRead_fold_nth locs : forall flags i,
  nth_error (fold_left setRead locs flags) i
  = if existsb (Nat.eqb i) locs then option_map (fun _ => true) (nth_error flags i)
    else nth_error flags i.
Proof.
  induction locs as [|l ls IH]; intros flags i; [reflexivity|].
  cbn [fold_left existsb]. rewrite IH. unfold setRead. rewrite nth_error_set_nth.
  rewrite (Nat.eqb_sym l i).
  destruct (Nat.eqb i l), (existsb (Nat.eqb i) ls); cbn [orb]; try reflexivity.
  destruct (nth_error flags i); reflexivity.
Qed.

(** X16: with [enableUnreadMarker] on, [markNodeAsRead] on a node of the
    tree sets [read] on exactly the lines in the unread sets of the
    node's subtree (other flags keep their value), empties every unread
    set of that subtree, leaves the rest of the tree as it was, and then
    runs the node's notify pass on that state. *)
Theorem markNodeAsRead_marks (notifyUpdate : list nat -> RState -> RState)
    (p : list nat) (st : RState) (s : RNode) :
  subtreeAt p (root st) = Some s ->
  let fl := fold_left setRead (allUnread s) (readFlags st) in
  markNodeAsRead notifyUpdate true (Some p) st
  = notifyUpdate p (mkRState fl (updateAt p clearAll (root st)) (listenerCalls st)) /\
  (forall i, nth_error fl i
             = if existsb (Nat.eqb i) (allUnread s)
               then option_map (fun _ => true) (nth_error (readFlags st) i)
               else nth_error (readFlags st) i) /\
  subtreeAt p (updateAt p clearAll (root st)) = Some (clearAll s) /\
  allUnread (clearAll s) = [].
Proof.
  intro H. cbv zeta. split; [|split; [|split]].
  - unfold markNodeAsRead. cbn [negb]. rewrite (internalAt_eq p (root st) (readFlags st) s H).
    reflexivity.
  - intro i. apply setRead_fold_nth.
  - apply subtreeAt_updateAt, H.
  - apply allUnread_clearAll.
Qed.

(** A root with unread line 0 and a child with unread lines 1 and 3. *)
Definition exReadState : RState :=
  mkRState [false; false; false; false] (mkRNode [0] [mkRNode [1; 3] []]) [].

Lemma markNodeAsRead_marks_witness :
  markNodeAsRead (fun _ st => st) true (Some [0]) exReadState
  = mkRState [false; true; false; true] (mkRNode [0] [mkRNode [] []]) [].
Proof.
  destruct (markNodeAsRead_marks (fun _ st => st) [0] exReadState (mkRNode [1; 3] []) eq_refl)
    as [H _].
  rewrite H. reflexivity.
Defined.

End ReadExtra.

(* ------------------------------------------------------------------ *)
(** ** The node store: re-entrant passes, kill, exit and restart *)

Module TreeFacts.
Import Proc ProcFacts Tree.

(** A call of [$startRunning] made by [$checkSerial] on node [p] for its
    child at index [i], with the nodes [ns] as they were at that moment,
    meets the guard of the source: [p] is serial, the child is waiting,
    and either it is the first child and [p] is running, or its
    predecessor is finished. *)
Definition startGuard (ev : nat * nat * list Node) : Prop :=
  let '(p, i, ns) := ev in
  exists np y ny,
    nth_error ns p = Some np /\ type (core np) = serial /\
    nth_error (children np) i = Some y /\ nth_error ns y = Some ny /\
    status (core ny) = waiting /\
    ((i = 0 /\ status (core np) = running) \/
     exists z nz, nth_error (children np) (i - 1) = Some z /\
                  nth_error ns z = Some nz /\ status (core nz) = finished).

(** Every node of [st] is in [st'], with the same type. *)
Definition keepsTypes (st st' : Store) : Prop :=
  forall z n, getNode st z = Some n ->
  exists n', getNode st' z = Some n' /\ type (core n') = type (core n).

(** *** Reading the store after a write *)

Lemma getNode_upd x f st y :
  getNode (updNode x f st) y = if Nat.eqb x y then option_map f (getNode st y) else getNode st y.
Proof. unfold getNode, updNode; cbn [nodes]. apply nth_error_set_nth. Qed.

Lemma length_upd x f st : List.length (nodes (updNode x f st)) = List.length (nodes st).
Proof. unfold updNode; cbn [nodes]. apply length_set_nth. Qed.

Lemma getNode_lt st y n : getNode st y = Some n -> y < List.length (nodes st).
Proof. unfold getNode; intro H. apply nth_error_Some. congruence. Qed.

Lemma getNode_add_lt n st y :
  y < List.length (nodes st) -> getNode (addNode n st) y = getNode st y.
Proof. intro H. unfold getNode, addNode; cbn [nodes]. apply nth_error_app1, H. Qed.

Lemma getNode_add_new n st : getNode (addNode n st) (List.length (nodes st)) = Some n.
Proof.
  unfold getNode, addNode; cbn [nodes].
  rewrite nth_error_app2, Nat.sub_diag by lia. reflexivity.
Qed.

Lemma getNode_add_inv n st y m :
  getNode (addNode n st) y = Some m ->
  getNode st y = Some m \/ (y = List.length (nodes st) /\ m = n).
Proof.
  unfold getNode, addNode; cbn [nodes]; intro H.
  destruct (Nat.lt_ge_cases y (List.length (nodes st))) as [Hl|Hl].
  - left. rewrite nth_error_app1 in H by exact Hl. exact H.
  - right. rewrite nth_error_app2 in H by exact Hl.
    destruct (y - List.length (nodes st)) as [|k] eqn:Ek; cbn in H.
    + injection H as <-. split; [lia|reflexivity].
    + destruct k; discriminate.
Qed.

Lemma length_add n st : List.length (nodes (addNode n st)) = S (List.length (nodes st)).
Proof. unfold addNode; cbn [nodes]. rewrite length_app; simpl; lia. Qed.

(** A write through [setCore] keeps every node's children and parent. *)
Lemma getNode_setCore_inv x f st y m :
  getNode (updNode x (setCore f) st) y = Some m ->
  exists m0, getNode st y = Some m0 /\ children m = children m0 /\ parent m = parent m0 /\
             core m = (if Nat.eqb x y then f (core m0) else core m0) /\
             (x <> y -> m = m0).
Proof.
  rewrite getNode_upd. destruct (Nat.eqb x y) eqn:E.
  - destruct (getNode st y) as [m0|]; cbn; intro H; [|discriminate].
    injection H as <-. exists m0. apply Nat.eqb_eq in E.
    repeat split; [intro; contradiction].
  - intro H. exists m. apply Nat.eqb_neq in E. repeat split; auto.
Qed.

Lemma getNode_setCore_same x f st m :
  getNode st x = Some m -> getNode (updNode x (setCore f) st) x = Some (setCore f m).
Proof. intro H. rewrite getNode_upd, Nat.eqb_refl, H. reflexivity. Qed.

Lemma getNode_upd_other x f st y : x <> y -> getNode (updNode x f st) y = getNode st y.
Proof. intro H. rewrite getNode_upd. apply Nat.eqb_neq in H. rewrite H. reflexivity. Qed.

(** The store after [attachSinks y], for a node [y] of the store. *)
Lemma getNode_attach_inv y st z m :
  y < List.length (nodes st) ->
  getNode (attachSinks y st) z = Some m ->
  (exists m0, getNode st z = Some m0 /\
     m = (if Nat.eqb y z
          then mkNode (set_raw true (core m0))
                 (List.length (nodes st) :: S (List.length (nodes st)) :: children m0) (parent m0)
          else m0)) \/
  (z = List.length (nodes st) /\ m = sinkNode "<out>" y) \/
  (z = S (List.length (nodes st)) /\ m = sinkNode "<err>" y).
Proof.
  intros Hy. unfold attachSinks. rewrite getNode_upd.
  destruct (Nat.eqb y z) eqn:E.
  - apply Nat.eqb_eq in E; subst z.
    rewrite !getNode_add_lt by (rewrite ?length_add; lia).
    destruct (getNode st y) as [m0|]; cbn; intro H; [|discriminate].
    injection H as <-. left. exists m0. split; reflexivity.
  - intro H. apply getNode_add_inv in H as [H|[-> ->]].
    + apply getNode_add_inv in H as [H|[-> ->]].
      * left. exists m. split; [exact H|reflexivity].
      * right; left. split; reflexivity.
    + right; right. rewrite length_add. split; reflexivity.
Qed.

Lemma getNode_attach_old y st z :
  z < List.length (nodes st) -> y <> z -> getNode (attachSinks y st) z = getNode st z.
Proof.
  intros Hz Hyz. unfold attachSinks. rewrite getNode_upd_other by exact Hyz.
  rewrite !getNode_add_lt by (rewrite ?length_add; lia). reflexivity.
Qed.

Lemma getNode_attach_self y st m :
  getNode st y = Some m ->
  getNode (attachSinks y st) y =
  Some (mkNode (set_raw true (core m))
          (List.length (nodes st) :: S (List.length (nodes st)) :: children m) (parent m)).
Proof.
  intro H. pose proof (getNode_lt _ _ _ H).
  unfold attachSinks. rewrite getNode_upd, Nat.eqb_refl.
  rewrite !getNode_add_lt by (rewrite ?length_add; lia). rewrite H. reflexivity.
Qed.

Lemma getNode_attach_new y st :
  y < List.length (nodes st) ->
  getNode (attachSinks y st) (List.length (nodes st)) = Some (sinkNode "<out>" y) /\
  getNode (attachSinks y st) (S (List.length (nodes st))) = Some (sinkNode "<err>" y).
Proof.
  intro Hy. unfold attachSinks. rewrite !getNode_upd_other by lia. split.
  - rewrite getNode_add_lt by (rewrite length_add; lia). apply getNode_add_new.
  - rewrite <- length_add with (n := sinkNode "<out>" y). apply getNode_add_new.
Qed.

Lemma length_attach y st :
  List.length (nodes (attachSinks y st)) = S (S (List.length (nodes st))).
Proof. unfold attachSinks. rewrite length_upd, !length_add. reflexivity. Qed.

(** *** The status written by the notify pass *)

Lemma recompute_keeps node chs :
  name (recomputeStatus node chs) = name node /\ type (recomputeStatus node chs) = type node /\
  procOwn (recomputeStatus node chs) = procOwn node /\ raw (recomputeStatus node chs) = raw node /\
  ignored (recomputeStatus node chs) = ignored node.
Proof.
  unfold recomputeStatus. destruct (filter _ chs); repeat split.
Qed.

Lemma recompute_running node chs c :
  In c chs -> ignored c = false -> status c = running ->
  status (recomputeStatus node chs) = running.
Proof.
  intros Hin Hi Hs. unfold recomputeStatus.
  assert (Hf : In c (filter (fun c => negb (ignored c)) chs))
    by (apply filter_In; rewrite Hi; auto).
  destruct (filter (fun c => negb (ignored c)) chs) as [|c1 cs] eqn:E; [contradiction|].
  cbn [status set_exitCode set_status].
  assert (Hm : In running (map status (c1 :: cs)))
    by (apply in_map_iff; exists c; auto).
  rewrite !allIs_forallb by discriminate.
  assert (forall t, t <> running -> forallb (fun s => ProcStatus_eqb s t) (map status (c1 :: cs)) = false)
    as Hn.
  { intros t Ht. apply Bool.not_true_iff_false. intro Hall.
    rewrite forallb_forall in Hall. specialize (Hall _ Hm).
    apply ProcStatus_eqb_spec in Hall. congruence. }
  rewrite (Hn killed), (Hn finished), (Hn waiting) by discriminate.
  now destruct (procOwn node).
Qed.

Lemma recompute_killed node chs :
  procOwn node = true -> status node = killed ->
  (forall c, In c chs -> ignored c = false -> status c = killed) ->
  status (recomputeStatus node chs) = killed.
Proof.
  intros Hp Hs Hall. unfold recomputeStatus.
  destruct (filter (fun c => negb (ignored c)) chs) as [|c1 cs] eqn:E; [exact Hs|].
  cbn [status set_exitCode set_status].
  rewrite allIs_forallb by discriminate. rewrite Hp.
  replace (forallb _ _) with true; [reflexivity|].
  symmetry. apply forallb_forall. intros s Hs'.
  apply in_map_iff in Hs' as [c [<- Hc]]. rewrite <- E in Hc.
  apply filter_In in Hc as [Hc Hi].
  apply ProcStatus_eqb_spec. apply Hall; [exact Hc|]. now destruct (ignored c).
Qed.

Lemma getAll_In st ids kids z :
  getAll st ids = Some kids -> In z ids -> exists nz, getNode st z = Some nz /\ In nz kids.
Proof.
  revert kids; induction ids as [|i r IH]; intros kids H Hin; [destruct Hin|].
  cbn in H. destruct (getNode st i) as [ni|] eqn:Ei; [|discriminate].
  destruct (getAll st r) as [ns|] eqn:Er; [|discriminate]. injection H as <-.
  destruct Hin as [<-|Hin].
  - exists ni. split; [exact Ei|left; reflexivity].
  - destruct (IH ns eq_refl Hin) as [nz [H1 H2]]. exists nz. split; [exact H1|right; exact H2].
Qed.

Lemma getAll_inv st ids kids nz :
  getAll st ids = Some kids -> In nz kids -> exists z, In z ids /\ getNode st z = Some nz.
Proof.
  revert kids; induction ids as [|i r IH]; intros kids H Hin.
  - cbn in H. injection H as <-. destruct Hin.
  - cbn in H. destruct (getNode st i) as [ni|] eqn:Ei; [|discriminate].
    destruct (getAll st r) as [ns|] eqn:Er; [|discriminate]. injection H as <-.
    destruct Hin as [<-|Hin].
    + exists i. split; [left; reflexivity|exact Ei].
    + destruct (IH ns eq_refl Hin) as [z [H1 H2]]. exists z. split; [right; exact H1|exact H2].
Qed.

Lemma recomputeAt_inv x st st' :
  recomputeAt x st = Some st' ->
  exists n kids, getNode st x = Some n /\ getAll st (children n) = Some kids /\
    st' = updNode x (setCore (fun _ => recomputeStatus (core n) (map core kids))) st.
Proof.
  unfold recomputeAt. destruct (getNode st x) as [n|] eqn:E1; [|discriminate].
  destruct (getAll st (children n)) as [kids|] eqn:E2; [|discriminate].
  intro H. injection H as <-. exists n, kids. auto.
Qed.

Lemma isSerial_serial t : isSerial t = true -> t = serial.
Proof. destruct t; cbn; congruence. Qed.

Lemma kt_refl st : keepsTypes st st.
Proof. intros z n H. exists n. auto. Qed.

Lemma kt_trans st1 st2 st3 : keepsTypes st1 st2 -> keepsTypes st2 st3 -> keepsTypes st1 st3.
Proof.
  intros H1 H2 z n Hz. destruct (H1 z n Hz) as [n2 [Hz2 Ht2]].
  destruct (H2 z n2 Hz2) as [n3 [Hz3 Ht3]]. exists n3. split; congruence.
Qed.

Lemma kt_record p i st : keepsTypes st (recordStart p i st).
Proof. intros z n H. exists n. split; [exact H|reflexivity]. Qed.

Lemma kt_setCore x f st :
  (forall m, getNode st x = Some m -> type (f (core m)) = type (core m)) ->
  keepsTypes st (updNode x (setCore f) st).
Proof.
  intros Hf z n Hz. rewrite getNode_upd. destruct (Nat.eqb x z) eqn:E; rewrite Hz; cbn.
  - exists (setCore f n). split; [reflexivity|].
    apply Nat.eqb_eq in E; subst z. apply Hf, Hz.
  - exists n. auto.
Qed.

Lemma kt_recompute x st st1 : recomputeAt x st = Some st1 -> keepsTypes st st1.
Proof.
  intro H. destruct (recomputeAt_inv _ _ _ H) as [n [kids [Hx [_ E]]]]. subst st1.
  apply kt_setCore. intros m Hm. rewrite Hx in Hm. injection Hm as <-.
  apply recompute_keeps.
Qed.

Lemma kt_setRunning y st : keepsTypes st (setRunning y st).
Proof. apply kt_setCore. intros; reflexivity. Qed.

Lemma kt_attach y st : y < List.length (nodes st) -> keepsTypes st (attachSinks y st).
Proof.
  intros Hy z n Hz. pose proof (getNode_lt _ _ _ Hz) as Hlt.
  destruct (Nat.eq_dec y z) as [<-|Hne].
  - rewrite (getNode_attach_self _ _ _ Hz). eexists; split; reflexivity.
  - rewrite getNode_attach_old by assumption. exists n. auto.
Qed.

(** *** Properties kept by every pass *)

(** A property [Q] of the store is kept by [notify], [checkSerial],
    [serialLoop] and [startRunning] when every write they make keeps it:
    the recomputation of a node in [O], the start of a waiting node in
    [O], and the record of a call of [$startRunning] that meets its
    guard. [O] bounds the nodes a pass may reach: it holds the parent of
    each of its nodes, and a waiting child of each of its running
    nodes. *)
Section Preserve.
Variable Q : Store -> Prop.
Variable O : nat -> Prop.
Variable OL : nat -> Prop.
Hypothesis HR : forall st x st1, Q st -> O x -> recomputeAt x st = Some st1 -> Q st1.
Hypothesis HP : forall st x n p, Q st -> O x -> getNode st x = Some n -> parent n = Some p -> O p.
Hypothesis HC : forall st x n z nz, Q st -> O x -> getNode st x = Some n ->
  status (core n) = running -> In z (children n) -> getNode st z = Some nz ->
  status (core nz) = waiting -> O z.
Hypothesis HOL : forall st x n, Q st -> O x -> getNode st x = Some n ->
  status (core n) = running -> OL x.
Hypothesis HCL : forall st x n z nz, Q st -> OL x -> getNode st x = Some n ->
  In z (children n) -> getNode st z = Some nz -> status (core nz) = waiting -> O z.
Hypothesis HS : forall st y ny, Q st -> O y -> getNode st y = Some ny ->
  status (core ny) = waiting ->
  Q (setRunning y st) /\ (procOwn (core ny) = true -> Q (attachSinks y (setRunning y st))).
Hypothesis HT : forall st p i, Q st -> startGuard (p, i, nodes st) -> Q (recordStart p i st).

Lemma preserve_all fuel :
  (forall x st st', Q st -> O x -> notify fuel x st = Some st' ->
     Q st' /\ keepsTypes st st') /\
  (forall x st st', Q st -> O x -> checkSerial fuel x st = Some st' ->
     Q st' /\ keepsTypes st st') /\
  (forall i x st st' n, Q st -> OL x -> getNode st x = Some n -> type (core n) = serial ->
     serialLoop fuel i x st = Some st' -> Q st' /\ keepsTypes st st') /\
  (forall y ny st st', Q st -> O y -> getNode st y = Some ny -> status (core ny) = waiting ->
     startRunning fuel y st = Some st' -> Q st' /\ keepsTypes st st').
Proof.
  induction fuel as [|f [IHn [IHc [IHl IHs]]]];
    [repeat split; intros; discriminate|].
  split; [|split; [|split]].
  - intros x st st' HQ HO H. cbn [notify] in H.
    destruct (recomputeAt x st) as [st1|] eqn:E1; [|discriminate].
    pose proof (HR st x st1 HQ HO E1) as HQ1.
    destruct (checkSerial f x st1) as [st2|] eqn:E2; [|discriminate].
    destruct (IHc x st1 st2 HQ1 HO E2) as [HQ2 K2].
    pose proof (kt_trans _ _ _ (kt_recompute _ _ _ E1) K2) as K.
    destruct (getNode st2 x) as [n|] eqn:E3; [|discriminate].
    destruct (parent n) as [p|] eqn:E4; [|injection H as <-; auto].
    destruct (IHn p st2 st' HQ2 (HP st2 x n p HQ2 HO E3 E4) H) as [HQ3 K3].
    split; [exact HQ3|exact (kt_trans _ _ _ K K3)].
  - intros x st st' HQ HO H. cbn [checkSerial] in H.
    destruct (getNode st x) as [n|] eqn:E1; [|discriminate].
    destruct (ProcStatus_eqb (status (core n)) running && isSerial (type (core n))
              && Nat.ltb 0 (List.length (children n))) eqn:G;
      [|injection H as <-; split; [exact HQ|apply kt_refl]].
    destruct (children n) as [|c0 r] eqn:Ec;
      [injection H as <-; split; [exact HQ|apply kt_refl]|].
    destruct (getNode st c0) as [n0|] eqn:E0; [|discriminate].
    apply andb_true_iff in G as [G _]. apply andb_true_iff in G as [G1 G2].
    apply ProcStatus_eqb_spec in G1. apply isSerial_serial in G2.
    destruct (ProcStatus_eqb (status (core n0)) waiting) eqn:W.
    + apply ProcStatus_eqb_spec in W.
      assert (Hg : startGuard (x, 0, nodes st)).
      { exists n, c0, n0. rewrite Ec. repeat split; auto. }
      assert (Hz : O c0).
      { refine (HC st x n c0 n0 HQ HO E1 G1 _ E0 W). rewrite Ec. left; reflexivity. }
      destruct (IHs c0 n0 (recordStart x 0 st) st' (HT st x 0 HQ Hg) Hz E0 W H) as [HQ' K'].
      split; [exact HQ'|exact (kt_trans _ _ _ (kt_record x 0 st) K')].
    + exact (IHl 0 x st st' n HQ (HOL st x n HQ HO E1 G1) E1 G2 H).
  - intros i x st st' n0 HQ HO Hx0 Hser H. cbn [serialLoop] in H.
    rewrite Hx0 in H. set (n := n0) in *.
    destruct (Nat.ltb (i + 1) (List.length (children n))) eqn:Lt;
      [|injection H as <-; split; [exact HQ|apply kt_refl]].
    destruct (nth_error (children n) i) as [a|] eqn:Ea; [|discriminate].
    destruct (nth_error (children n) (i + 1)) as [b|] eqn:Eb; [|discriminate].
    destruct (getNode st a) as [na|] eqn:Ena; [|discriminate].
    destruct (getNode st b) as [nb|] eqn:Enb; [|discriminate].
    destruct (ProcStatus_eqb (status (core na)) finished
              && ProcStatus_eqb (status (core nb)) waiting) eqn:G;
      [|exact (IHl (S i) x st st' n HQ HO Hx0 Hser H)].
    apply andb_true_iff in G as [Ga Gb].
    apply ProcStatus_eqb_spec in Ga, Gb.
    destruct (startRunning f b (recordStart x (i + 1) st)) as [st1|] eqn:Es; [|discriminate].
    assert (Hg : startGuard (x, i + 1, nodes st)).
    { exists n, b, nb. repeat split; auto. right. exists a, na.
      replace (i + 1 - 1) with i by lia. auto. }
    assert (Hb : O b).
    { refine (HCL st x n b nb HQ HO Hx0 _ Enb Gb). eapply nth_error_In; exact Eb. }
    destruct (IHs b nb (recordStart x (i + 1) st) st1 (HT _ _ _ HQ Hg) Hb Enb Gb Es)
      as [HQ1 K1].
    pose proof (kt_trans _ _ _ (kt_record x (i + 1) st) K1) as K.
    destruct (K x n Hx0) as [n' [Hx1 Ht1]].
    destruct (IHl (S i) x st1 st' n' HQ1 HO Hx1 (eq_trans Ht1 Hser) H) as [HQ2 K2].
    split; [exact HQ2|exact (kt_trans _ _ _ K K2)].
  - intros y ny st st' HQ HO Hy Hw H. cbn [startRunning] in H.
    rewrite Hy in H. pose proof (getNode_lt _ _ _ Hy) as Hlt.
    destruct (HS st y ny HQ HO Hy Hw) as [HS1 HS2].
    destruct (procOwn (core ny)) eqn:Ep.
    + destruct (IHn y _ st' (HS2 eq_refl) HO H) as [HQ' K'].
      split; [exact HQ'|].
      refine (kt_trans _ _ _ (kt_setRunning y st) (kt_trans _ _ _ (kt_attach _ _ _) K')).
      unfold setRunning. rewrite length_upd. exact Hlt.
    + destruct (IHc y _ st' HS1 HO H) as [HQ' K'].
      split; [exact HQ'|exact (kt_trans _ _ _ (kt_setRunning y st) K')].
Qed.
End Preserve.

(** *** Serial scheduling on the store *)

(** Children [k] and [k + 1] of [n] are finished and waiting in [st]. *)
Definition pairAt (st : Store) (n : Node) (k : nat) : Prop :=
  exists a b na nb, nth_error (children n) k = Some a /\ nth_error (children n) (k + 1) = Some b /\
    getNode st a = Some na /\ getNode st b = Some nb /\
    status (core na) = finished /\ status (core nb) = waiting.

(** The start of [$checkSerial] on [serial]: a running serial node
    (1) whose first child [a] is waiting and owns a process, then a
    finished child [b] and a waiting child [c]. *)
Definition exSerialStore : Store :=
  mkStore
    [mkNode (mkSNode "<root>" none running ECUndefined false false false) [1] None;
     mkNode (mkSNode "all" serial running ECUndefined false false false) [2; 3; 4] (Some 0);
     mkNode (mkSNode "a" none waiting ECUndefined true false false) [] (Some 1);
     mkNode (mkSNode "b" none finished ECUndefined false false false) [] (Some 1);
     mkNode (mkSNode "c" none waiting ECUndefined false false false) [] (Some 1)] [].

Definition traceFrom (st0 st : Store) : Prop :=
  exists new, starts st = starts st0 ++ new /\ Forall startGuard new.

Lemma trace_all st0 fuel :
  (forall x st st', traceFrom st0 st -> notify fuel x st = Some st' ->
     traceFrom st0 st' /\ keepsTypes st st') /\
  (forall x st st', traceFrom st0 st -> checkSerial fuel x st = Some st' ->
     traceFrom st0 st' /\ keepsTypes st st') /\
  (forall i x st st' n, traceFrom st0 st -> getNode st x = Some n -> type (core n) = serial ->
     serialLoop fuel i x st = Some st' -> traceFrom st0 st' /\ keepsTypes st st') /\
  (forall y ny st st', traceFrom st0 st -> getNode st y = Some ny -> status (core ny) = waiting ->
     startRunning fuel y st = Some st' -> traceFrom st0 st' /\ keepsTypes st st').
Proof.
  destruct (preserve_all (traceFrom st0) (fun _ => True) (fun _ => True)) with (fuel := fuel)
    as [A [B [C D]]].
  - intros st x st1 [new [Hs Hf]] _ H. destruct (recomputeAt_inv _ _ _ H) as [n [kids [_ [_ ->]]]].
    exists new. split; assumption.
  - auto.
  - auto.
  - auto.
  - auto.
  - intros st y ny [new [Hs Hf]] _ _ _. split; intros; exists new; split; assumption.
  - intros st p i [new [Hs Hf]] Hg. exists (new ++ [(p, i, nodes st)]). split.
    + cbn [recordStart starts]. rewrite Hs, app_assoc. reflexivity.
    + apply Forall_app. split; [exact Hf|constructor; [exact Hg|constructor]].
  - split; [|split; [|split]].
    + intros x st st' H1 H2. exact (A x st st' H1 I H2).
    + intros x st st' H1 H2. exact (B x st st' H1 I H2).
    + intros i x st st' n H1 H2 H3 H4. exact (C i x st st' n H1 I H2 H3 H4).
    + intros y ny st st' H1 H2 H3 H4. exact (D y ny st st' H1 I H2 H3 H4).
Qed.

Lemma traceFrom_refl st : traceFrom st st.
Proof. exists []. split; [symmetry; apply app_nil_r|constructor]. Qed.

Lemma serialLoop_first fuel i x st st' n :
  getNode st x = Some n -> type (core n) = serial ->
  serialLoop fuel i x st = Some st' ->
  (st' = st /\ forall k, i <= k -> ~ pairAt st n k) \/
  (exists k new, i <= k /\ pairAt st n k /\ (forall j, i <= j -> j < k -> ~ pairAt st n j) /\
     starts st' = starts st ++ (x, k + 1, nodes st) :: new).
Proof.
  revert i st st'. induction fuel as [|f IH]; intros i st st' Hx Hser H; [discriminate|].
  cbn [serialLoop] in H. rewrite Hx in H.
  destruct (Nat.ltb (i + 1) (List.length (children n))) eqn:Lt.
  2:{ injection H as <-. left. split; [reflexivity|].
      intros k Hk [a [b [na [nb [_ [Hb _]]]]]].
      apply Nat.ltb_ge in Lt.
      assert (Hb' : nth_error (children n) (k + 1) <> None) by congruence.
      apply nth_error_Some in Hb'. lia. }
  destruct (nth_error (children n) i) as [a|] eqn:Ea; [|discriminate].
  destruct (nth_error (children n) (i + 1)) as [b|] eqn:Eb; [|discriminate].
  destruct (getNode st a) as [na|] eqn:Ena; [|discriminate].
  destruct (getNode st b) as [nb|] eqn:Enb; [|discriminate].
  destruct (ProcStatus_eqb (status (core na)) finished
            && ProcStatus_eqb (status (core nb)) waiting) eqn:G.
  - apply andb_true_iff in G as [Ga Gb]. apply ProcStatus_eqb_spec in Ga, Gb.
    destruct (startRunning f b (recordStart x (i + 1) st)) as [st1|] eqn:Es; [|discriminate].
    destruct (trace_all (recordStart x (i + 1) st) f) as [_ [_ [_ TS]]].
    destruct (TS b nb _ _ (traceFrom_refl _) Enb Gb Es) as [[new1 [Hs1 _]] K1].
    destruct (K1 x n Hx) as [n1 [Hx1 Ht1]].
    destruct (trace_all st1 f) as [_ [_ [TL _]]].
    destruct (TL (S i) x st1 st' n1 (traceFrom_refl _) Hx1 (eq_trans Ht1 Hser) H)
      as [[new2 [Hs2 _]] _].
    right. exists i, (new1 ++ new2). split; [lia|]. split.
    { exists a, b, na, nb. repeat split; assumption. }
    split; [intros j Hj1 Hj2; lia|].
    rewrite Hs2, Hs1. cbn [recordStart starts]. rewrite <- !app_assoc. reflexivity.
  - assert (Hnp : ~ pairAt st n i).
    { intros [a' [b' [na' [nb' [Ha' [Hb' [Hna' [Hnb' [Sa Sb]]]]]]]]].
      rewrite Ea in Ha'. rewrite Eb in Hb'. injection Ha' as <-. injection Hb' as <-.
      rewrite Ena in Hna'. rewrite Enb in Hnb'. injection Hna' as <-. injection Hnb' as <-.
      rewrite Sa, Sb in G. discriminate. }
    destruct (IH (S i) st st' Hx Hser H) as [[-> Hno]|[k [new [Hk [Hp [Hbefore Hs]]]]]].
    + left. split; [reflexivity|]. intros k Hk.
      destruct (Nat.eq_dec k i) as [->|Hne]; [exact Hnp|apply Hno; lia].
    + right. exists k, new. split; [lia|]. split; [exact Hp|]. split; [|exact Hs].
      intros j Hj1 Hj2. destruct (Nat.eq_dec j i) as [->|Hne]; [exact Hnp|apply Hbefore; lia].
Qed.





(** *** The exit callback after a kill *)

(** Each child of a node names it as parent, and a parent is older than
    its children: [$createNode] and [$startRunning] give a new node the
    next identity, put it among its parent's children and make that
    node its parent. *)
Definition wellFormed (st : Store) : Prop :=
  (forall y ny z, getNode st y = Some ny -> In z (children ny) ->
     exists nz, getNode st z = Some nz /\ parent nz = Some y) /\
  (forall y ny p, getNode st y = Some ny -> parent ny = Some p -> p < y).

Definition wfNodeb (st : Store) (y : nat) : bool :=
  match getNode st y with
  | None => true
  | Some ny =>
    forallb (fun z => match getNode st z with
                      | Some nz => match parent nz with
                                   | Some p => Nat.eqb p y
                                   | None => false
                                   end
                      | None => false
                      end) (children ny)
    && match parent ny with Some p => Nat.ltb p y | None => true end
  end.

Definition wellFormedb (st : Store) : bool :=
  forallb (wfNodeb st) (seq 0 (List.length (nodes st))).

(** The nodes below [L] in [st]: [L] and the nodes whose parent is below
    [L]. *)
Inductive desc (st : Store) (L : nat) : nat -> Prop :=
| desc_here : desc st L L
| desc_below y ny p : getNode st y = Some ny -> parent ny = Some p -> desc st L p -> desc st L y.

(** The four writes of the exit callback before its notify passes. *)
Definition exitWrites (code : ExitCode) (o e : nat) (st : Store) : Store :=
  updNode e (setCore (set_exitCode code))
    (updNode o (setCore (set_exitCode code))
       (updNode e (setCore Kill.promote) (updNode o (setCore Kill.promote) st))).

(** A leaf job ([1]) with its two sinks, all running, under the root. *)
Definition exLeafStore : Store :=
  mkStore
    [mkNode (mkSNode "<root>" none running ECUndefined false false false) [1] None;
     mkNode (mkSNode "job" none running ECUndefined true true false) [2; 3] (Some 0);
     sinkNode "<out>" 1; sinkNode "<err>" 1] [].

(** [exLeafStore] after [killNode] on the job. *)
Definition exKilledStore : Store :=
  match killNode 20 (Some 1) exLeafStore with
  | Some st => st
  | None => exLeafStore
  end.

(** A waiting node without a process, created under the killed job. *)
Definition lateParams : NodeParams := mkParams "late" none waiting ECUndefined false.

Lemma wellFormedb_sound st : wellFormedb st = true -> wellFormed st.
Proof.
  unfold wellFormedb. rewrite forallb_forall. intro H.
  assert (Hy : forall y ny, getNode st y = Some ny -> wfNodeb st y = true).
  { intros y ny Hy. apply H. apply in_seq. pose proof (getNode_lt _ _ _ Hy). lia. }
  split.
  - intros y ny z Hny Hz. specialize (Hy y ny Hny). unfold wfNodeb in Hy. rewrite Hny in Hy.
    apply andb_true_iff in Hy as [Hc _]. rewrite forallb_forall in Hc.
    specialize (Hc z Hz). destruct (getNode st z) as [nz|]; [|discriminate].
    exists nz. split; [reflexivity|].
    destruct (parent nz) as [p|]; [|discriminate]. apply Nat.eqb_eq in Hc. congruence.
  - intros y ny p Hny Hp. specialize (Hy y ny Hny). unfold wfNodeb in Hy. rewrite Hny, Hp in Hy.
    apply andb_true_iff in Hy as [_ Hl]. apply Nat.ltb_lt, Hl.
Qed.

Lemma exitCallback_writes fuel code o e st :
  exitCallback fuel code o e st =
  match notify fuel o (exitWrites code o e st) with
  | None => None
  | Some st2 => notify fuel e st2
  end.
Proof. reflexivity. Qed.

Lemma getNode_setCore_map x f st y :
  getNode (updNode x (setCore f) st) y =
  option_map (fun m => if Nat.eqb x y then setCore f m else m) (getNode st y).
Proof.
  rewrite getNode_upd. destruct (Nat.eqb x y); [reflexivity|].
  destruct (getNode st y); reflexivity.
Qed.

Lemma promote_status_idem c :
  status (Kill.promote (Kill.promote c)) = status (Kill.promote c).
Proof.
  unfold Kill.promote. destruct (ProcStatus_eqb (status c) running) eqn:E; cbn;
    [reflexivity|rewrite E; reflexivity].
Qed.

Lemma promote_ignored c : ignored (Kill.promote c) = ignored c.
Proof. unfold Kill.promote. destruct (ProcStatus_eqb (status c) running); reflexivity. Qed.

Lemma promote_killed c : status c = killed -> status (Kill.promote c) = killed.
Proof. unfold Kill.promote. intro H. rewrite H. exact H. Qed.

Lemma promote_not_waiting c : status c <> waiting -> status (Kill.promote c) <> waiting.
Proof.
  intro H. unfold Kill.promote.
  destruct (ProcStatus_eqb (status c) running); cbn; [discriminate|exact H].
Qed.

Lemma exitWrites_inv code o e st y m :
  getNode (exitWrites code o e st) y = Some m ->
  exists m0, getNode st y = Some m0 /\ children m = children m0 /\ parent m = parent m0 /\
    ignored (core m) = ignored (core m0) /\
    (y <> o -> y <> e -> m = m0) /\
    (y = o \/ y = e ->
       status (core m) = status (Kill.promote (core m0)) /\ exitCode (core m) = code).
Proof.
  unfold exitWrites. rewrite !getNode_setCore_map.
  destruct (getNode st y) as [m0|]; cbn; intro H; [|discriminate]. injection H as <-.
  exists m0. split; [reflexivity|].
  destruct (Nat.eqb o y) eqn:Eo, (Nat.eqb e y) eqn:Ee;
    apply Nat.eqb_eq in Eo || apply Nat.eqb_neq in Eo;
    apply Nat.eqb_eq in Ee || apply Nat.eqb_neq in Ee;
    (split; [reflexivity|]); (split; [reflexivity|]);
    (split; [cbn [setCore core set_exitCode ignored]; rewrite ?promote_ignored; reflexivity|]);
    (split; [intros; first [reflexivity|congruence]|]);
    intros Hy; first [destruct Hy; congruence
                     |cbn [setCore core set_exitCode status exitCode];
                      rewrite ?promote_status_idem; split; reflexivity].
Qed.

Lemma exitWrites_some code o e st y m0 :
  getNode st y = Some m0 -> exists m, getNode (exitWrites code o e st) y = Some m.
Proof.
  intro H. unfold exitWrites. rewrite !getNode_setCore_map, H. cbn. eexists; reflexivity.
Qed.

(** A childless node that is not waiting keeps its record through
    every pass. *)
Lemma stable_notify z nz fuel x st st' :
  children nz = [] -> status (core nz) <> waiting -> getNode st z = Some nz ->
  notify fuel x st = Some st' -> getNode st' z = Some nz.
Proof.
  intros Hc Hw Hz H.
  destruct (preserve_all (fun st => getNode st z = Some nz) (fun _ => True) (fun _ => True) )
    with (fuel := fuel) as [A _].
  - intros st0 x0 st1 Hz0 _ E. destruct (recomputeAt_inv _ _ _ E) as [n [kids [Hx [Hk ->]]]].
    rewrite getNode_upd. destruct (Nat.eqb x0 z) eqn:Ex; [|exact Hz0].
    apply Nat.eqb_eq in Ex; subst x0. rewrite Hz0 in Hx. injection Hx as <-.
    rewrite Hc in Hk. injection Hk as <-. rewrite Hz0. cbn.
    destruct nz; reflexivity.
  - auto.
  - auto.
  - auto.
  - auto.
  - intros st0 y ny Hz0 _ Hy Hwy.
    assert (Hne : y <> z) by (intros ->; congruence).
    assert (Hr : getNode (setRunning y st0) z = Some nz)
      by (unfold setRunning; rewrite getNode_upd_other by exact Hne; exact Hz0).
    split; [exact Hr|intros _].
    rewrite getNode_attach_old; [exact Hr| |exact Hne].
    exact (getNode_lt _ _ _ Hr).
  - intros st0 p i Hz0 _. exact Hz0.
  - exact (proj1 (A x st st' Hz I H)).
Qed.

Section ExitAfterKill.
Variables (st0 : Store) (L o e : nat) (nL : Node) (code : ExitCode).
Hypothesis Hwf : wellFormed st0.
Hypothesis HL : getNode st0 L = Some nL.
Hypothesis HLp : procOwn (core nL) = true.
Hypothesis HLk : status (core nL) = killed.
Hypothesis Ho : In o (children nL).
Hypothesis He : In e (children nL).
Hypothesis Hkids : forall z nz, In z (children nL) -> getNode st0 z = Some nz ->
  ignored (core nz) = false -> status (core nz) = killed.
Hypothesis Hsinks : forall z nz, z = o \/ z = e -> getNode st0 z = Some nz ->
  children nz = [] /\ status (core nz) = killed.

Let st1 := exitWrites code o e st0.
Let D := desc st0 L.

Lemma desc_ge y : D y -> L <= y.
Proof.
  induction 1 as [|y ny p Hy Hp _ IH]; [lia|].
  pose proof (proj2 Hwf y ny p Hy Hp). lia.
Qed.

Lemma desc_exists y : D y -> exists ny, getNode st0 y = Some ny.
Proof. intros [|y' ny p Hy _ _]; eauto. Qed.

Lemma child_of_L z : In z (children nL) -> D z /\ L < z.
Proof.
  intro Hz. destruct (proj1 Hwf L nL z HL Hz) as [nz [Hnz Hp]].
  split; [exact (desc_below st0 L z nz L Hnz Hp (desc_here st0 L))|].
  exact (proj2 Hwf z nz L Hnz Hp).
Qed.

(** A node outside [D] has no child in [D] but [L]. *)
Lemma desc_children_st0 y ny z :
  ~ D y -> getNode st0 y = Some ny -> In z (children ny) -> D z -> z = L.
Proof.
  intros Hy Hny Hz HD. destruct (proj1 Hwf y ny z Hny Hz) as [nz [Hnz Hp]].
  destruct HD as [|z nz' p Hnz' Hp' Hdp]; [reflexivity|].
  rewrite Hnz in Hnz'. injection Hnz' as <-. rewrite Hp in Hp'. injection Hp' as <-.
  contradiction.
Qed.

Definition QK (st : Store) : Prop :=
  (forall y, D y -> y <> L -> getNode st y = getNode st1 y) /\
  (exists nL', getNode st L = Some nL' /\ status (core nL') = killed /\
     procOwn (core nL') = true /\ children nL' = children nL /\ parent nL' = parent nL) /\
  (forall y ny p, getNode st y = Some ny -> parent ny = Some p -> D p -> D y) /\
  (forall y ny z, ~ D y -> getNode st y = Some ny -> In z (children ny) -> D z -> z = L).

Definition OK (x : nat) : Prop := D x -> x = o \/ x = e \/ x = L.

Lemma OK_cases x : OK x -> ~ D x \/ x = o \/ x = e \/ x = L.
Proof.
  intro H. destruct (Nat.eq_dec x o) as [->|Ho']; [auto|].
  destruct (Nat.eq_dec x e) as [->|He']; [auto|].
  destruct (Nat.eq_dec x L) as [->|HL']; [auto|].
  left. intro Hd. destruct (H Hd) as [|[|]]; contradiction.
Qed.

Lemma QK_ext st st' : (forall y, getNode st' y = getNode st y) -> QK st -> QK st'.
Proof.
  intros Heq [H1 [[nL' H2] [H3 H4]]]. split; [|split; [|split]].
  - intros y Hy Hne. rewrite Heq. auto.
  - exists nL'. rewrite Heq. exact H2.
  - intros y ny p Hy. rewrite Heq in Hy. eauto.
  - intros y ny z Hd Hy. rewrite Heq in Hy. eauto.
Qed.

Lemma QK_exists st y : QK st -> D y -> exists ny, getNode st y = Some ny.
Proof.
  intros [H1 [[nL' [H2 _]] _]] Hy. destruct (Nat.eq_dec y L) as [->|Hne]; [eauto|].
  rewrite (H1 y Hy Hne). destruct (desc_exists y Hy) as [ny Hny].
  exact (exitWrites_some code o e st0 y ny Hny).
Qed.

Lemma sink_in_st1 z nz :
  z = o \/ z = e -> getNode st1 z = Some nz -> children nz = [] /\ status (core nz) = killed.
Proof.
  intros Hz H. destruct (exitWrites_inv _ _ _ _ _ _ H) as [m0 [H0 [Hc [_ [_ [_ Hs]]]]]].
  destruct (Hsinks z m0 Hz H0) as [Hc0 Hk0]. split; [congruence|].
  rewrite (proj1 (Hs Hz)). apply promote_killed, Hk0.
Qed.

Lemma o_in_D : D o /\ o <> L.
Proof. destruct (child_of_L o Ho). split; [assumption|lia]. Qed.

Lemma e_in_D : D e /\ e <> L.
Proof. destruct (child_of_L e He). split; [assumption|lia]. Qed.

Lemma QK_sink st z nz :
  QK st -> z = o \/ z = e -> getNode st z = Some nz -> children nz = [] /\ status (core nz) = killed.
Proof.
  intros [H1 _] Hz Hnz. apply (sink_in_st1 z nz Hz).
  destruct Hz as [ -> | -> ]; [destruct o_in_D as [Hd Hn]|destruct e_in_D as [Hd Hn]];
    rewrite <- (H1 _ Hd Hn); exact Hnz.
Qed.

Lemma QK_st1 : QK st1.
Proof.
  split; [|split; [|split]].
  - intros; reflexivity.
  - exists nL. split; [|repeat split; assumption].
    destruct o_in_D as [_ Hno]. destruct e_in_D as [_ Hne].
    unfold st1, exitWrites. rewrite !getNode_upd_other by congruence. exact HL.
  - intros y ny p Hy Hp Hdp. destruct (exitWrites_inv _ _ _ _ _ _ Hy) as [m0 [H0 [_ [Hp0 _]]]].
    rewrite Hp0 in Hp. exact (desc_below st0 L y m0 p H0 Hp Hdp).
  - intros y ny z Hd Hy Hz HDz. destruct (exitWrites_inv _ _ _ _ _ _ Hy) as [m0 [H0 [Hc0 _]]].
    rewrite Hc0 in Hz. exact (desc_children_st0 y m0 z Hd H0 Hz HDz).
Qed.

Lemma QK_setCore_outside st y f : QK st -> ~ D y -> QK (updNode y (setCore f) st).
Proof.
  intros [H1 [[nL' [H2a H2b]] [H3 H4]]] Hy. split; [|split; [|split]].
  - intros y' Hy' Hne. rewrite getNode_upd_other by (intros ->; contradiction). auto.
  - exists nL'. rewrite getNode_upd_other by (intros ->; exact (Hy (desc_here st0 L))).
    split; assumption.
  - intros y' ny p Hy'. destruct (getNode_setCore_inv _ _ _ _ _ Hy') as [m0 [H0 [_ [Hp _]]]].
    rewrite Hp. eauto.
  - intros y' ny z Hd Hy'. destruct (getNode_setCore_inv _ _ _ _ _ Hy') as [m0 [H0 [Hc _]]].
    rewrite Hc. eauto.
Qed.

Lemma QK_attach st y : QK st -> ~ D y -> y < List.length (nodes st) -> QK (attachSinks y st).
Proof.
  intros HQ Hy Hlt.
  assert (Hex : forall z, D z -> z < List.length (nodes st)).
  { intros z Hz. destruct (QK_exists st z HQ Hz) as [nz Hnz]. exact (getNode_lt _ _ _ Hnz). }
  assert (Hold : forall z, D z -> getNode (attachSinks y st) z = getNode st z).
  { intros z Hz. apply getNode_attach_old; [exact (Hex z Hz)|]. intros ->. contradiction. }
  destruct HQ as [H1 [[nL' [H2a H2b]] [H3 H4]]]. split; [|split; [|split]].
  - intros y' Hy' Hne. rewrite Hold by exact Hy'. auto.
  - exists nL'. rewrite Hold by exact (desc_here st0 L). split; assumption.
  - intros y' m p Hm Hp Hdp.
    destruct (getNode_attach_inv y st y' m Hlt Hm)
      as [[m0 [H0 ->]]|[[ -> -> ]|[ -> -> ]]].
    + destruct (Nat.eqb y y'); cbn in Hp; eauto.
    + cbn in Hp. injection Hp as <-. contradiction.
    + cbn in Hp. injection Hp as <-. contradiction.
  - intros y' m z Hd Hm Hz HDz.
    destruct (getNode_attach_inv y st y' m Hlt Hm)
      as [[m0 [H0 ->]]|[[ -> -> ]|[ -> -> ]]].
    + destruct (Nat.eqb y y'); cbn in Hz; [|eauto].
      destruct Hz as [<-|[<-|Hz]]; [| |eauto];
        pose proof (Hex _ HDz); lia.
    + destruct Hz.
    + destruct Hz.
Qed.

Lemma QK_kept fuel :
  (forall x st st', QK st -> OK x -> notify fuel x st = Some st' -> QK st').
Proof.
  destruct (preserve_all QK OK (fun x => ~ D x)) with (fuel := fuel) as [A _];
    [| | | | | | |intros x st st' H1 H2 H3; exact (proj1 (A x st st' H1 H2 H3))].
  - (* recomputation *)
    intros st x st' HQ HO E. destruct (recomputeAt_inv _ _ _ E) as [n [kids [Hx [Hk ->]]]].
    destruct HQ as [H1 [[nL' [H2a [H2b [H2c [H2d H2e]]]]] [H3 H4]]].
    destruct (OK_cases x HO) as [HO'|[HO'|[HO'|HO']]].
    + clear HO; rename HO' into HO. split; [|split; [|split]].
      * intros y Hy Hne. rewrite getNode_upd_other by (intros ->; contradiction). auto.
      * exists nL'. rewrite getNode_upd_other by (intros ->; exact (HO (desc_here st0 L))).
        repeat split; assumption.
      * intros y ny p Hy. destruct (getNode_setCore_inv _ _ _ _ _ Hy) as [m0 [H0 [_ [Hp _]]]].
        rewrite Hp. eauto.
      * intros y ny z Hd Hy. destruct (getNode_setCore_inv _ _ _ _ _ Hy) as [m0 [H0 [Hc _]]].
        rewrite Hc. eauto.
    + clear HO; rename HO' into HO. subst x.
      assert (HQ : QK st) by (split; [|split; [exists nL'; repeat split|split]]; assumption).
      destruct (QK_sink st o n HQ (or_introl eq_refl) Hx) as [Hc _].
      rewrite Hc in Hk. injection Hk as <-. apply (QK_ext st); [|exact HQ].
      intro y. rewrite getNode_upd. destruct (Nat.eqb o y) eqn:Ey; [|reflexivity].
      apply Nat.eqb_eq in Ey; subst y. rewrite Hx. cbn. destruct n; reflexivity.
    + clear HO; rename HO' into HO. subst x.
      assert (HQ : QK st) by (split; [|split; [exists nL'; repeat split|split]]; assumption).
      destruct (QK_sink st e n HQ (or_intror eq_refl) Hx) as [Hc _].
      rewrite Hc in Hk. injection Hk as <-. apply (QK_ext st); [|exact HQ].
      intro y. rewrite getNode_upd. destruct (Nat.eqb e y) eqn:Ey; [|reflexivity].
      apply Nat.eqb_eq in Ey; subst y. rewrite Hx. cbn. destruct n; reflexivity.
    + clear HO; rename HO' into HO. subst x. rewrite H2a in Hx. injection Hx as <-.
      split; [|split; [|split]].
      * intros y Hy Hne. rewrite getNode_upd_other by congruence. auto.
      * eexists. rewrite getNode_upd, Nat.eqb_refl, H2a.
        cbn [option_map]. split; [reflexivity|]. unfold setCore; cbn [core children parent].
        destruct (recompute_keeps (core nL') (map core kids)) as [_ [_ [Hp [_ _]]]].
        repeat split; [|congruence|assumption|assumption].
        apply recompute_killed; [exact H2c|exact H2b|].
        intros c Hc Hic. apply in_map_iff in Hc as [nk [<- Hnk]].
        destruct (getAll_inv _ _ _ _ Hk Hnk) as [z [Hz Hgz]].
        rewrite H2d in Hz. destruct (child_of_L z Hz) as [HDz Hlt].
        rewrite (H1 z HDz ltac:(lia)) in Hgz.
        destruct (exitWrites_inv _ _ _ _ _ _ Hgz) as [m0 [H0 [_ [_ [Hi [Hsame Hs]]]]]].
        destruct (Nat.eq_dec z o) as [->|Hzo]; [|destruct (Nat.eq_dec z e) as [->|Hze]].
        -- destruct (Hsinks o m0 (or_introl eq_refl) H0) as [_ Hk0].
           rewrite (proj1 (Hs (or_introl eq_refl))). apply promote_killed, Hk0.
        -- destruct (Hsinks e m0 (or_intror eq_refl) H0) as [_ Hk0].
           rewrite (proj1 (Hs (or_intror eq_refl))). apply promote_killed, Hk0.
        -- rewrite (Hsame Hzo Hze) in Hic |- *. exact (Hkids z m0 Hz H0 Hic).
      * intros y ny p Hy. destruct (getNode_setCore_inv _ _ _ _ _ Hy) as [m0 [H0 [_ [Hp _]]]].
        rewrite Hp. eauto.
      * intros y ny z Hd Hy. destruct (getNode_setCore_inv _ _ _ _ _ Hy) as [m0 [H0 [Hc _]]].
        rewrite Hc. eauto.
  - (* parents *)
    intros st x n p HQ HO Hx Hp.
    destruct (OK_cases x HO) as [HO'|[->|[ -> | -> ]]].
    + intro Hdp. destruct HQ as [_ [_ [H3 _]]]. destruct (HO' (H3 x n p Hx Hp Hdp)).
    + intros _. right; right. destruct HQ as [H1 _].
      destruct o_in_D as [Hd Hn]. rewrite (H1 o Hd Hn) in Hx.
      destruct (exitWrites_inv _ _ _ _ _ _ Hx) as [m0 [H0 [_ [Hp0 _]]]].
      destruct (proj1 Hwf L nL o HL Ho) as [m1 [H1' Hp1]]. congruence.
    + intros _. right; right. destruct HQ as [H1 _].
      destruct e_in_D as [Hd Hn]. rewrite (H1 e Hd Hn) in Hx.
      destruct (exitWrites_inv _ _ _ _ _ _ Hx) as [m0 [H0 [_ [Hp0 _]]]].
      destruct (proj1 Hwf L nL e HL He) as [m1 [H1' Hp1]]. congruence.
    + intro Hdp. exfalso. destruct HQ as [_ [[nL' [H2a [_ [_ [_ H2e]]]]] _]].
      rewrite H2a in Hx. injection Hx as <-. rewrite H2e in Hp.
      pose proof (proj2 Hwf L nL p HL Hp). pose proof (desc_ge p Hdp). lia.
  - (* a waiting child of a running node *)
    intros st x n z nz HQ HO Hx Hr Hz Hnz Hw.
    destruct (OK_cases x HO) as [HO'|[->|[ -> | -> ]]].
    + intro HDz. right; right. destruct HQ as [_ [_ [_ H4]]]. exact (H4 x n z HO' Hx Hz HDz).
    + destruct (QK_sink st o n HQ (or_introl eq_refl) Hx) as [Hc _]. rewrite Hc in Hz. destruct Hz.
    + destruct (QK_sink st e n HQ (or_intror eq_refl) Hx) as [Hc _]. rewrite Hc in Hz. destruct Hz.
    + destruct HQ as [_ [[nL' [H2a [H2b _]]] _]]. congruence.
  - (* a node running its serial loop *)
    intros st x n HQ HO Hx Hr. destruct (OK_cases x HO) as [HO'|[->|[ -> | -> ]]]; [exact HO'| | |].
    + destruct (QK_sink st o n HQ (or_introl eq_refl) Hx) as [_ Hk]. congruence.
    + destruct (QK_sink st e n HQ (or_intror eq_refl) Hx) as [_ Hk]. congruence.
    + destruct HQ as [_ [[nL' [H2a [H2b _]]] _]]. congruence.
  - intros st x n z nz HQ HO Hx Hz Hnz Hw HDz.
    right; right. destruct HQ as [_ [_ [_ H4]]]. exact (H4 x n z HO Hx Hz HDz).
  - (* starting a waiting node *)
    intros st y ny HQ HO Hy Hw.
    assert (HDy : ~ D y).
    { destruct (OK_cases y HO) as [H|[ -> |[ -> | -> ]]]; [exact H| | |].
      - destruct (QK_sink st o ny HQ (or_introl eq_refl) Hy) as [_ Hk]. congruence.
      - destruct (QK_sink st e ny HQ (or_intror eq_refl) Hy) as [_ Hk]. congruence.
      - destruct HQ as [_ [[nL' [H2a [H2b _]]] _]]. congruence. }
    assert (HQr : QK (setRunning y st)) by exact (QK_setCore_outside st y _ HQ HDy).
    split; [exact HQr|intros _].
    apply QK_attach; [exact HQr|exact HDy|].
    unfold setRunning. rewrite length_upd. exact (getNode_lt _ _ _ Hy).
  - intros st p i HQ _. apply (QK_ext st); [reflexivity|exact HQ].
Qed.

Lemma exit_keeps_L fuel st' :
  exitCallback fuel code o e st0 = Some st' ->
  exists nL', getNode st' L = Some nL' /\ status (core nL') = killed.
Proof.
  rewrite exitCallback_writes. intro H.
  destruct (notify fuel o (exitWrites code o e st0)) as [st2|] eqn:E2; [|discriminate].
  assert (HO : forall z, z = o \/ z = e -> OK z)
    by (intros z [ -> | -> ] _; [left|right; left]; reflexivity).
  pose proof (QK_kept fuel o _ st2 QK_st1 (HO o (or_introl eq_refl)) E2) as HQ2.
  destruct (QK_kept fuel e st2 st' HQ2 (HO e (or_intror eq_refl)) H)
    as [_ [[nL' [H2a [H2b _]]] _]].
  exists nL'. split; assumption.
Qed.

End ExitAfterKill.





(** *** Restart *)

Definition ignoredAt (st : Store) (c : nat) : Prop :=
  exists n, getNode st c = Some n /\ ignored (core n) = true.

Lemma ignoredAt_setCore st c z f :
  (forall m, ignored (f m) = ignored m) -> ignoredAt st c ->
  ignoredAt (updNode z (setCore f) st) c.
Proof.
  intros Hf [n [Hn Hi]]. unfold ignoredAt. rewrite getNode_setCore_map, Hn. cbn.
  destruct (Nat.eqb z c); eexists; split; try reflexivity; cbn; rewrite ?Hf; exact Hi.
Qed.

Lemma ignoredAt_attach st c y :
  y < List.length (nodes st) -> ignoredAt st c -> ignoredAt (attachSinks y st) c.
Proof.
  intros Hy [n [Hn Hi]]. unfold ignoredAt.
  destruct (Nat.eq_dec y c) as [<-|Hne].
  - rewrite (getNode_attach_self _ _ _ Hn). eexists; split; [reflexivity|exact Hi].
  - rewrite getNode_attach_old by (exact (getNode_lt _ _ _ Hn) || exact Hne).
    exists n. auto.
Qed.

Section Restart.
Variables (x o c0 c1 : nat) (old : list nat).

(** The state [restartNode] leaves behind, and every pass keeps: [x]
    running with a live handle and its two new sinks first, the sinks
    as created, the two old sinks ignored. *)
Definition restarted (st : Store) : Prop :=
  (exists nx, getNode st x = Some nx /\ status (core nx) = running /\ raw (core nx) = true /\
     children nx = o :: S o :: old) /\
  getNode st o = Some (sinkNode "<out>" x) /\ getNode st (S o) = Some (sinkNode "<err>" x) /\
  ignoredAt st c0 /\ ignoredAt st c1.

Lemma restarted_kept fuel y st st' :
  restarted st -> notify fuel y st = Some st' -> restarted st'.
Proof.
  intros HQ H.
  destruct (preserve_all restarted (fun _ => True) (fun _ => True)) with (fuel := fuel)
    as [A _]; [| | | | | | |exact (proj1 (A y st st' HQ I H))].
  - intros st0 z st1 [[nx [Hx [Hr [Hw Hc]]]] [Ho [Ho' [I0 I1]]]] _ E.
    destruct (recomputeAt_inv _ _ _ E) as [n [kids [Hz [Hk ->]]]].
    assert (Hsink : forall nm, getNode st0 z = Some (sinkNode nm x) ->
              setCore (fun _ => recomputeStatus (core n) (map core kids)) (sinkNode nm x)
              = sinkNode nm x).
    { intros nm Hs. rewrite Hz in Hs. injection Hs as ->. cbn in Hk. injection Hk as <-.
      reflexivity. }
    split; [|split; [|split; [|split]]].
    + rewrite getNode_setCore_map, Hx. cbn [option_map].
      destruct (Nat.eqb z x) eqn:Ez; [|eexists; repeat split; eassumption].
      apply Nat.eqb_eq in Ez; subst z. rewrite Hx in Hz. injection Hz as <-.
      eexists; split; [reflexivity|]. unfold setCore; cbn [core children].
      destruct (recompute_keeps (core nx) (map core kids)) as [_ [_ [_ [Hraw _]]]].
      split; [|split; [congruence|exact Hc]].
      rewrite Hc in Hk. destruct (getAll_In _ _ _ o Hk (or_introl eq_refl)) as [no [Hno Hin]].
      rewrite Ho in Hno. injection Hno as <-.
      apply (recompute_running _ _ (core (sinkNode "<out>" x))); [|reflexivity|reflexivity].
      apply in_map, Hin.
    + rewrite getNode_setCore_map, Ho. cbn [option_map].
      destruct (Nat.eqb z o) eqn:Ez; [|reflexivity].
      apply Nat.eqb_eq in Ez; subst z. rewrite (Hsink _ Ho). reflexivity.
    + rewrite getNode_setCore_map, Ho'. cbn [option_map].
      destruct (Nat.eqb z (S o)) eqn:Ez; [|reflexivity].
      apply Nat.eqb_eq in Ez; subst z. rewrite (Hsink _ Ho'). reflexivity.
    + destruct I0 as [n0 [H0 Hi0]]. exists (if Nat.eqb z c0 then
        setCore (fun _ => recomputeStatus (core n) (map core kids)) n0 else n0).
      rewrite getNode_setCore_map, H0. split; [reflexivity|].
      destruct (Nat.eqb z c0) eqn:Ez; [|exact Hi0].
      apply Nat.eqb_eq in Ez; subst z. rewrite Hz in H0. injection H0 as ->.
      unfold setCore; cbn [core]. rewrite (proj2 (proj2 (proj2 (proj2 (recompute_keeps _ _))))).
      exact Hi0.
    + destruct I1 as [n1 [H1 Hi1]]. exists (if Nat.eqb z c1 then
        setCore (fun _ => recomputeStatus (core n) (map core kids)) n1 else n1).
      rewrite getNode_setCore_map, H1. split; [reflexivity|].
      destruct (Nat.eqb z c1) eqn:Ez; [|exact Hi1].
      apply Nat.eqb_eq in Ez; subst z. rewrite Hz in H1. injection H1 as ->.
      unfold setCore; cbn [core]. rewrite (proj2 (proj2 (proj2 (proj2 (recompute_keeps _ _))))).
      exact Hi1.
  - auto.
  - auto.
  - auto.
  - auto.
  - intros st0 z nz [[nx [Hx [Hr [Hw Hc]]]] [Ho [Ho' [I0 I1]]]] _ Hz Hwz.
    assert (Hzx : z <> x) by (intros ->; congruence).
    assert (Hzo : z <> o) by (intros ->; rewrite Ho in Hz; injection Hz as <-; discriminate).
    assert (Hzo' : z <> S o) by (intros ->; rewrite Ho' in Hz; injection Hz as <-; discriminate).
    assert (HR : restarted (setRunning z st0)).
    { unfold setRunning. split; [|split; [|split; [|split]]].
      - rewrite getNode_upd_other by congruence. eexists; repeat split; eassumption.
      - rewrite getNode_upd_other by congruence. exact Ho.
      - rewrite getNode_upd_other by congruence. exact Ho'.
      - apply ignoredAt_setCore; [reflexivity|exact I0].
      - apply ignoredAt_setCore; [reflexivity|exact I1]. }
    split; [exact HR|intros _].
    assert (Hlt : z < List.length (nodes (setRunning z st0)))
      by (unfold setRunning; rewrite length_upd; exact (getNode_lt _ _ _ Hz)).
    destruct HR as [[nx' [Hx' [Hr' [Hw' Hc']]]] [Ho2 [Ho2' [I0' I1']]]].
    split; [|split; [|split; [|split]]].
    + rewrite getNode_attach_old by (exact (getNode_lt _ _ _ Hx') || congruence).
      eexists; repeat split; eassumption.
    + rewrite getNode_attach_old by (exact (getNode_lt _ _ _ Ho2) || congruence). exact Ho2.
    + rewrite getNode_attach_old by (exact (getNode_lt _ _ _ Ho2') || congruence). exact Ho2'.
    + apply ignoredAt_attach; assumption.
    + apply ignoredAt_attach; assumption.
  - intros st0 p i HQ0 _. exact HQ0.
Qed.

End Restart.



End TreeFacts.
